(** * smtpClient.js: an SMTP client protocol engine

    A shallow embedding of [src/smtpClient.js] (line reader, response wait,
    MIME builder, dot-stuffing and the [SMTPClient.send] state machine) and
    the properties of it that the specification states.

    Conventions.
    - A JavaScript string is the list of its UTF-16 code units ([jsstring]);
      a [Buffer] chunk is the list of its bytes ([bytes]).  Both are lists
      of [Z], indices are [Z] as in the source ([indexOf] answers [-1]).
    - Loops that the source writes as [while] or as a global regular
      expression replace carry a fuel argument; the entry points give them
      the length of the text, which the lemmas below show is enough.
    - What Node supplies and the source only calls (upper-casing, the clock,
      the random source) is gathered in the record [Env]. *)

From Stdlib Require Import String Ascii.
From Stdlib Require Import List ZArith Lia Bool.
Import ListNotations.
Local Open Scope Z_scope.

(** ** JavaScript strings *)

Definition jsstring := list Z.
Definition bytes := list Z.

(** An ASCII literal of the source, as code units. *)
Definition lit (s : string) : jsstring :=
  map (fun a => Z.of_nat (nat_of_ascii a)) (list_ascii_of_string s).
Arguments lit s%_string.

Definition CR : Z := 13.
Definition LF : Z := 10.
Definition DOT : Z := 46.
Definition SP : Z := 32.
Definition DASH : Z := 45.
Definition DQUOTE : Z := 34.

(** [const CRLF = "\r\n"] *)
Definition CRLF : jsstring := [CR; LF].

Module Str.

(** [s.startsWith(p)] *)
Fixpoint startsWith (p s : jsstring) : bool :=
  match p, s with
  | [], _ => true
  | _ :: _, [] => false
  | a :: p', b :: s' => (a =? b) && startsWith p' s'
  end.

Fixpoint indexOfFrom (p s : jsstring) (i : Z) : Z :=
  if startsWith p s then i
  else match s with
       | [] => -1
       | _ :: s' => indexOfFrom p s' (i + 1)
       end.

(** [s.indexOf(p)]: the first position where [p] occurs, [-1] if none. *)
Definition indexOf (p s : jsstring) : Z := indexOfFrom p s 0.

(** [s.includes(p)] *)
Definition includes (p s : jsstring) : bool := 0 <=? indexOf p s.

Definition clampIndex (len i : Z) : Z :=
  if i <? 0 then Z.max (len + i) 0 else Z.min i len.

(** [s.slice(b, e)] *)
Definition slice (s : jsstring) (b e : Z) : jsstring :=
  let len := Z.of_nat (length s) in
  let from := clampIndex len b in
  let to := clampIndex len e in
  firstn (Z.to_nat (to - from)) (skipn (Z.to_nat from) s).

(** [s.slice(b)] *)
Definition sliceFrom (s : jsstring) (b : Z) : jsstring :=
  slice s b (Z.of_nat (length s)).

(** [arr.join(sep)] on an array of strings. *)
Fixpoint join (sep : jsstring) (l : list jsstring) : jsstring :=
  match l with
  | [] => []
  | [x] => x
  | x :: l' => x ++ sep ++ join sep l'
  end.

(** [s.replace(re, repl)] for a global regular expression [re] that never
    matches the empty string: [m s] is the length of the match of [re]
    anchored at the start of [s], if there is one.  Matches are taken
    leftmost first and do not overlap. *)
Fixpoint replaceAllFuel (m : jsstring -> option nat) (repl : jsstring)
         (fuel : nat) (s : jsstring) : jsstring :=
  match fuel with
  | O => s
  | S fuel' =>
      match m s with
      | Some n => repl ++ replaceAllFuel m repl fuel' (skipn n s)
      | None =>
          match s with
          | [] => []
          | c :: s' => c :: replaceAllFuel m repl fuel' s'
          end
      end
  end.

Definition replaceAll (m : jsstring -> option nat) (repl s : jsstring) : jsstring :=
  replaceAllFuel m repl (length s) s.

End Str.

(** ** Regular expressions of the source *)

Module Re.

Definition isDigit (c : Z) : bool := (48 <=? c) && (c <=? 57).
Definition isUpper (c : Z) : bool := (65 <=? c) && (c <=? 90).
Definition isLower (c : Z) : bool := (97 <=? c) && (c <=? 122).

(** [\w] without the [u] flag. *)
Definition isWordChar (c : Z) : bool :=
  isDigit c || isUpper c || isLower c || (c =? 95).

(** What [.] refuses: LF, CR, U+2028, U+2029. *)
Definition isLineTerminator (c : Z) : bool :=
  (c =? 10) || (c =? 13) || (c =? 8232) || (c =? 8233).

(** Canonicalisation under the [i] flag (no [u] flag), exact against the
    ASCII letters the patterns of the source are made of: a code unit from
    128 up never canonicalises to one below 128. *)
Definition canon (c : Z) : Z := if isLower c then c - 32 else c.

Fixpoint startsWithCI (p s : jsstring) : bool :=
  match p, s with
  | [], _ => true
  | _ :: _, [] => false
  | a :: p', b :: s' => (canon a =? canon b) && startsWithCI p' s'
  end.

(** [/p/i.test(s)] for a literal [p]. *)
Fixpoint testCI (p s : jsstring) : bool :=
  startsWithCI p s
  || match s with
     | [] => false
     | _ :: s' => testCI p s'
     end.

(** [\b] right after a word character: the text ends or goes on with a
    character that is not a word character. *)
Definition boundaryAfterWord (rest : jsstring) : bool :=
  match rest with
  | [] => true
  | c :: _ => negb (isWordChar c)
  end.

(** [/AUTH\b/i.test(s)] *)
Fixpoint testAuthWord (s : jsstring) : bool :=
  (startsWithCI (lit "AUTH") s && boundaryAfterWord (skipn 4 s))
  || match s with
     | [] => false
     | _ :: s' => testAuthWord s'
     end.

(** The pattern [/\r?\n/] anchored at the start of [s]. *)
Definition matchEol (s : jsstring) : option nat :=
  if Str.startsWith [CR; LF] s then Some 2%nat
  else if Str.startsWith [LF] s then Some 1%nat
  else None.

(** The pattern [/\r?\n\./] anchored at the start of [s]. *)
Definition matchEolDot (s : jsstring) : option nat :=
  if Str.startsWith [CR; LF; DOT] s then Some 3%nat
  else if Str.startsWith [LF; DOT] s then Some 2%nat
  else None.

(** [line.match(re)] for the reply pattern of [readResponse]: anchored at
    both ends, three digits, then a space or a dash, then any characters
    that [.] accepts.  The groups [m[1]], [m[2]], [m[3]]. *)
Definition matchReply (line : jsstring) : option (jsstring * Z * jsstring) :=
  match line with
  | d1 :: d2 :: d3 :: sep :: rest =>
      if isDigit d1 && isDigit d2 && isDigit d3
         && ((sep =? SP) || (sep =? DASH))
         && forallb (fun c => negb (isLineTerminator c)) rest
      then Some ([d1; d2; d3], sep, rest)
      else None
  | _ => None
  end.

(** [parseInt(s, 10)] on a string of decimal digits (all that the first
    group of [matchReply] can hold). *)
Definition parseInt10 (s : jsstring) : Z :=
  fold_left (fun acc d => acc * 10 + (d - 48)) s 0.

End Re.

(** ** UTF-8, as [Buffer] decodes and encodes it *)

Module Utf8.

Definition REPLACEMENT : Z := 65533.

Record decoder := mkDecoder {
  codePoint : Z;
  needed : Z;
  seen : Z;
  lower : Z;
  upper : Z
}.

Definition initial : decoder := mkDecoder 0 0 0 128 191.

Definition inRange (lo hi b : Z) : bool := (lo <=? b) && (b <=? hi).

(** A lead byte, or a byte met with no sequence pending. *)
Definition lead (b : Z) : list Z * decoder :=
  if inRange 0 127 b then ([b], initial)
  else if inRange 194 223 b then ([], mkDecoder (Z.land b 31) 1 0 128 191)
  else if inRange 224 239 b then
    ([], mkDecoder (Z.land b 15) 2 0
           (if b =? 224 then 160 else 128) (if b =? 237 then 159 else 191))
  else if inRange 240 244 b then
    ([], mkDecoder (Z.land b 7) 3 0
           (if b =? 240 then 144 else 128) (if b =? 244 then 143 else 191))
  else ([REPLACEMENT], initial).

(** One byte through the decoder: the code points it completes, and the
    new state.  A byte that cannot continue the pending sequence ends it
    with U+FFFD and is then read again as a lead byte. *)
Definition step (d : decoder) (b : Z) : list Z * decoder :=
  if needed d =? 0 then lead b
  else if negb (inRange (lower d) (upper d) b) then
    let (out, d') := lead b in (REPLACEMENT :: out, d')
  else
    let cp := Z.lor (Z.shiftl (codePoint d) 6) (Z.land b 63) in
    if seen d + 1 =? needed d then ([cp], initial)
    else ([], mkDecoder cp (needed d) (seen d + 1) 128 191).

Fixpoint run (d : decoder) (bs : bytes) : list Z :=
  match bs with
  | [] => if needed d =? 0 then [] else [REPLACEMENT]
  | b :: bs' => let (out, d') := step d b in out ++ run d' bs'
  end.

(** A code point as UTF-16 code units. *)
Definition toUtf16 (cp : Z) : jsstring :=
  if cp <? 65536 then [cp]
  else let v := cp - 65536 in
       [55296 + Z.shiftr v 10; 56320 + Z.land v 1023].

(** [chunk.toString("utf8")] *)
Definition toString (chunk : bytes) : jsstring :=
  flat_map toUtf16 (run initial chunk).

Definition isHighSurrogate (c : Z) : bool := inRange 55296 56319 c.
Definition isLowSurrogate (c : Z) : bool := inRange 56320 57343 c.

(** The code points of a string; a surrogate on its own reads as U+FFFD. *)
Fixpoint codePoints (s : jsstring) : list Z :=
  match s with
  | [] => []
  | c :: s' =>
      match s' with
      | c2 :: s'' =>
          if isHighSurrogate c && isLowSurrogate c2
          then (65536 + (c - 55296) * 1024 + (c2 - 56320)) :: codePoints s''
          else (if isHighSurrogate c || isLowSurrogate c then REPLACEMENT else c)
               :: codePoints s'
      | [] => [if isHighSurrogate c || isLowSurrogate c then REPLACEMENT else c]
      end
  end.

Definition encodeCodePoint (cp : Z) : bytes :=
  if cp <? 128 then [cp]
  else if cp <? 2048 then
    [192 + Z.shiftr cp 6; 128 + Z.land cp 63]
  else if cp <? 65536 then
    [224 + Z.shiftr cp 12; 128 + Z.land (Z.shiftr cp 6) 63; 128 + Z.land cp 63]
  else
    [240 + Z.shiftr cp 18; 128 + Z.land (Z.shiftr cp 12) 63;
     128 + Z.land (Z.shiftr cp 6) 63; 128 + Z.land cp 63].

(** [Buffer.from(str, "utf8")] *)
Definition fromString (s : jsstring) : bytes :=
  flat_map encodeCodePoint (codePoints s).

End Utf8.

(** ** Base64 *)

Module Base64.

Definition alphabet : jsstring :=
  lit "ABCDEFGHIJKLMNOPQRSTUVWXYZabcdefghijklmnopqrstuvwxyz0123456789+/".

Definition digit (n : Z) : Z := nth (Z.to_nat n) alphabet 0.

Definition PAD : Z := 61.

(** [buf.toString("base64")] *)
Fixpoint encode (bs : bytes) : jsstring :=
  match bs with
  | a :: b :: c :: rest =>
      let n := a * 65536 + b * 256 + c in
      digit (Z.shiftr n 18) :: digit (Z.land (Z.shiftr n 12) 63)
        :: digit (Z.land (Z.shiftr n 6) 63) :: digit (Z.land n 63)
        :: encode rest
  | [a; b] =>
      let n := a * 65536 + b * 256 in
      [digit (Z.shiftr n 18); digit (Z.land (Z.shiftr n 12) 63);
       digit (Z.land (Z.shiftr n 6) 63); PAD]
  | [a] =>
      let n := a * 65536 in
      [digit (Z.shiftr n 18); digit (Z.land (Z.shiftr n 12) 63); PAD; PAD]
  | [] => []
  end.

End Base64.

(** [function base64(str)] *)
Definition base64 (str : jsstring) : jsstring :=
  Base64.encode (Utf8.fromString str).

(** ** createLineReader *)

Module LineReader.

(** The [while] loop of [onData]: as long as the buffer holds a CRLF, cut
    the line before it off the buffer and emit it.  Answers the lines
    emitted, in order, and the buffer that stays. *)
Fixpoint drain (fuel : nat) (buffer : jsstring) : list jsstring * jsstring :=
  match fuel with
  | O => ([], buffer)
  | S fuel' =>
      let idx := Str.indexOf CRLF buffer in
      if 0 <=? idx then
        let line := Str.slice buffer 0 idx in
        let buffer' := Str.sliceFrom buffer (idx + 2) in
        let (emitted, rest) := drain fuel' buffer' in
        (line :: emitted, rest)
      else ([], buffer)
  end.

(** [onData(chunk)], on the text of the chunk. *)
Definition onText (buffer text : jsstring) : list jsstring * jsstring :=
  let buffer := buffer ++ text in
  drain (length buffer) buffer.

(** [onData(chunk)]: [buffer += chunk.toString("utf8")], then the loop. *)
Definition onData (buffer : jsstring) (chunk : bytes) : list jsstring * jsstring :=
  onText buffer (Utf8.toString chunk).

(** A reader that is handed the chunks one after the other: every line it
    emits, in order, and its last buffer. *)
Fixpoint feed (buffer : jsstring) (chunks : list bytes) : list jsstring * jsstring :=
  match chunks with
  | [] => ([], buffer)
  | chunk :: chunks' =>
      let (emitted, buffer') := onData buffer chunk in
      let (emitted', buffer'') := feed buffer' chunks' in
      (emitted ++ emitted', buffer'')
  end.

(** The same on chunks of text. *)
Fixpoint feedText (buffer : jsstring) (texts : list jsstring) : list jsstring * jsstring :=
  match texts with
  | [] => ([], buffer)
  | text :: texts' =>
      let (emitted, buffer') := onText buffer text in
      let (emitted', buffer'') := feedText buffer' texts' in
      (emitted ++ emitted', buffer'')
  end.

(** [listeners.forEach((fn) => fn(line))], a listener being a function that
    updates a state of type [S]; then the same for every line emitted. *)
Definition emit {S : Type} (listeners : list (jsstring -> S -> S))
           (line : jsstring) (s : S) : S :=
  fold_left (fun s fn => fn line s) listeners s.

Definition emitAll {S : Type} (listeners : list (jsstring -> S -> S))
           (emitted : list jsstring) (s : S) : S :=
  fold_left (fun s line => emit listeners line s) emitted s.

End LineReader.

(** ** readResponse: the listener [onLine] *)

(** The errors [send] and [readResponse] raise, by the place that raises
    them; [errorMessage] gives the text of each. *)
Inductive error :=
| FromRequired
| RecipientRequired
| BannerFailed (lines : list jsstring)
| HeloFailed (lines : list jsstring)
| StartTlsFailed (lines : list jsstring)
| EhloAfterTlsFailed (lines : list jsstring)
| AuthPlainFailed (lines : list jsstring)
| AuthLoginRefused (lines : list jsstring)
| UserRefused (lines : list jsstring)
| PassRefused (lines : list jsstring)
| NoAuthMechanism
| MailFromFailed (lines : list jsstring)
| RcptFailed (rcpt : jsstring) (lines : list jsstring)
| DataRefused (lines : list jsstring)
| BodyFailed (lines : list jsstring)
| Timeout
| TransportError (err : jsstring).

(** The state of a promise. *)
Inductive promise :=
| Unsettled
| Resolved (code : Z)
| Rejected (e : error).

(** What one call of [readResponse] holds: the buffer of its line reader,
    its array [lines], its variable [code], and its promise.  The value the
    promise resolves to is [{ code, lines }]: the number [code] had at that
    moment, and the array [lines] itself, not a copy. *)
Record wait := mkWait {
  buffer : jsstring;
  lines : list jsstring;
  code : option Z;
  settled : promise
}.

Definition newWait : wait := mkWait [] [] None Unsettled.

(** [resolve(v)] and [reject(e)] settle a promise once; later calls do
    nothing. *)
Definition settle (p : promise) (w : wait) : wait :=
  match settled w with
  | Unsettled => mkWait (buffer w) (lines w) (code w) p
  | _ => w
  end.

(** Whether a line ends a reply: it matches the pattern and its separator
    is a space. *)
Definition terminal (line : jsstring) : bool :=
  match Re.matchReply line with
  | Some (_, sep, _) => sep =? SP
  | None => false
  end.

(** The listener [onLine] of [readResponse]; [reader.remove()], which it
    calls on a terminal line, acts on the socket and is [detaches] below. *)
Definition onLine (line : jsstring) (w : wait) : wait :=
  let w := mkWait (buffer w) (lines w ++ [line]) (code w) (settled w) in
  match Re.matchReply line with
  | Some (digits, sep, _) =>
      let currentCode := Re.parseInt10 digits in
      let w := mkWait (buffer w) (lines w) (Some currentCode) (settled w) in
      if sep =? SP then settle (Resolved currentCode) w else w
  | None => w
  end.

(** The lines of one chunk, handed to [onLine] one after the other. *)
Definition onLines (emitted : list jsstring) (w : wait) : wait :=
  fold_left (fun w line => onLine line w) emitted w.

(** Whether [onLine] calls [reader.remove()] on one of these lines. *)
Definition detaches (emitted : list jsstring) : bool := existsb terminal emitted.

(** [onData] of the reader of a wait, with [onLine] as its one listener. *)
Definition waitOnData (chunk : bytes) (w : wait) : wait :=
  let (emitted, rest) := LineReader.onData (buffer w) chunk in
  onLines emitted (mkWait rest (lines w) (code w) (settled w)).

Definition chunkDetaches (chunk : bytes) (w : wait) : bool :=
  detaches (fst (LineReader.onData (buffer w) chunk)).

(** ** What Node supplies *)

Record Env := mkEnv {
  (** [String.prototype.toUpperCase] *)
  toUpperCase : jsstring -> jsstring;
  (** [new Date().toUTCString()] and [Date.now()] printed, in [buildMime] *)
  utcDate : jsstring;
  nowMs : jsstring;
  (** [Math.random().toString(36).slice(2)], at its three calls in [buildMime] *)
  randomId : jsstring;
  randomAlt : jsstring;
  randomMix : jsstring
}.

(** ** Values of the caller *)

(** A value that is [undefined] or a string. *)
Definition truthy (v : option jsstring) : bool :=
  match v with
  | Some (_ :: _) => true
  | _ => false
  end.

(** [`${v}`] *)
Definition render (v : option jsstring) : jsstring :=
  match v with
  | Some s => s
  | None => lit "undefined"
  end.

(** [v || ""] and [v ?? ""] *)
Definition orEmpty (v : option jsstring) : jsstring :=
  if truthy v then render v else [].

Definition nullish (v : option jsstring) : jsstring :=
  match v with
  | Some s => s
  | None => []
  end.

(** What the caller may pass for [to], [cc] and [bcc]: nothing, one address
    as a string, or an array of addresses. *)
Inductive addresses :=
| Absent
| Single (addr : jsstring)
| Several (addrs : list jsstring).

Record attachment := mkAttachment {
  filename : jsstring;
  contentBase64 : jsstring;
  contentType : option jsstring
}.

Record message := mkMessage {
  from : option jsstring;
  to : addresses;
  cc : addresses;
  bcc : addresses;
  subject : option jsstring;
  text : option jsstring;
  html : option jsstring;
  (** absent and empty read the same everywhere: [attachments = []] by
      default, and the test is [!attachments?.length] *)
  attachments : list attachment
}.

Record config := mkConfig {
  host : jsstring;
  port : Z;
  secure : bool;
  user : option jsstring;
  pass : option jsstring;
  helo : jsstring
}.

(** The constructor of [SMTPClient], with its defaults. *)
Definition SMTPClient (host : jsstring) (port : option Z) (secure : option bool)
           (user pass : option jsstring) (helo : option jsstring) : config :=
  mkConfig host
           (match port with Some p => p | None => 587 end)
           (match secure with Some s => s | None => false end)
           user pass
           (match helo with Some h => h | None => lit "localhost" end).

(** [[].concat(v || [])] *)
Definition concatArg (v : addresses) : list jsstring :=
  match v with
  | Absent => []
  | Single [] => []
  | Single addr => [addr]
  | Several addrs => addrs
  end.

(** The array [recipients] of [send]. *)
Definition recipientsOf (msg : message) : list jsstring :=
  ([] ++ concatArg (to msg)) ++ concatArg (cc msg) ++ concatArg (bcc msg).

(** ** buildMime *)

Module Mime.

(** [Array.isArray(to) ? to.join(", ") : to] *)
Definition toList (v : addresses) : option jsstring :=
  match v with
  | Absent => None
  | Single addr => Some addr
  | Several addrs => Some (Str.join (lit ", ") addrs)
  end.

(** [cc ? (Array.isArray(cc) ? cc.join(", ") : cc) : undefined] *)
Definition ccList (v : addresses) : option jsstring :=
  match v with
  | Absent => None
  | Single [] => None
  | Single addr => Some addr
  | Several addrs => Some (Str.join (lit ", ") addrs)
  end.

(** [...(ccList ? { "Cc": ccList } : {})] *)
Definition optionalHeader (name : jsstring) (v : option jsstring)
  : list (jsstring * option jsstring) :=
  if truthy v then [(name, v)] else [].

(** [function joinHeaders(headersObj)] *)
Definition joinHeaders (headersObj : list (jsstring * option jsstring)) : jsstring :=
  Str.join CRLF (map (fun kv => fst kv ++ lit ": " ++ render (snd kv)) headersObj).

Definition quoted (s : jsstring) : jsstring := [DQUOTE] ++ s ++ [DQUOTE].

Definition attachmentPart (mixedBoundary : jsstring) (att : attachment) : jsstring :=
  let ctype := match contentType att with
               | Some t => t
               | None => lit "application/octet-stream"
               end in
  lit "--" ++ mixedBoundary ++ CRLF
  ++ lit "Content-Type: " ++ ctype ++ lit "; name=" ++ quoted (filename att) ++ CRLF
  ++ lit "Content-Transfer-Encoding: base64" ++ CRLF
  ++ lit "Content-Disposition: attachment; filename=" ++ quoted (filename att)
  ++ CRLF ++ CRLF
  ++ contentBase64 att ++ CRLF.

(** [function buildMime({ from, to, cc, bcc, subject, text, html, attachments })] *)
Definition buildMime (env : Env) (msg : message) : jsstring :=
  let date := utcDate env in
  let messageId := lit "<" ++ nowMs env ++ lit "." ++ randomId env ++ lit "@local>" in
  let headers :=
    [(lit "From", from msg); (lit "To", toList (to msg))]
    ++ optionalHeader (lit "Cc") (ccList (cc msg))
    ++ optionalHeader (lit "Bcc") (ccList (bcc msg))
    ++ [(lit "Subject", Some (nullish (subject msg)));
        (lit "Date", Some date);
        (lit "Message-ID", Some messageId);
        (lit "MIME-Version", Some (lit "1.0"))] in
  let altBoundary := lit "alt_" ++ randomAlt env in
  let mixedBoundary := lit "mix_" ++ randomMix env in
  let textPart :=
    lit "--" ++ altBoundary ++ CRLF
    ++ lit "Content-Type: text/plain; charset=" ++ quoted (lit "utf-8") ++ CRLF
    ++ lit "Content-Transfer-Encoding: 7bit" ++ CRLF ++ CRLF
    ++ orEmpty (text msg) ++ CRLF in
  let htmlPart :=
    lit "--" ++ altBoundary ++ CRLF
    ++ lit "Content-Type: text/html; charset=" ++ quoted (lit "utf-8") ++ CRLF
    ++ lit "Content-Transfer-Encoding: 7bit" ++ CRLF ++ CRLF
    ++ orEmpty (html msg) ++ CRLF in
  let altClosing := lit "--" ++ altBoundary ++ lit "--" ++ CRLF in
  let altBody :=
    lit "Content-Type: multipart/alternative; boundary=" ++ quoted altBoundary
    ++ CRLF ++ CRLF
    ++ textPart ++ htmlPart ++ altClosing in
  match attachments msg with
  | [] => joinHeaders headers ++ CRLF ++ altBody
  | atts =>
      let mixedBody :=
        joinHeaders headers ++ CRLF
        ++ lit "Content-Type: multipart/mixed; boundary=" ++ quoted mixedBoundary
        ++ CRLF ++ CRLF
        ++ lit "--" ++ mixedBoundary ++ CRLF ++ altBody in
      let mixedBody :=
        fold_left (fun acc att => acc ++ attachmentPart mixedBoundary att) atts mixedBody in
      mixedBody ++ lit "--" ++ mixedBoundary ++ lit "--" ++ CRLF
  end.

End Mime.

(** [function dotStuff(body)] *)
Definition dotStuff (body : jsstring) : jsstring :=
  Str.replaceAll Re.matchEolDot (CRLF ++ [DOT; DOT]) body.

(** [raw.replace(/\r?\n/g, CRLF)] *)
Definition normalize (raw : jsstring) : jsstring :=
  Str.replaceAll Re.matchEol CRLF raw.

(** The text of each error. *)
Definition joinLines (ls : list jsstring) : jsstring := Str.join [LF] ls.

Definition errorMessage (e : error) : jsstring :=
  match e with
  | FromRequired => lit "Campo 'from' " ++ [233] ++ lit " obrigat" ++ [243] ++ lit "rio"
  | RecipientRequired =>
      lit "Ao menos um destinat" ++ [225] ++ lit "rio " ++ [233]
      ++ lit " obrigat" ++ [243] ++ lit "rio"
  | BannerFailed ls => lit "Falha no banner SMTP: " ++ joinLines ls
  | HeloFailed ls => lit "HELO/EHLO falhou: " ++ joinLines ls
  | StartTlsFailed ls => lit "STARTTLS falhou: " ++ joinLines ls
  | EhloAfterTlsFailed ls =>
      lit "EHLO p" ++ [243] ++ lit "s-STARTTLS falhou: " ++ joinLines ls
  | AuthPlainFailed ls => lit "AUTH PLAIN falhou: " ++ joinLines ls
  | AuthLoginRefused ls =>
      lit "AUTH LOGIN n" ++ [227] ++ lit "o aceito: " ++ joinLines ls
  | UserRefused ls =>
      lit "Usu" ++ [225] ++ lit "rio n" ++ [227] ++ lit "o aceito: " ++ joinLines ls
  | PassRefused ls => lit "Senha n" ++ [227] ++ lit "o aceita: " ++ joinLines ls
  | NoAuthMechanism => lit "Servidor n" ++ [227] ++ lit "o anuncia AUTH PLAIN/Login"
  | MailFromFailed ls => lit "MAIL FROM falhou: " ++ joinLines ls
  | RcptFailed rcpt ls => lit "RCPT TO " ++ rcpt ++ lit " falhou: " ++ joinLines ls
  | DataRefused ls => lit "DATA n" ++ [227] ++ lit "o aceito: " ++ joinLines ls
  | BodyFailed ls => lit "Envio do corpo falhou: " ++ joinLines ls
  | Timeout => lit "Timeout aguardando resposta SMTP"
  | TransportError err => err
  end.

(** ** The socket and its surroundings *)

(** The two event emitters a session can meet: the socket [send] opened,
    and the TLS socket that STARTTLS wraps around it. *)
Inductive emitter := Original | Secured.

(** What the peer and the runtime deliver to the session, in order. *)
Inductive event :=
| Data (chunk : bytes)
| Failure (err : jsstring)
| Idle
| SecureConnect.

(** What the session does that can be seen from outside, and (for the
    statements below) each response a wait resolved to. *)
Inductive io :=
| Connected (tls : bool) (port : Z) (host : jsstring)
| Wrote (via : emitter) (data : jsstring)
| Received (code : Z) (lines : list jsstring)
| Upgraded
| Ended.

Record world := mkWorld {
  (** the events still to come; none left means nothing happens any more *)
  inbox : list event;
  (** what was done so far, oldest first *)
  trace : list io;
  (** whether [socket.write], [socket.on], [socket.once],
      [socket.setTimeout] and [socket.removeAllListeners] were replaced by
      those of the TLS socket; [socket.off] and [socket.end] never are *)
  rebound : bool;
  (** every [readResponse] closure made so far; a position in this list
      stands for the [onData] function of its reader *)
  waits : list wait;
  (** the [data] listeners of each emitter, in the order they were added *)
  dataOriginal : list nat;
  dataSecured : list nat
}.

Definition initialWorld (events : list event) : world :=
  mkWorld events [] false [] [] [].

Definition withInbox (evs : list event) (w : world) : world :=
  mkWorld evs (trace w) (rebound w) (waits w) (dataOriginal w) (dataSecured w).

Definition logged (e : io) (w : world) : world :=
  mkWorld (inbox w) (trace w ++ [e]) (rebound w) (waits w) (dataOriginal w) (dataSecured w).

Definition withWaits (ws : list wait) (w : world) : world :=
  mkWorld (inbox w) (trace w) (rebound w) ws (dataOriginal w) (dataSecured w).

(** The emitter that [socket.on], [socket.once], [socket.write] and
    [socket.setTimeout] reach, and that the data of the peer comes out of. *)
Definition active (w : world) : emitter :=
  if rebound w then Secured else Original.

Definition listenersOf (e : emitter) (w : world) : list nat :=
  match e with
  | Original => dataOriginal w
  | Secured => dataSecured w
  end.

(** [socket.on("data", onData)] *)
Definition socketOn (id : nat) (w : world) : world :=
  match active w with
  | Original =>
      mkWorld (inbox w) (trace w) (rebound w) (waits w) (dataOriginal w ++ [id]) (dataSecured w)
  | Secured =>
      mkWorld (inbox w) (trace w) (rebound w) (waits w) (dataOriginal w) (dataSecured w ++ [id])
  end.

Definition without (id : nat) (ids : list nat) : list nat :=
  filter (fun i => negb (Nat.eqb i id)) ids.

(** [socket.off("data", onData)]: always the method of the original socket. *)
Definition socketOff (id : nat) (w : world) : world :=
  mkWorld (inbox w) (trace w) (rebound w) (waits w)
          (without id (dataOriginal w)) (dataSecured w).

Fixpoint updateAt {A : Type} (n : nat) (f : A -> A) (l : list A) : list A :=
  match l, n with
  | [], _ => []
  | x :: l', O => f x :: l'
  | x :: l', S n' => x :: updateAt n' f l'
  end.

(** One [data] listener called with a chunk. *)
Definition deliverTo (chunk : bytes) (w : world) (id : nat) : world :=
  match nth_error (waits w) id with
  | None => w
  | Some wt =>
      let w' := withWaits (updateAt id (waitOnData chunk) (waits w)) w in
      if chunkDetaches chunk wt then socketOff id w' else w'
  end.

(** A chunk coming out of the active emitter: every listener it has at that
    moment is called, in order. *)
Definition deliver (chunk : bytes) (w : world) : world :=
  fold_left (deliverTo chunk) (listenersOf (active w) w) w.

(** ** Asynchronous computations *)

Inductive outcome (A : Type) :=
| Returned (a : A)
| Thrown (e : error)
| Pending.
Arguments Returned {A} a.
Arguments Thrown {A} e.
Arguments Pending {A}.

Definition M (A : Type) : Type := world -> outcome A * world.

Definition ret {A : Type} (a : A) : M A := fun w => (Returned a, w).

Definition throw {A : Type} (e : error) : M A := fun w => (Thrown e, w).

Definition bind {A B : Type} (m : M A) (k : A -> M B) : M B :=
  fun w =>
    match m w with
    | (Returned a, w') => k a w'
    | (Thrown e, w') => (Thrown e, w')
    | (Pending, w') => (Pending, w')
    end.

Declare Scope smtp_scope.
Delimit Scope smtp_scope with smtp.
Notation "x <- m ;; k" := (bind m (fun x => k))
  (at level 61, m at next level, right associativity) : smtp_scope.
Notation "m ;; k" := (bind m (fun _ => k))
  (at level 61, right associativity) : smtp_scope.
Local Open Scope smtp_scope.

(** [if (!ok) throw new Error(...)] *)
Definition unless (ok : bool) (e : error) : M unit :=
  if ok then ret tt else throw e.

(** [net.connect(port, host)] or [tls.connect(port, host, ...)] *)
Definition connect (cfg : config) : M unit :=
  fun w => (Returned tt, logged (Connected (secure cfg) (port cfg) (host cfg)) w).

(** [socket.write(data)] *)
Definition write (data : jsstring) : M unit :=
  fun w => (Returned tt, logged (Wrote (active w) data) w).

(** [socket.end()] *)
Definition socketEnd : M unit :=
  fun w => (Returned tt, logged Ended w).

(** ** readResponse *)

Record response := mkResponse {
  respCode : Z;
  respLines : list jsstring
}.

(** [createLineReader(socket)] with [reader.onLine(onLine)]: a new wait,
    its [onData] listening on the active emitter. *)
Definition createWait (w : world) : nat * world :=
  let id := length (waits w) in
  (id, socketOn id (withWaits (waits w ++ [newWait]) w)).

(** [reader.remove(); reject(e)] *)
Definition rejectWait (id : nat) (e : error) (w : world) : world :=
  socketOff id (withWaits (updateAt id (settle (Rejected e)) (waits w)) w).

(** The promise of wait [id] over the events to come.  The code after
    [await] runs once the chunk that resolved the promise has gone through
    every listener, and reads the array [lines] as it is then.  The
    [error] and [timeout] handlers of earlier waits run as well; their
    promises are settled and their readers are off the original socket
    already, so they change nothing. *)
Fixpoint awaitLoop (id : nat) (evs : list event) (w : world) : outcome response * world :=
  match evs with
  | [] => (Pending, withInbox [] w)
  | Data chunk :: evs' =>
      let w' := deliver chunk w in
      match nth_error (waits w') id with
      | Some (mkWait _ ls _ (Resolved c)) =>
          (Returned (mkResponse c ls), logged (Received c ls) (withInbox evs' w'))
      | _ => awaitLoop id evs' w'
      end
  | Failure err :: evs' =>
      (Thrown (TransportError err), rejectWait id (TransportError err) (withInbox evs' w))
  | Idle :: evs' =>
      (Thrown Timeout, rejectWait id Timeout (withInbox evs' w))
  | SecureConnect :: evs' => awaitLoop id evs' w
  end.

(** [async function readResponse(socket)] *)
Definition readResponse : M response :=
  fun w => let (id, w') := createWait w in awaitLoop id (inbox w') w'.

(** ** SMTPClient.send *)

(** The promise of the upgrade: it resolves when the TLS socket reports
    [secureConnect]; nothing rejects it. *)
Fixpoint handshake (evs : list event) (w : world) : outcome unit * world :=
  match evs with
  | [] => (Pending, withInbox [] w)
  | SecureConnect :: evs' => (Returned tt, withInbox evs' w)
  | Failure _ :: evs' => (Pending, withInbox evs' w)
  | Data chunk :: evs' => handshake evs' (deliver chunk w)
  | Idle :: evs' => handshake evs' w
  end.

(** [socket.removeAllListeners("data")], [tls.connect({ socket, ... })] and
    the replacement of the five methods, then the wait for the handshake. *)
Definition upgrade : M unit :=
  fun w =>
    let w' := mkWorld (inbox w) (trace w ++ [Upgraded]) true (waits w) [] (dataSecured w) in
    handshake (inbox w') w'.

Definition okReply (expected : Z) (resp : response) : bool := respCode resp =? expected.

(** 1) Banner *)
Definition banner : M unit :=
  resp <- readResponse ;;
  unless (okReply 220 resp) (BannerFailed (respLines resp)).

(** 2) EHLO, then HELO if EHLO is refused *)
Definition greet (cfg : config) : M response :=
  write (lit "EHLO " ++ helo cfg ++ CRLF) ;;
  resp <- readResponse ;;
  if negb (okReply 250 resp) then
    write (lit "HELO " ++ helo cfg ++ CRLF) ;;
    resp <- readResponse ;;
    unless (okReply 250 resp) (HeloFailed (respLines resp)) ;;
    ret resp
  else ret resp.

Definition supportsStartTLS (env : Env) (resp : response) : bool :=
  existsb (fun l => Str.includes (lit "STARTTLS") (toUpperCase env l)) (respLines resp).

(** 3) STARTTLS *)
Definition startTls (env : Env) (cfg : config) (resp : response) : M response :=
  if negb (secure cfg) && supportsStartTLS env resp then
    write (lit "STARTTLS" ++ CRLF) ;;
    resp <- readResponse ;;
    unless (okReply 220 resp) (StartTlsFailed (respLines resp)) ;;
    upgrade ;;
    write (lit "EHLO " ++ helo cfg ++ CRLF) ;;
    resp <- readResponse ;;
    unless (okReply 250 resp) (EhloAfterTlsFailed (respLines resp)) ;;
    ret resp
  else ret resp.

Definition supportsAuthLogin (resp : response) : bool :=
  existsb (fun l => Re.testAuthWord l && Re.testCI (lit "LOGIN") l) (respLines resp).

Definition supportsAuthPlain (resp : response) : bool :=
  existsb (fun l => Re.testAuthWord l && Re.testCI (lit "PLAIN") l) (respLines resp).

Definition authPlain (cfg : config) : M unit :=
  let payload := base64 ([0] ++ render (user cfg) ++ [0] ++ render (pass cfg)) in
  write (lit "AUTH PLAIN " ++ payload ++ CRLF) ;;
  resp <- readResponse ;;
  unless (okReply 235 resp) (AuthPlainFailed (respLines resp)).

Definition authLogin (cfg : config) : M unit :=
  write (lit "AUTH LOGIN" ++ CRLF) ;;
  resp <- readResponse ;;
  unless (okReply 334 resp) (AuthLoginRefused (respLines resp)) ;;
  write (base64 (render (user cfg)) ++ CRLF) ;;
  resp <- readResponse ;;
  unless (okReply 334 resp) (UserRefused (respLines resp)) ;;
  write (base64 (render (pass cfg)) ++ CRLF) ;;
  resp <- readResponse ;;
  unless (okReply 235 resp) (PassRefused (respLines resp)).

(** 4) AUTH *)
Definition authenticate (cfg : config) (resp : response) : M unit :=
  if truthy (user cfg) && truthy (pass cfg) then
    if supportsAuthPlain resp then authPlain cfg
    else if supportsAuthLogin resp then authLogin cfg
    else throw NoAuthMechanism
  else ret tt.

(** 5) MAIL FROM *)
Definition mailFrom (msg : message) : M unit :=
  write (lit "MAIL FROM:<" ++ render (from msg) ++ lit ">" ++ CRLF) ;;
  resp <- readResponse ;;
  unless (okReply 250 resp) (MailFromFailed (respLines resp)).

Definition rcptCommand (rcpt : jsstring) : jsstring :=
  lit "RCPT TO:<" ++ rcpt ++ lit ">" ++ CRLF.

(** 6) RCPT TO, the [for ... of] loop *)
Fixpoint rcptAll (recipients : list jsstring) : M unit :=
  match recipients with
  | [] => ret tt
  | rcpt :: rest =>
      write (rcptCommand rcpt) ;;
      resp <- readResponse ;;
      unless (okReply 250 resp || okReply 251 resp) (RcptFailed rcpt (respLines resp)) ;;
      rcptAll rest
  end.

(** 7) DATA *)
Definition dataCommand : M unit :=
  write (lit "DATA" ++ CRLF) ;;
  resp <- readResponse ;;
  unless (okReply 354 resp) (DataRefused (respLines resp)).

(** 8) The MIME document *)
Definition sendBody (env : Env) (msg : message) : M unit :=
  let raw := Mime.buildMime env msg in
  let normalized := normalize raw in
  let stuffed := dotStuff normalized in
  write (stuffed ++ CRLF ++ lit "." ++ CRLF) ;;
  resp <- readResponse ;;
  unless (okReply 250 resp) (BodyFailed (respLines resp)).

(** 9) QUIT *)
Definition quit : M unit :=
  write (lit "QUIT" ++ CRLF) ;;
  _ <- readResponse ;;
  ret tt.

Record result := mkResult {
  ok : bool;
  resultMessage : jsstring
}.

(** Everything from the opening of the socket to the reply to MAIL FROM. *)
Definition session (env : Env) (cfg : config) (msg : message) : M unit :=
  connect cfg ;;
  banner ;;
  resp <- greet cfg ;;
  resp <- startTls env cfg resp ;;
  authenticate cfg resp ;;
  mailFrom msg.

(** [async send({ from, to, cc, bcc, subject, text, html, attachments })] *)
Definition send (env : Env) (cfg : config) (msg : message) : M result :=
  let recipients := recipientsOf msg in
  unless (truthy (from msg)) FromRequired ;;
  unless (negb (Nat.eqb (length recipients) 0)) RecipientRequired ;;
  session env cfg msg ;;
  rcptAll recipients ;;
  dataCommand ;;
  sendBody env msg ;;
  quit ;;
  socketEnd ;;
  ret (mkResult true (lit "Enviado")).

(** ** What a trace shows *)

Definition isEnded (e : io) : bool :=
  match e with Ended => true | _ => false end.

Definition isConnected (e : io) : bool :=
  match e with Connected _ _ _ => true | _ => false end.

(** Whether the transport was closed, and whether one was opened. *)
Definition closed (w : world) : bool := existsb isEnded (trace w).
Definition opened (w : world) : bool := existsb isConnected (trace w).

(** The data written, oldest first. *)
Fixpoint writes (t : list io) : list jsstring :=
  match t with
  | [] => []
  | Wrote _ data :: t' => data :: writes t'
  | _ :: t' => writes t'
  end.

Definition written (w : world) : list jsstring := writes (trace w).

(** ** The HTTP route

    The second part of the source: [app.post("/send-email", ...)]. *)

(** [req.body], field by field. *)
Record requestBody := mkRequestBody {
  rqHost : option jsstring;
  rqPort : option Z;
  rqSecure : option bool;
  rqUser : option jsstring;
  rqPass : option jsstring;
  rqHelo : option jsstring;
  rqFrom : option jsstring;
  rqTo : addresses;
  rqCc : addresses;
  rqBcc : addresses;
  rqSubject : option jsstring;
  rqText : option jsstring;
  rqHtml : option jsstring;
  rqAttachments : list attachment
}.

(** What the route answers: [res.status(s).json({ error })] or
    [res.json({ success: true, message })]. *)
Inductive httpBody :=
| ErrorJson (error : jsstring)
| SuccessJson (message : jsstring).

Record httpResponse := mkHttpResponse {
  status : Z;
  body : httpBody
}.

(** Whether [to] is truthy: a non-empty string, or any array (the empty
    one too). *)
Definition truthyAddresses (v : addresses) : bool :=
  match v with
  | Absent => false
  | Single addr => truthy (Some addr)
  | Several _ => true
  end.

Definition requiredFields : jsstring :=
  lit "host, from e to s" ++ [227] ++ lit "o obrigat" ++ [243] ++ lit "rios".

Definition messageOf (rq : requestBody) : message :=
  mkMessage (rqFrom rq) (rqTo rq) (rqCc rq) (rqBcc rq)
            (rqSubject rq) (rqText rq) (rqHtml rq) (rqAttachments rq).

Definition clientOf (rq : requestBody) : config :=
  SMTPClient (render (rqHost rq)) (rqPort rq) (rqSecure rq)
             (rqUser rq) (rqPass rq) (rqHelo rq).

(** The handler of [POST /send-email]: the response it sends, if it ever
    sends one, and the world of the socket of this request. *)
Definition sendEmailRoute (env : Env) (rq : requestBody)
  : world -> option httpResponse * world :=
  fun w =>
    if negb (truthy (rqHost rq)) || negb (truthy (rqFrom rq))
       || negb (truthyAddresses (rqTo rq))
    then (Some (mkHttpResponse 400 (ErrorJson requiredFields)), w)
    else
      match send env (clientOf rq) (messageOf rq) w with
      | (Returned result, w') =>
          (Some (mkHttpResponse 200 (SuccessJson (resultMessage result))), w')
      | (Thrown e, w') =>
          (Some (mkHttpResponse 500 (ErrorJson (errorMessage e))), w')
      | (Pending, w') => (None, w')
      end.

(** * The vocabulary of the statements *)

(** The text before the first CRLF and the text after it, if there is one. *)
Fixpoint cut (s : jsstring) : option (jsstring * jsstring) :=
  match s with
  | [] => None
  | c :: s' =>
      if Str.startsWith CRLF s then Some ([], skipn 2 s)
      else match cut s' with
           | Some (l, r) => Some (c :: l, r)
           | None => None
           end
  end.

(** The loop of [onData] on a buffer, with the fuel [onData] gives it. *)
Definition lines_of (s : jsstring) : list jsstring * jsstring :=
  LineReader.drain (length s) s.

(** A byte that is an ASCII character. *)
Definition isAscii (b : Z) : bool := (0 <=? b) && (b <=? 127).

(** The number the first three characters of a line spell. *)
Definition numericPrefix (line : jsstring) : Z := Re.parseInt10 (firstn 3 line).

(** A line that fails the reply pattern. *)
Definition malformed (line : jsstring) : bool :=
  match Re.matchReply line with
  | Some _ => false
  | None => true
  end.

(** A matcher is sound when what it matches is a non-empty prefix. *)
Definition sound (m : jsstring -> option nat) : Prop :=
  forall s k, m s = Some k -> (1 <= k <= length s)%nat.

(** Whether a text begins with a given character. *)
Definition headIs (x : Z) (s : jsstring) : bool :=
  match s with
  | y :: _ => y =? x
  | [] => false
  end.

(** What dot-stuffing makes of one line that follows a CRLF. *)
Definition stuffLine (l : jsstring) : jsstring :=
  if headIs DOT l then DOT :: l else l.

(** A line of a CRLF-normalized document: it holds no LF. *)
Definition noLF (l : jsstring) : bool := forallb (fun c => negb (c =? LF)) l.

(** A document as its lines: the first one, and each later one behind the
    CRLF that ends the line before it. *)
Definition document (l0 : jsstring) (ls : list jsstring) : jsstring :=
  l0 ++ flat_map (fun l => CRLF ++ l) ls.

(** What a computation adds to the trace when it ends with outcome [o]. *)
Definition received (o : outcome response) : list io :=
  match o with
  | Returned resp => [Received (respCode resp) (respLines resp)]
  | _ => []
  end.

(** A computation is quiet when nothing it adds to the trace closes the
    transport. *)
Definition quiet {A : Type} (m : M A) : Prop :=
  forall w o w', m w = (o, w') ->
    exists t, trace w' = trace w ++ t /\ existsb isEnded t = false.

(** A computation grows the trace when it only adds to it. *)
Definition grows {A : Type} (m : M A) : Prop :=
  forall w o w', m w = (o, w') -> exists t, trace w' = trace w ++ t.

(** A computation that closes the transport exactly when it returns. *)
Definition closesOnReturn {A : Type} (m : M A) : Prop :=
  forall w o w', closed w = false -> m w = (o, w') ->
    closed w' = match o with Returned _ => true | _ => false end.

(** The one command of AUTH PLAIN, and the two answers of AUTH LOGIN. *)
Definition authPlainCommand (cfg : config) : jsstring :=
  lit "AUTH PLAIN " ++ base64 ([0] ++ render (user cfg) ++ [0] ++ render (pass cfg)) ++ CRLF.

Definition authLoginAnswers (cfg : config) : list jsstring :=
  [base64 (render (user cfg)) ++ CRLF; base64 (render (pass cfg)) ++ CRLF].

(** A reply RCPT TO is content with: its code is 250 or 251. *)
Definition accepted (reply : response) : bool :=
  (respCode reply =? 250) || (respCode reply =? 251).

(** The command for one recipient, letter by letter. *)
Definition rcptLine (addr : jsstring) : jsstring :=
  lit "RCPT TO:<" ++ addr ++ lit ">" ++ CRLF.

(** What a field of the message stands for: nothing when it is missing
    (absent, or the empty string), the one address when it is a string, the
    addresses in their order when it is a sequence. *)
Definition given (v : addresses) : list jsstring :=
  match v with
  | Absent => []
  | Single addr => if Nat.eqb (length addr) 0 then [] else [addr]
  | Several addrs => addrs
  end.

(** The recipients of a message: those of [to], then of [cc], then of
    [bcc]. *)
Definition Recipients (msg : message) : list jsstring :=
  given (to msg) ++ given (cc msg) ++ given (bcc msg).

(** One recipient: the command, and the reply it got. *)
Definition exchange (via : emitter) (rcpt : jsstring) (reply : response) : list io :=
  [Wrote via (rcptLine rcpt); Received (respCode reply) (respLines reply)].

(** The same for recipients one after the other. *)
Fixpoint exchanges (via : emitter) (rcpts : list jsstring) (replies : list response)
  : list io :=
  match rcpts, replies with
  | rcpt :: rcpts', reply :: replies' =>
      exchange via rcpt reply ++ exchanges via rcpts' replies'
  | _, _ => []
  end.

(** How the loop over [rcpts] ends once the recipients [done] have been
    accepted: it returns when they are all of them; otherwise the next
    recipient is the last one a command is written for, and the loop throws
    (the reply was neither 250 nor 251, or the wait for it failed) or never
    settles. [tail] is what that adds to the trace. *)
Definition rcptEnding (via : emitter) (o : outcome unit)
           (done rcpts : list jsstring) (tail : list io) : Prop :=
  match o with
  | Returned _ => done = rcpts /\ tail = []
  | Thrown e =>
      exists rcpt rest,
        rcpts = done ++ rcpt :: rest
        /\ ((exists bad, accepted bad = false
                         /\ e = RcptFailed rcpt (respLines bad)
                         /\ tail = exchange via rcpt bad)
            \/ ((e = Timeout \/ exists err, e = TransportError err)
                /\ tail = [Wrote via (rcptLine rcpt)]))
  | Pending =>
      exists rcpt rest,
        rcpts = done ++ rcpt :: rest /\ tail = [Wrote via (rcptLine rcpt)]
  end.

(** What [send] does after the loop. *)
Definition afterRcpt (env : Env) (msg : message) : M result :=
  dataCommand ;;
  sendBody env msg ;;
  quit ;;
  socketEnd ;;
  ret (mkResult true (lit "Enviado")).





(** Chunks coming out of the active emitter one after the other. *)
Definition deliverAll (chunks : list bytes) (w : world) : world :=
  fold_left (fun w chunk => deliver chunk w) chunks w.

(** A wait with another buffer, and a wait after its reader was handed
    some chunks. *)
Definition withBuffer (b : jsstring) (w : wait) : wait :=
  mkWait b (lines w) (code w) (settled w).

Definition waitAfter (w : wait) (chunks : list bytes) : wait :=
  fold_left (fun w chunk => waitOnData chunk w) chunks w.

(** One wait alone on a socket: the chunks go through its reader and its
    listener until its promise is resolved. *)
Fixpoint awaitAlone (w : wait) (chunks : list bytes) : outcome response :=
  match chunks with
  | [] => Pending
  | chunk :: chunks' =>
      let w' := waitOnData chunk w in
      match settled w' with
      | Resolved c => Returned (mkResponse c (lines w'))
      | _ => awaitAlone w' chunks'
      end
  end.

(** ** Scenarios *)

Module Scenario.

(** Upper-casing of the ASCII letters: what [toUpperCase] does to a line
    of ASCII characters, which every line below is. *)
Definition asciiToUpper (s : jsstring) : jsstring := map Re.canon s.

Definition env : Env :=
  mkEnv asciiToUpper (lit "Mon, 02 Nov 2026 00:00:00 GMT") (lit "1793577600000")
        (lit "k3j9x") (lit "p0q8r") (lit "z7y6w").

(** One line of the server, sent as a chunk of its own. *)
Definition serverLine (s : string) : event :=
  Data (Utf8.fromString (lit s ++ CRLF)).

(** Two lines of the server in one chunk. *)
Definition serverLines (s1 s2 : string) : event :=
  Data (Utf8.fromString (lit s1 ++ CRLF ++ lit s2 ++ CRLF)).

Definition plainClient : config :=
  SMTPClient (lit "mx.example") None None None None None.

Definition authClient : config :=
  SMTPClient (lit "mx.example") None None (Some (lit "user")) (Some (lit "pass")) None.

Definition toThree : message :=
  mkMessage (Some (lit "a@x")) (Several [lit "b@y"; lit "c@z"; lit "d@w"])
            Absent Absent (Some (lit "Hi")) (Some (lit "hello")) None [].

Definition toTwo : message :=
  mkMessage (Some (lit "a@x")) (Several [lit "b@y"; lit "c@z"])
            Absent Absent (Some (lit "Hi")) (Some (lit "hello")) None [].

Definition noSender : message :=
  mkMessage None (Several [lit "b@y"]) Absent Absent None None None [].

(** The second of three recipients is refused. *)
Definition secondRefused : list event :=
  [serverLine "220 host ESMTP"; serverLine "250 host"; serverLine "250 ok";
   serverLine "250 ok"; serverLine "550 no such user"].

(** The end-to-end scenario of the specification. *)
Definition withStartTls : list event :=
  [serverLine "220 host ESMTP";
   serverLines "250-STARTTLS" "250 AUTH PLAIN LOGIN";
   serverLine "220 go ahead";
   SecureConnect;
   serverLine "250 AUTH PLAIN";
   serverLine "235 ok";
   serverLine "250 ok";
   serverLine "250 ok"; serverLine "250 ok";
   serverLine "354 go on";
   serverLine "250 queued";
   serverLine "221 bye"].

(** The worlds of [secondRefused] after the reply to MAIL FROM, and when
    the loop over the recipients stops. *)
Definition afterMailFrom : world :=
  snd (session env plainClient toThree (initialWorld secondRefused)).

Definition afterRefusal : world :=
  snd (rcptAll (recipientsOf toThree) afterMailFrom).

End Scenario.

(** ** More vocabulary: what holds along a session *)

(** A computation started in a world where [P] holds ends, whatever its
    outcome [o], in a world where [Q o] holds. *)
Definition triple {A : Type} (P : world -> Prop) (m : M A)
           (Q : outcome A -> world -> Prop) : Prop :=
  forall w o w', P w -> m w = (o, w') -> Q o w'.

(** Lockstep: reading a trace from its start, whether a command is
    waiting for its reply.  [None] when a command is written while the one
    before it still waits. *)
Fixpoint lockstep (awaiting : bool) (t : list io) : option bool :=
  match t with
  | [] => Some awaiting
  | Wrote _ _ :: t' => if awaiting then None else lockstep true t'
  | Received _ _ :: t' => lockstep false t'
  | _ :: t' => lockstep awaiting t'
  end.

(** A computation that takes the lockstep state from [a] to [b] when it
    returns, and keeps the trace in lockstep when it does not. *)
Definition steps {A : Type} (a b : bool) (m : M A) : Prop :=
  triple (fun w => lockstep false (trace w) = Some a) m
         (fun o w => match o with
                     | Returned _ => lockstep false (trace w) = Some b
                     | _ => lockstep false (trace w) <> None
                     end).

(** Events that fit the socket [e] being the one in use: what is written
    goes through [e], and the socket is not upgraded. *)
Definition sameEmitter (a b : emitter) : bool :=
  match a, b with
  | Original, Original | Secured, Secured => true
  | _, _ => false
  end.

Definition fitsPath (e : emitter) (ev : io) : bool :=
  match ev with
  | Wrote via _ => sameEmitter via e
  | Upgraded => false
  | _ => true
  end.

Definition allVia (e : emitter) (t : list io) : bool := forallb (fitsPath e) t.

(** A world that has used the original socket only, and one that has used
    the original socket up to one upgrade and the TLS socket from there. *)
Definition plainOnly (w : world) : Prop :=
  rebound w = false /\ allVia Original (trace w) = true.

Definition onePath (w : world) : Prop :=
  if rebound w then
    exists t1 t2, trace w = t1 ++ Upgraded :: t2
                  /\ allVia Original t1 = true /\ allVia Secured t2 = true
  else allVia Original (trace w) = true.

(** A computation that keeps [P], whatever its outcome. *)
Definition keeps {A : Type} (P : world -> Prop) (m : M A) : Prop :=
  triple P m (fun _ w => P w).

(** What a protocol error speaks of: the reply codes the step that threw
    it asked for, and the lines of the reply it got instead. *)
Definition refusedReply (e : error) : option (list Z * list jsstring) :=
  match e with
  | BannerFailed ls => Some ([220], ls)
  | HeloFailed ls => Some ([250], ls)
  | StartTlsFailed ls => Some ([220], ls)
  | EhloAfterTlsFailed ls => Some ([250], ls)
  | AuthPlainFailed ls => Some ([235], ls)
  | AuthLoginRefused ls => Some ([334], ls)
  | UserRefused ls => Some ([334], ls)
  | PassRefused ls => Some ([235], ls)
  | MailFromFailed ls => Some ([250], ls)
  | RcptFailed _ ls => Some ([250; 251], ls)
  | DataRefused ls => Some ([354], ls)
  | BodyFailed ls => Some ([250], ls)
  | FromRequired | RecipientRequired | NoAuthMechanism | Timeout
  | TransportError _ => None
  end.

Definition noneOf (codes : list Z) (c : Z) : bool :=
  forallb (fun x => negb (c =? x)) codes.

(** A protocol error is reported truly on a trace when the last thing in
    the trace is the reply it speaks of, with a code the step did not ask
    for, and the text of the error ends with the lines of that reply. *)
Definition reported (e : error) (t : list io) : Prop :=
  match refusedReply e with
  | Some (expected, ls) =>
      (exists t0 c, t = t0 ++ [Received c ls] /\ noneOf expected c = true)
      /\ exists prefix, errorMessage e = prefix ++ joinLines ls
  | None => True
  end.

Definition errs {A : Type} (m : M A) : Prop :=
  triple (fun _ => True) m
         (fun o w => match o with
                     | Thrown e => reported e (trace w)
                     | _ => True
                     end).

(** The commands of a session, as [send] writes them. *)
Definition ehloCommand (cfg : config) : jsstring := lit "EHLO " ++ helo cfg ++ CRLF.
Definition heloCommand (cfg : config) : jsstring := lit "HELO " ++ helo cfg ++ CRLF.
Definition startTlsCommand : jsstring := lit "STARTTLS" ++ CRLF.
Definition authLoginCommand : jsstring := lit "AUTH LOGIN" ++ CRLF.
Definition mailFromCommand (msg : message) : jsstring :=
  lit "MAIL FROM:<" ++ render (from msg) ++ lit ">" ++ CRLF.
Definition dataLine : jsstring := lit "DATA" ++ CRLF.
Definition quitCommand : jsstring := lit "QUIT" ++ CRLF.

(** The line that ends the data, with the CRLF before it, and what [send]
    writes after DATA: the stuffed document and that ending. *)
Definition endOfData : jsstring := CRLF ++ lit "." ++ CRLF.

Definition payload (env : Env) (msg : message) : jsstring :=
  dotStuff (normalize (Mime.buildMime env msg)) ++ endOfData.

(** What a successful session writes before MAIL FROM.  The greeting:
    EHLO, and HELO after it unless the reply to EHLO had the code 250. *)
Definition greeting (cfg : config) (code : Z) : list jsstring :=
  if code =? 250 then [ehloCommand cfg] else [ehloCommand cfg; heloCommand cfg].

(** The upgrade: STARTTLS and EHLO again when the socket was upgraded,
    nothing when it was not. *)
Definition upgradeCommands (cfg : config) (upgraded : bool) : list jsstring :=
  if upgraded then [startTlsCommand; ehloCommand cfg] else [].

(** The authentication [a]: with a user and a password the one command of
    AUTH PLAIN, or AUTH LOGIN and its two answers; nothing without. *)
Definition authCommands (cfg : config) (a : list jsstring) : Prop :=
  if truthy (user cfg) && truthy (pass cfg)
  then a = [authPlainCommand cfg] \/ a = authLoginCommand :: authLoginAnswers cfg
  else a = [].

(** The trace of [w'] goes on from the trace of [w]. *)
Definition extends (w w' : world) : Prop := exists t, trace w' = trace w ++ t.

(** ** More scenarios *)

Module Cases.

(** Implicit TLS on port 465. *)
Definition tlsClient : config :=
  SMTPClient (lit "mx.example") (Some 465) (Some true) None None None.

(** A server that offers STARTTLS all the same. *)
Definition offersStartTls : list event :=
  [Scenario.serverLine "220 host ESMTP";
   Scenario.serverLines "250-STARTTLS" "250 ok";
   Scenario.serverLine "250 ok";
   Scenario.serverLine "250 ok"; Scenario.serverLine "250 ok";
   Scenario.serverLine "354 go on";
   Scenario.serverLine "250 queued";
   Scenario.serverLine "221 bye"].

Definition request (host sender : option jsstring) (rcpts : addresses) : requestBody :=
  mkRequestBody host None None None None None sender rcpts Absent Absent
                (Some (lit "Hi")) (Some (lit "hello")) None [].

(** A request with no [from], one whose [to] is the empty array, and a
    complete one. *)
Definition noFrom : requestBody :=
  request (Some (lit "mx.example")) None (Single (lit "b@y")).

Definition emptyTo : requestBody :=
  request (Some (lit "mx.example")) (Some (lit "a@x")) (Several []).

Definition complete : requestBody :=
  mkRequestBody (Some (lit "mx.example")) None None
                (Some (lit "user")) (Some (lit "pass")) None
                (Some (lit "a@x")) (Several [lit "b@y"; lit "c@z"]) Absent Absent
                (Some (lit "Hi")) (Some (lit "hello")) None [].

(** Credentials that hold a CRLF and characters outside ASCII. *)
Definition oddCredentials : config :=
  SMTPClient (lit "mx.example") None None
             (Some (lit "us" ++ CRLF ++ lit "QUIT"))
             (Some (lit "pa" ++ [233; 55357; 56832])) None.

(** A message whose blind copy is the array of the empty string. *)
Definition emptyBcc : message :=
  mkMessage (Some (lit "a@x")) (Single (lit "b@y")) Absent (Several [[]])
            (Some (lit "Hi")) (Some (lit "hello")) None [].

(** A message with a blind copy, and one with two attachments. *)
Definition withBcc : message :=
  mkMessage (Some (lit "a@x")) (Single (lit "b@y")) Absent
            (Several [lit "c@z"; lit "d@w"])
            (Some (lit "Hi")) (Some (lit "hello")) None [].


End Cases.

(** ** The [data] listeners a session leaves behind *)

(** No [data] listener is left, on the socket or on the TLS socket. *)
Definition tidy (w : world) : Prop := dataOriginal w = [] /\ dataSecured w = [].

Definition tidyUnlessUpgraded (w : world) : Prop := rebound w = true \/ tidy w.

(** A computation that keeps [P] whenever it comes to an end. *)
Definition settles {A : Type} (P : world -> Prop) (m : M A) : Prop :=
  triple P m (fun o w => match o with Pending => True | _ => P w end).

(** ** Lines and their ends *)

(** Lines put back on the wire: each one with its CRLF behind it. *)
Definition withLineEnds (ls : list jsstring) : jsstring :=
  flat_map (fun l => l ++ CRLF) ls.

(** ** Code units, bytes and the characters of base64 *)

Definition codeUnit (c : Z) : bool := (0 <=? c) && (c <=? 65535).

Definition isByte (b : Z) : bool := (0 <=? b) && (b <=? 255).

Definition base64Char (c : Z) : bool :=
  existsb (Z.eqb c) Base64.alphabet || (c =? Base64.PAD).

(** ** The order of the upgrade *)

(** What the trace shows of an upgrade: the command STARTTLS on the
    socket as it was opened, the reply 220 to it, and the upgrade. *)
Definition goAhead (ls : list jsstring) : list io :=
  [Wrote Original startTlsCommand; Received 220 ls; Upgraded].

(** A world after an upgrade that was followed by EHLO. *)
Definition upgradedAfter220 (cfg : config) (w : world) : Prop :=
  rebound w = true
  /\ exists t0 ls t3,
       trace w = t0 ++ goAhead ls ++ Wrote Secured (ehloCommand cfg) :: t3
       /\ allVia Original t0 = true /\ allVia Secured t3 = true.

(** A trace in which the upgrade, if there is one, has its place: right
    behind the reply 220 to STARTTLS, and with EHLO as the next thing
    written. *)
Definition handshakeOrder (cfg : config) (t : list io) : Prop :=
  allVia Original t = true
  \/ exists t0 ls t3,
       t = t0 ++ goAhead ls ++ t3
       /\ allVia Original t0 = true /\ allVia Secured t3 = true
       /\ (t3 = [] \/ exists t4, t3 = Wrote Secured (ehloCommand cfg) :: t4).

(** The socket as it was opened, or upgraded in that order; and what
    [startTls] leaves, by its outcome. *)
Definition settledPath (cfg : config) (w : world) : Prop :=
  plainOnly w \/ upgradedAfter220 cfg w.

Definition afterStartTls (cfg : config) {A : Type} (o : outcome A) (w : world) : Prop :=
  match o with
  | Returned _ => settledPath cfg w
  | _ => handshakeOrder cfg (trace w)
  end.

(** ** The blind copy *)

(** The addresses of a field as a header shows them: a string as it is,
    a sequence joined by a comma and a space. *)
Definition joined (v : addresses) : jsstring :=
  match v with
  | Absent => []
  | Single addr => addr
  | Several addrs => Str.join (lit ", ") addrs
  end.

(** The message with no [bcc]. *)
Definition withoutBcc (msg : message) : message :=
  mkMessage (from msg) (to msg) (cc msg) Absent
            (subject msg) (text msg) (html msg) (attachments msg).

(** ** What a computation adds to the trace *)

(** A computation that adds to the trace only events that pass [f]. *)
Definition adds (f : io -> bool) {A : Type} (m : M A) : Prop :=
  forall w o w', m w = (o, w') ->
    exists t, trace w' = trace w ++ t /\ forallb f t = true.

Definition notConnected (e : io) : bool := negb (isConnected e).

(** No CR in a text. *)
Definition noCR (s : jsstring) : bool := forallb (fun c => negb (c =? CR)) s.

(** ** What a server advertises

    The specification has the session look, in the capability lines, for
    an AUTH line containing PLAIN or LOGIN: case-insensitive, with AUTH
    ending at a word boundary.  Said without the regular expressions of
    the code: *)

(** The same character, or the same letter in its other case. *)
Definition sameLetter (a b : Z) : Prop :=
  a = b \/ (65 <= a <= 90 /\ b = a + 32) \/ (97 <= a <= 122 /\ b = a - 32).

Definition sameText (a b : jsstring) : Prop := Forall2 sameLetter a b.

(** A letter, a digit or the underscore. *)
Definition wordCharacter (c : Z) : Prop :=
  48 <= c <= 57 \/ 65 <= c <= 90 \/ 97 <= c <= 122 \/ c = 95.

(** [line] holds [word] somewhere, in any case. *)
Definition holds (word line : jsstring) : Prop :=
  exists before found rest, line = before ++ found ++ rest /\ sameText word found.

(** [line] holds AUTH somewhere, in any case, and what comes right after
    it, if anything, is not a word character. *)
Definition holdsAuthKeyword (line : jsstring) : Prop :=
  exists before found rest,
    line = before ++ found ++ rest
    /\ sameText (lit "AUTH") found
    /\ match rest with
       | [] => True
       | c :: _ => ~ wordCharacter c
       end.

(** A reply advertises a mechanism when one of its lines is an AUTH line
    that holds the name of the mechanism. *)
Definition advertises (mechanism : jsstring) (resp : response) : Prop :=
  exists line,
    In line (respLines resp) /\ holdsAuthKeyword line /\ holds mechanism line.

(** Three replies to EHLO: both mechanisms, LOGIN only (in lower case),
    neither. *)
Definition bothOffered : response :=
  mkResponse 250 [lit "250-STARTTLS"; lit "250 AUTH PLAIN LOGIN"].

Definition loginOffered : response :=
  mkResponse 250 [lit "250-SIZE 1000"; lit "250 auth login CRAM-MD5"].

Definition noneOffered : response :=
  mkResponse 250 [lit "250-SIZE 1000"; lit "250 AUTH CRAM-MD5"].

(** * Properties *)

(** ** The line reader *)

Module LineReaderFacts.
Import LineReader.

Lemma startsWith_app (p s : jsstring) :
  Str.startsWith p s = true -> s = p ++ skipn (length p) s.
Proof.
  revert s; induction p as [|a p IH]; intros [|b s] H; simpl in *;
    try reflexivity; try discriminate.
  apply andb_true_iff in H as [Hab Hps].
  apply Z.eqb_eq in Hab; subst b.
  f_equal; now apply IH.
Qed.

Lemma cut_some (s l r : jsstring) :
  cut s = Some (l, r) -> s = l ++ CRLF ++ r.
Proof.
  revert l r; induction s as [|c s IH]; intros l r H; [discriminate|].
  cbn [cut] in H.
  destruct (Str.startsWith CRLF (c :: s)) eqn:E.
  - injection H as <- <-. now apply startsWith_app in E.
  - destruct (cut s) as [[l' r']|]; [|discriminate].
    injection H as <- <-. simpl. f_equal. now apply IH.
Qed.

Lemma indexOfFrom_cut (s : jsstring) (i : Z) :
  Str.indexOfFrom CRLF s i =
  match cut s with
  | Some (l, _) => i + Z.of_nat (length l)
  | None => -1
  end.
Proof.
  revert i; induction s as [|c s IH]; intros i.
  - reflexivity.
  - cbn [Str.indexOfFrom cut].
    destruct (Str.startsWith CRLF (c :: s)).
    + simpl; lia.
    + rewrite IH. destruct (cut s) as [[l r]|]; [|reflexivity].
      cbn [length]; lia.
Qed.

Lemma clampIndex_inside (len i : Z) :
  0 <= i <= len -> Str.clampIndex len i = i.
Proof.
  intros H. unfold Str.clampIndex.
  destruct (Z.ltb_spec i 0); lia.
Qed.

Lemma slice_prefix (l r : jsstring) :
  Str.slice (l ++ r) 0 (Z.of_nat (length l)) = l.
Proof.
  unfold Str.slice.
  rewrite length_app, Nat2Z.inj_add, !clampIndex_inside by lia.
  simpl skipn.
  rewrite Z.sub_0_r, Nat2Z.id.
  rewrite firstn_app, Nat.sub_diag, firstn_all. simpl. apply app_nil_r.
Qed.

Lemma sliceFrom_suffix (l r : jsstring) (n : Z) :
  n = Z.of_nat (length l) -> Str.sliceFrom (l ++ r) n = r.
Proof.
  intros ->. unfold Str.sliceFrom, Str.slice.
  rewrite length_app, Nat2Z.inj_add, !clampIndex_inside by lia.
  rewrite Nat2Z.id, skipn_app, Nat.sub_diag, skipn_all. simpl.
  replace (Z.of_nat (length l) + Z.of_nat (length r) - Z.of_nat (length l))
    with (Z.of_nat (length r)) by lia.
  rewrite Nat2Z.id. apply firstn_all.
Qed.

(** One turn of the loop of [onData], read through [cut]. *)
Lemma drain_step (n : nat) (s : jsstring) :
  drain (S n) s =
  match cut s with
  | Some (l, r) => let (emitted, rest) := drain n r in (l :: emitted, rest)
  | None => ([], s)
  end.
Proof.
  cbn [drain]. unfold Str.indexOf. rewrite indexOfFrom_cut.
  destruct (cut s) as [[l r]|] eqn:E; [|reflexivity].
  apply cut_some in E. subst s.
  destruct (Z.leb_spec 0 (0 + Z.of_nat (length l))); [|lia].
  rewrite Z.add_0_l, slice_prefix.
  replace (l ++ CRLF ++ r) with ((l ++ CRLF) ++ r) by now rewrite <- app_assoc.
  rewrite sliceFrom_suffix; [reflexivity|].
  rewrite length_app. simpl. lia.
Qed.

Lemma cut_shorter (s l r : jsstring) :
  cut s = Some (l, r) -> (length r + 2 <= length s)%nat.
Proof.
  intros H. apply cut_some in H. subst s.
  rewrite !length_app. simpl. lia.
Qed.

(** The loop never runs out of fuel: any fuel from the length of the
    buffer up gives the same lines and the same rest. *)
Lemma drain_fuel (n m : nat) (s : jsstring) :
  (length s <= n)%nat -> (length s <= m)%nat -> drain n s = drain m s.
Proof.
  revert m s; induction n as [|n IH]; intros m s Hn Hm.
  - destruct s; [|simpl in Hn; lia].
    destruct m; [reflexivity|]. now rewrite drain_step.
  - destruct m as [|m].
    + destruct s; [|simpl in Hm; lia]. now rewrite drain_step.
    + rewrite !drain_step.
      destruct (cut s) as [[l r]|] eqn:E; [|reflexivity].
      apply cut_shorter in E.
      rewrite (IH m r) by lia. reflexivity.
Qed.

(** When the loop stops, the buffer holds no CRLF. *)
Lemma drain_rest (n : nat) (s : jsstring) :
  (length s <= n)%nat -> cut (snd (drain n s)) = None.
Proof.
  revert s; induction n as [|n IH]; intros s Hn.
  - destruct s; [reflexivity|simpl in Hn; lia].
  - rewrite drain_step.
    destruct (cut s) as [[l r]|] eqn:E; [|exact E].
    apply cut_shorter in E.
    specialize (IH r ltac:(lia)).
    destruct (drain n r); exact IH.
Qed.

Lemma lines_of_cut (s : jsstring) :
  lines_of s =
  match cut s with
  | Some (l, r) => let (emitted, rest) := lines_of r in (l :: emitted, rest)
  | None => ([], s)
  end.
Proof.
  unfold lines_of. destruct s as [|c s].
  - reflexivity.
  - cbn [length]. rewrite drain_step.
    destruct (cut (c :: s)) as [[l r]|] eqn:E; [|reflexivity].
    apply cut_shorter in E. cbn [length] in E.
    rewrite (drain_fuel (length s) (length r)) by lia. reflexivity.
Qed.

Lemma startsWith_app_r (p s t : jsstring) :
  Str.startsWith p s = true -> Str.startsWith p (s ++ t) = true.
Proof.
  revert s; induction p as [|a p IH]; intros [|b s] H; simpl in *;
    try reflexivity; try discriminate.
  apply andb_true_iff in H as [Hab Hps].
  rewrite Hab. simpl. now apply IH.
Qed.

Lemma cut_app (s t l r : jsstring) :
  cut s = Some (l, r) -> cut (s ++ t) = Some (l, r ++ t).
Proof.
  revert l r; induction s as [|c s IH]; intros l r H; [discriminate|].
  cbn [cut] in H. rewrite <- app_comm_cons. cbn [cut].
  destruct (Str.startsWith CRLF (c :: s)) eqn:E.
  - rewrite app_comm_cons, (startsWith_app_r _ _ t E).
    injection H as <- <-.
    apply startsWith_app in E. simpl in E.
    rewrite E. reflexivity.
  - destruct (cut s) as [[l' r']|] eqn:C; [|discriminate].
    injection H as <- <-.
    rewrite (IH l' r' eq_refl).
    destruct (Str.startsWith CRLF (c :: s ++ t)) eqn:E'; [|reflexivity].
    exfalso.
    apply cut_some in C. subst s.
    destruct l' as [|x l']; cbn [Str.startsWith app CRLF] in E, E'.
    + change (LF =? CR) with false in E'.
      rewrite andb_false_l, andb_false_r in E'. discriminate.
    + rewrite E in E'. discriminate.
Qed.

(** What a buffer followed by more text gives: the lines of the buffer,
    then the lines of what the buffer left followed by the text. *)
Lemma lines_of_app (s t : jsstring) :
  lines_of (s ++ t) =
  let (l1, b1) := lines_of s in
  let (l2, b2) := lines_of (b1 ++ t) in
  (l1 ++ l2, b2).
Proof.
  remember (length s) as n eqn:Hn.
  assert (Hle : (length s <= n)%nat) by lia. clear Hn.
  revert s Hle; induction n as [|n IH]; intros s Hle.
  - destruct s; [|simpl in Hle; lia].
    change (lines_of []) with (@nil jsstring, @nil Z).
    cbn iota. rewrite !app_nil_l. now destruct (lines_of t).
  - rewrite (lines_of_cut s).
    destruct (cut s) as [[l r]|] eqn:E.
    + rewrite (lines_of_cut (s ++ t)), (cut_app _ t _ _ E).
      apply cut_shorter in E.
      rewrite (IH r) by lia.
      destruct (lines_of r) as [l1 b1].
      destruct (lines_of (b1 ++ t)) as [l2 b2]. reflexivity.
    + simpl. now destruct (lines_of (s ++ t)).
Qed.

Lemma onText_lines_of (buffer text : jsstring) :
  onText buffer text = lines_of (buffer ++ text).
Proof. reflexivity. Qed.

(** Chunk-boundary invariance on text: however a text is cut into pieces,
    the reader emits the lines, and keeps the rest, that the whole text
    would give in one piece. *)
Theorem feedText_concat (buffer : jsstring) (texts : list jsstring) :
  cut buffer = None ->
  feedText buffer texts = onText buffer (concat texts).
Proof.
  revert buffer; induction texts as [|t texts IH]; intros buffer Hb.
  - simpl. rewrite onText_lines_of, app_nil_r, lines_of_cut, Hb. reflexivity.
  - cbn [feedText concat].
    rewrite (onText_lines_of buffer (t ++ concat texts)), app_assoc, lines_of_app.
    rewrite onText_lines_of.
    pose proof (drain_rest (length (buffer ++ t)) (buffer ++ t) (le_n _)) as Hrest.
    fold (lines_of (buffer ++ t)) in Hrest.
    destruct (lines_of (buffer ++ t)) as [l1 b1]. simpl in Hrest.
    rewrite (IH b1 Hrest), onText_lines_of. reflexivity.
Qed.

(** The same from the empty buffer a reader starts with. *)
Corollary feedText_whole (texts : list jsstring) :
  feedText [] texts = onText [] (concat texts).
Proof. now apply feedText_concat. Qed.

Lemma run_ascii (bs : bytes) :
  forallb isAscii bs = true -> Utf8.run Utf8.initial bs = bs.
Proof.
  induction bs as [|b bs IH]; intros H; [reflexivity|].
  simpl in H. apply andb_true_iff in H as [Hb Hbs].
  cbn [Utf8.run]. unfold Utf8.step. cbn [Utf8.needed Utf8.initial Z.eqb].
  unfold Utf8.lead, Utf8.inRange. unfold isAscii in Hb. rewrite Hb.
  cbn [app]. now rewrite IH.
Qed.

Lemma toString_ascii (bs : bytes) :
  forallb isAscii bs = true -> Utf8.toString bs = bs.
Proof.
  intros H. unfold Utf8.toString. rewrite (run_ascii bs H).
  induction bs as [|b bs IH]; [reflexivity|].
  simpl in H. apply andb_true_iff in H as [Hb Hbs].
  cbn [flat_map]. rewrite (IH Hbs).
  unfold Utf8.toUtf16. unfold isAscii in Hb.
  apply andb_true_iff in Hb as [_ Hb]. apply Z.leb_le in Hb.
  destruct (Z.ltb_spec b 65536); [reflexivity|lia].
Qed.

Lemma feed_ascii_text (buffer : jsstring) (chunks : list bytes) :
  forallb (forallb isAscii) chunks = true ->
  feed buffer chunks = feedText buffer chunks.
Proof.
  revert buffer; induction chunks as [|c chunks IH]; intros buffer H; [reflexivity|].
  simpl in H. apply andb_true_iff in H as [Hc Hcs].
  cbn [feed feedText]. unfold onData. rewrite (toString_ascii c Hc).
  destruct (onText buffer c) as [l b]. now rewrite (IH b Hcs).
Qed.

Lemma forallb_concat {A : Type} (f : A -> bool) (ls : list (list A)) :
  forallb (forallb f) ls = true -> forallb f (concat ls) = true.
Proof.
  induction ls as [|l ls IH]; intros H; [reflexivity|].
  simpl in H. apply andb_true_iff in H as [Hl Hls].
  simpl. rewrite forallb_app, Hl. now apply IH.
Qed.

(** Chunk-boundary invariance on bytes, for a stream of ASCII bytes (where
    decoding chunk by chunk and decoding the whole stream agree). *)
Theorem feed_ascii_whole (chunks : list bytes) :
  forallb (forallb isAscii) chunks = true ->
  feed [] chunks = onData [] (concat chunks).
Proof.
  intros H. rewrite (feed_ascii_text [] chunks H), feedText_concat by reflexivity.
  unfold onData. now rewrite (toString_ascii _ (forallb_concat _ _ H)).
Qed.

Lemma feed_ascii_whole_witness :
  forallb (forallb isAscii)
          [Utf8.fromString (lit "250-a" ++ [CR]); Utf8.fromString ([LF] ++ lit "250 b");
           Utf8.fromString (CRLF ++ lit "22")] = true
  /\ feed [] [Utf8.fromString (lit "250-a" ++ [CR]); Utf8.fromString ([LF] ++ lit "250 b");
              Utf8.fromString (CRLF ++ lit "22")]
     = onData [] (concat [Utf8.fromString (lit "250-a" ++ [CR]);
                          Utf8.fromString ([LF] ++ lit "250 b");
                          Utf8.fromString (CRLF ++ lit "22")]).
Proof.
  split; [reflexivity|].
  exact (feed_ascii_whole
           [Utf8.fromString (lit "250-a" ++ [CR]); Utf8.fromString ([LF] ++ lit "250 b");
            Utf8.fromString (CRLF ++ lit "22")] eq_refl).
Defined.

(** The loop of [onData] runs to its end on every chunk: the buffer it
    leaves holds no complete line. *)
Theorem onData_leaves_no_line (buffer : jsstring) (chunk : bytes) :
  cut (snd (onData buffer chunk)) = None.
Proof.
  unfold onData, onText. now apply drain_rest.
Qed.

End LineReaderFacts.

(** C5 (the claim fails on the code): a two-byte character cut between two
    chunks.  The bytes C3 A9 0D 0A are the line [U+00E9] when they come as
    one chunk; as the chunks C3 and A9 0D 0A each chunk is decoded on its
    own, and the line emitted is [U+FFFD U+FFFD]. *)
Theorem feed_split_character_differs :
  LineReader.feed [] [[195; 169; 13; 10]] = ([[233]], [])
  /\ LineReader.feed [] [[195]; [169; 13; 10]] = ([[65533; 65533]], [])
  /\ concat [[195]; [169; 13; 10]] = concat [[195; 169; 13; 10]]
  /\ fst (LineReader.feed [] [[195]; [169; 13; 10]])
     <> fst (LineReader.onData [] (concat [[195]; [169; 13; 10]])).
Proof.
  repeat split; try reflexivity.
  vm_compute. discriminate.
Qed.

(** A CRLF cut between two chunks is found all the same. *)
Example feed_split_crlf :
  LineReader.feed [] [Utf8.fromString (lit "250 ok" ++ [CR]); Utf8.fromString ([LF] ++ lit "22")]
  = ([lit "250 ok"], lit "22").
Proof. reflexivity. Qed.

(** ** The listener of readResponse *)

Module WaitFacts.

Lemma matchReply_digits (line digits rest : jsstring) (sep : Z) :
  Re.matchReply line = Some (digits, sep, rest) -> digits = firstn 3 line.
Proof.
  destruct line as [|d1 [|d2 [|d3 [|s r]]]]; try discriminate.
  cbn [Re.matchReply].
  destruct (_ && _); [|discriminate].
  now intros [= <- _ _].
Qed.

(** [onLine] is the one listener of the reader of a wait. *)
Lemma onLines_emitAll (ls : list jsstring) (w : wait) :
  onLines ls w = LineReader.emitAll [onLine] ls w.
Proof. reflexivity. Qed.

Lemma onLines_app (a b : list jsstring) (w : wait) :
  onLines (a ++ b) w = onLines b (onLines a w).
Proof. apply fold_left_app. Qed.

Lemma onLine_lines (line : jsstring) (w : wait) :
  lines (onLine line w) = lines w ++ [line].
Proof.
  unfold onLine, settle.
  destruct (Re.matchReply line) as [[[digits sep] rest]|]; [|reflexivity].
  destruct (sep =? SP); [|reflexivity].
  cbn [settled]. now destruct (settled w).
Qed.

Lemma onLines_lines (ls : list jsstring) (w : wait) :
  lines (onLines ls w) = lines w ++ ls.
Proof.
  revert w; induction ls as [|l ls IH]; intros w.
  - simpl. now rewrite app_nil_r.
  - change (onLines (l :: ls) w) with (onLines ls (onLine l w)).
    rewrite IH, onLine_lines, <- app_assoc. reflexivity.
Qed.

Lemma onLine_not_terminal (line : jsstring) (w : wait) :
  terminal line = false -> settled (onLine line w) = settled w.
Proof.
  unfold terminal, onLine.
  destruct (Re.matchReply line) as [[[digits sep] rest]|]; [|reflexivity].
  now intros ->.
Qed.

Lemma onLine_terminal (line : jsstring) (w : wait) :
  terminal line = true -> settled w = Unsettled ->
  settled (onLine line w) = Resolved (numericPrefix line).
Proof.
  unfold terminal, onLine, settle, numericPrefix.
  destruct (Re.matchReply line) as [[[digits sep] rest]|] eqn:E; [|discriminate].
  intros -> Hw. cbn [settled]. rewrite Hw. cbn [settled].
  now rewrite (matchReply_digits _ _ _ _ E).
Qed.

Lemma onLine_settled (line : jsstring) (w : wait) :
  settled w <> Unsettled -> settled (onLine line w) = settled w.
Proof.
  intros Hw. unfold onLine, settle.
  destruct (Re.matchReply line) as [[[digits sep] rest]|]; [|reflexivity].
  destruct (sep =? SP); [|reflexivity].
  cbn [settled]. now destruct (settled w).
Qed.

Lemma onLines_settled (ls : list jsstring) (w : wait) :
  settled w <> Unsettled -> settled (onLines ls w) = settled w.
Proof.
  revert w; induction ls as [|l ls IH]; intros w Hw; [reflexivity|].
  change (onLines (l :: ls) w) with (onLines ls (onLine l w)).
  rewrite IH; rewrite onLine_settled; auto.
Qed.

Lemma onLines_no_terminal (ls : list jsstring) (w : wait) :
  existsb terminal ls = false -> settled (onLines ls w) = settled w.
Proof.
  revert w; induction ls as [|l ls IH]; intros w H; [reflexivity|].
  simpl in H. apply orb_false_iff in H as [Hl Hls].
  change (onLines (l :: ls) w) with (onLines ls (onLine l w)).
  now rewrite IH, onLine_not_terminal.
Qed.

Lemma onLine_malformed (line : jsstring) (w : wait) :
  malformed line = true ->
  onLine line w = mkWait (buffer w) (lines w ++ [line]) (code w) (settled w).
Proof.
  unfold malformed, onLine.
  now destruct (Re.matchReply line).
Qed.

(** The promise of a wait, by the first terminal line among the lines its
    listener is handed. *)
Lemma wait_resolves_on_first_terminal_line
        (pre post : list jsstring) (t : jsstring) :
  existsb terminal pre = false ->
  terminal t = true ->
  settled (onLines pre newWait) = Unsettled
  /\ settled (onLines (pre ++ [t]) newWait) = Resolved (numericPrefix t)
  /\ lines (onLines (pre ++ [t]) newWait) = pre ++ [t]
  /\ settled (onLines (pre ++ t :: post) newWait) = Resolved (numericPrefix t)
  /\ lines (onLines (pre ++ t :: post) newWait) = pre ++ t :: post.
Proof.
  intros Hpre Ht.
  assert (H0 : settled (onLines pre newWait) = Unsettled)
    by now rewrite onLines_no_terminal.
  assert (H1 : settled (onLines (pre ++ [t]) newWait) = Resolved (numericPrefix t)).
  { rewrite onLines_app. simpl. now apply onLine_terminal. }
  repeat split.
  - exact H0.
  - exact H1.
  - now rewrite onLines_lines.
  - change (pre ++ t :: post) with (pre ++ [t] ++ post).
    rewrite app_assoc, onLines_app, onLines_settled; rewrite H1; [reflexivity|discriminate].
  - now rewrite onLines_lines.
Qed.

(** The example of the specification, line by line: nothing is resolved
    after the first line, nor after the second. *)
Example three_line_reply :
  settled (onLines [lit "250-first"] newWait) = Unsettled
  /\ settled (onLines [lit "250-first"; lit "250-second"] newWait) = Unsettled
  /\ onLines [lit "250-first"; lit "250-second"; lit "250 third"] newWait
     = mkWait [] [lit "250-first"; lit "250-second"; lit "250 third"]
              (Some 250) (Resolved 250).
Proof. repeat split. Qed.

(** C3 (the claim as stated fails): a malformed line that comes before any
    well-formed line is appended to the lines of the response. *)
Lemma malformed_line_appended_before_any_code :
  malformed (lit "ready soon") = true
  /\ ~ (lines (onLine (lit "ready soon") newWait) = lines newWait ++ [lit "ready soon"] ->
        exists l, In l (lines newWait) /\ malformed l = false).
Proof.
  split; [reflexivity|].
  intros H. destruct (H eq_refl) as (l & [] & _).
Qed.

(** C3, amended: every malformed line is appended to the lines of the
    response, whatever came before it; it changes neither the code nor the
    promise, so malformed lines alone never resolve the wait. *)
Theorem malformed_lines_kept_never_resolve (ls : list jsstring) (w : wait) :
  forallb malformed ls = true ->
  onLines ls w = mkWait (buffer w) (lines w ++ ls) (code w) (settled w).
Proof.
  revert w; induction ls as [|l ls IH]; intros w H.
  - simpl. rewrite app_nil_r. now destruct w.
  - simpl in H. apply andb_true_iff in H as [Hl Hls].
    change (onLines (l :: ls) w) with (onLines ls (onLine l w)).
    rewrite (IH _ Hls), (onLine_malformed l w Hl). cbn [buffer lines code settled].
    now rewrite <- app_assoc.
Qed.

Lemma malformed_lines_kept_never_resolve_witness :
  forallb malformed [lit "ready soon"; lit "25 ok"; lit "250ok"] = true
  /\ onLines [lit "ready soon"; lit "25 ok"; lit "250ok"] newWait
     = mkWait [] [lit "ready soon"; lit "25 ok"; lit "250ok"] None Unsettled.
Proof.
  split; [reflexivity|].
  exact (malformed_lines_kept_never_resolve
           [lit "ready soon"; lit "25 ok"; lit "250ok"] newWait eq_refl).
Defined.

End WaitFacts.

(** ** Dot-stuffing *)

Module DotStuffFacts.

Lemma startsWith_length (p s : jsstring) :
  Str.startsWith p s = true -> (length p <= length s)%nat.
Proof.
  revert s; induction p as [|a p IH]; intros [|b s] H; simpl in *;
    try lia; try discriminate.
  apply andb_true_iff in H as [_ H]. apply IH in H. lia.
Qed.

Lemma matchEolDot_sound : sound Re.matchEolDot.
Proof.
  intros s k. unfold Re.matchEolDot.
  destruct (Str.startsWith [CR; LF; DOT] s) eqn:E1.
  - intros [= <-]. apply startsWith_length in E1. simpl in E1. lia.
  - destruct (Str.startsWith [LF; DOT] s) eqn:E2; [|discriminate].
    intros [= <-]. apply startsWith_length in E2. simpl in E2. lia.
Qed.

Lemma matchEol_sound : sound Re.matchEol.
Proof.
  intros s k. unfold Re.matchEol.
  destruct (Str.startsWith [CR; LF] s) eqn:E1.
  - intros [= <-]. apply startsWith_length in E1. simpl in E1. lia.
  - destruct (Str.startsWith [LF] s) eqn:E2; [|discriminate].
    intros [= <-]. apply startsWith_length in E2. simpl in E2. lia.
Qed.

(** The replacement never runs out of fuel. *)
Lemma replaceAllFuel_enough (m : jsstring -> option nat) (repl : jsstring) :
  sound m ->
  forall (n k : nat) (s : jsstring),
    (length s <= n)%nat -> (length s <= k)%nat ->
    Str.replaceAllFuel m repl n s = Str.replaceAllFuel m repl k s.
Proof.
  intros Hm. induction n as [|n IH]; intros k s Hn Hk.
  - destruct s; [|simpl in Hn; lia].
    destruct k; [reflexivity|]. simpl.
    destruct (m []) eqn:E; [|reflexivity].
    apply Hm in E. simpl in E. lia.
  - destruct k as [|k].
    + destruct s; [|simpl in Hk; lia]. simpl.
      destruct (m []) eqn:E; [|reflexivity].
      apply Hm in E. simpl in E. lia.
    + simpl. destruct (m s) as [j|] eqn:E.
      * apply Hm in E. f_equal. apply IH; rewrite length_skipn; lia.
      * destruct s as [|c s]; [reflexivity|]. simpl in Hn, Hk.
        f_equal. apply IH; lia.
Qed.

Lemma replaceAll_match (m : jsstring -> option nat) (repl s : jsstring) (k : nat) :
  sound m -> m s = Some k ->
  Str.replaceAll m repl s = repl ++ Str.replaceAll m repl (skipn k s).
Proof.
  intros Hm E. unfold Str.replaceAll.
  pose proof (Hm _ _ E) as Hk.
  destruct s as [|c s]; [simpl in Hk; lia|].
  cbn [length Str.replaceAllFuel]. rewrite E. f_equal.
  apply replaceAllFuel_enough; auto; rewrite ?length_skipn; cbn [length] in *; lia.
Qed.

Lemma replaceAll_skip (m : jsstring -> option nat) (repl s : jsstring) (c : Z) :
  m (c :: s) = None ->
  Str.replaceAll m repl (c :: s) = c :: Str.replaceAll m repl s.
Proof.
  intros E. unfold Str.replaceAll. cbn [length Str.replaceAllFuel].
  now rewrite E.
Qed.

Lemma join_document (l0 : jsstring) (ls : list jsstring) :
  Str.join CRLF (l0 :: ls) = document l0 ls.
Proof.
  unfold document. revert l0; induction ls as [|l ls IH]; intros l0.
  - simpl. now rewrite app_nil_r.
  - change (Str.join CRLF (l0 :: l :: ls)) with (l0 ++ CRLF ++ Str.join CRLF (l :: ls)).
    rewrite IH. cbn [flat_map]. now rewrite <- ?app_assoc.
Qed.

Lemma eqb_sym_false (a b : Z) : (a =? b) = false -> (b =? a) = false.
Proof. rewrite (Z.eqb_sym a b). auto. Qed.

Lemma matchEolDot_plain (c : Z) (s : jsstring) :
  (c =? LF) = false -> headIs LF s = false -> Re.matchEolDot (c :: s) = None.
Proof.
  intros Hc Hs. unfold Re.matchEolDot.
  cbn [Str.startsWith]. rewrite (eqb_sym_false _ _ Hc). cbn [andb].
  destruct s as [|y s]; [now rewrite andb_false_r|].
  simpl in Hs. rewrite (eqb_sym_false _ _ Hs). now rewrite andb_false_r.
Qed.

Lemma matchEolDot_crlf (s : jsstring) :
  Re.matchEolDot (CR :: LF :: s) = if headIs DOT s then Some 3%nat else None.
Proof.
  unfold Re.matchEolDot. cbn [Str.startsWith].
  change (CR =? CR) with true. change (LF =? LF) with true.
  change (LF =? CR) with false. cbn [andb].
  destruct s as [|y s]; [reflexivity|].
  simpl headIs. rewrite (Z.eqb_sym DOT y).
  now destruct (y =? DOT).
Qed.

Lemma matchEolDot_lf (s : jsstring) :
  headIs DOT s = false -> Re.matchEolDot (LF :: s) = None.
Proof.
  intros Hs. unfold Re.matchEolDot. cbn [Str.startsWith].
  change (CR =? LF) with false. change (LF =? LF) with true. cbn [andb].
  destruct s as [|y s]; [reflexivity|].
  simpl in Hs. now rewrite (eqb_sym_false _ _ Hs).
Qed.

Lemma headIs_document_nil (x : Z) (ls : list jsstring) :
  (x =? CR) = false -> headIs x (document [] ls) = false.
Proof.
  intros Hx. destruct ls as [|l ls]; [reflexivity|].
  change (headIs x (document [] (l :: ls))) with (CR =? x).
  now apply eqb_sym_false.
Qed.

Lemma dotStuff_document (ls : list jsstring) :
  forall l0 : jsstring,
    noLF l0 = true -> forallb noLF ls = true ->
    dotStuff (document l0 ls) = document l0 (map stuffLine ls).
Proof.
  unfold dotStuff.
  induction ls as [|l ls IHls]; intros l0; induction l0 as [|c l0 IHl0];
    intros H0 Hls.
  - reflexivity.
  - simpl in H0. apply andb_true_iff in H0 as [Hc H0].
    apply negb_true_iff in Hc.
    change (document (c :: l0) []) with (c :: document l0 []).
    rewrite replaceAll_skip, (IHl0 H0 Hls); [reflexivity|].
    apply matchEolDot_plain; [exact Hc|].
    destruct l0 as [|y l0]; [reflexivity|].
    simpl in H0. apply andb_true_iff in H0 as [Hy _].
    now apply negb_true_iff in Hy.
  - simpl in Hls. apply andb_true_iff in Hls as [Hl Hls].
    change (document [] (l :: ls)) with (CR :: LF :: document l ls).
    change (document [] (map stuffLine (l :: ls)))
      with (CR :: LF :: document (stuffLine l) (map stuffLine ls)).
    unfold stuffLine.
    destruct l as [|y l].
    + rewrite replaceAll_skip, replaceAll_skip, (IHls [] eq_refl Hls); try reflexivity.
      * apply matchEolDot_lf. now apply headIs_document_nil.
      * rewrite matchEolDot_crlf. now rewrite headIs_document_nil.
    + simpl in Hl. apply andb_true_iff in Hl as [Hy Hl].
      cbn [headIs]. destruct (y =? DOT) eqn:Ey.
      * apply Z.eqb_eq in Ey. subst y.
        rewrite (replaceAll_match _ _ _ 3 matchEolDot_sound).
        -- change (skipn 3 (CR :: LF :: document (DOT :: l) ls)) with (document l ls).
           rewrite (IHls l Hl Hls). reflexivity.
        -- rewrite matchEolDot_crlf. reflexivity.
      * rewrite replaceAll_skip, replaceAll_skip.
        -- rewrite (IHls (y :: l)); [reflexivity| |exact Hls].
           simpl. now rewrite Hy, Hl.
        -- apply matchEolDot_lf. simpl. exact Ey.
        -- rewrite matchEolDot_crlf. simpl. now rewrite Ey.
  - simpl in H0. apply andb_true_iff in H0 as [Hc H0].
    apply negb_true_iff in Hc.
    change (document (c :: l0) (l :: ls)) with (c :: document l0 (l :: ls)).
    rewrite replaceAll_skip, (IHl0 H0 Hls); [reflexivity|].
    apply matchEolDot_plain; [exact Hc|].
    destruct l0 as [|y l0]; [reflexivity|].
    simpl in H0. apply andb_true_iff in H0 as [Hy _].
    now apply negb_true_iff in Hy.
Qed.

(** [dotStuff] on its own: the first line of its input has no line end
    before it, and a dot it begins with stays single.  [send] never hands
    it such an input (see [DocumentFacts]). *)
Lemma dotStuff_first_line_untouched :
  dotStuff (Str.join CRLF [lit ".leading"]) = lit ".leading"
  /\ dotStuff (Str.join CRLF [lit ".leading"])
     <> Str.join CRLF (map stuffLine [lit ".leading"])
  /\ dotStuff (lit ".") = lit ".".
Proof.
  repeat split. vm_compute. discriminate.
Qed.

(** In a CRLF-normalized document (lines free of LF, joined by CRLF),
    dot-stuffing leaves the first line as it is and turns every later line
    into [stuffLine] of it: a second dot before a line that begins with a
    dot (the line of one dot included), nothing else. *)
Theorem dotStuff_lines (l0 : jsstring) (ls : list jsstring) :
  forallb noLF (l0 :: ls) = true ->
  dotStuff (Str.join CRLF (l0 :: ls)) = Str.join CRLF (l0 :: map stuffLine ls).
Proof.
  intros H. simpl in H. apply andb_true_iff in H as [H0 Hls].
  rewrite !join_document. now apply dotStuff_document.
Qed.

Lemma dotStuff_lines_witness :
  forallb noLF [lit "Hello"; lit ".Hi"; lit "."; lit "x.y"] = true
  /\ dotStuff (lit "Hello" ++ CRLF ++ lit ".Hi" ++ CRLF ++ lit "." ++ CRLF ++ lit "x.y")
     = lit "Hello" ++ CRLF ++ lit "..Hi" ++ CRLF ++ lit ".." ++ CRLF ++ lit "x.y".
Proof.
  split; [reflexivity|].
  exact (dotStuff_lines (lit "Hello") [lit ".Hi"; lit "."; lit "x.y"] eq_refl).
Defined.

(** The example of the specification. *)
Example dotStuff_after_crlf :
  dotStuff (CRLF ++ lit ".Hi") = CRLF ++ lit "..Hi".
Proof. reflexivity. Qed.

End DotStuffFacts.

(** ** Advertised mechanisms and the tests of the code *)

Module AdvertisedFacts.

(** The canonicalisation of the [i] flag compares letters as [sameLetter]
    does. *)
Lemma canon_sameLetter (a b : Z) :
  (Re.canon a =? Re.canon b) = true <-> sameLetter a b.
Proof.
  unfold Re.canon, Re.isLower, sameLetter. rewrite Z.eqb_eq.
  destruct (Z.leb_spec 97 a), (Z.leb_spec a 122), (Z.leb_spec 97 b), (Z.leb_spec b 122);
    cbn [andb]; lia.
Qed.

Lemma startsWithCI_sameText (p : jsstring) :
  forall s : jsstring,
    Re.startsWithCI p s = true
    <-> exists found rest, s = found ++ rest /\ sameText p found.
Proof.
  induction p as [|a p IH]; intros s.
  - split; [intros _; exists [], s; split; [reflexivity|constructor]|reflexivity].
  - destruct s as [|b s]; cbn [Re.startsWithCI].
    + split; [discriminate|].
      intros (found & rest & E & H). inversion H; subst. discriminate.
    + rewrite andb_true_iff, canon_sameLetter, IH. split.
      * intros [Hab (found & rest & -> & H)].
        exists (b :: found), rest. split; [reflexivity|now constructor].
      * intros (found & rest & E & H). inversion H as [|? c ? found' Hac H']; subst.
        injection E as <- ->. split; [assumption|]. now exists found', rest.
Qed.

Lemma testCI_holds (p : jsstring) :
  forall s : jsstring, Re.testCI p s = true <-> holds p s.
Proof.
  induction s as [|c s IH].
  - cbn [Re.testCI]. rewrite orb_false_r, startsWithCI_sameText. split.
    + intros (found & rest & E & H). now exists [], found, rest.
    + intros (before & found & rest & E & H).
      symmetry in E. apply app_eq_nil in E as [-> E]. now exists found, rest.
  - cbn [Re.testCI]. rewrite orb_true_iff, startsWithCI_sameText, IH. split.
    + intros [(found & rest & E & H)|(before & found & rest & E & H)].
      * now exists [], found, rest.
      * exists (c :: before), found, rest. split; [now rewrite E|assumption].
    + intros (before & found & rest & E & H). destruct before as [|d before].
      * left. now exists found, rest.
      * right. injection E as <- ->. now exists before, found, rest.
Qed.

Lemma isWordChar_wordCharacter (c : Z) :
  Re.isWordChar c = true <-> wordCharacter c.
Proof.
  unfold Re.isWordChar, Re.isDigit, Re.isUpper, Re.isLower, wordCharacter.
  rewrite !orb_true_iff, !andb_true_iff, !Z.leb_le, Z.eqb_eq. tauto.
Qed.

Lemma boundary_spec (rest : jsstring) :
  Re.boundaryAfterWord rest = true
  <-> match rest with [] => True | c :: _ => ~ wordCharacter c end.
Proof.
  destruct rest as [|c rest]; cbn [Re.boundaryAfterWord]; [tauto|].
  rewrite negb_true_iff, <- isWordChar_wordCharacter.
  destruct (Re.isWordChar c); split; congruence || auto.
Qed.

Lemma sameText_length (a b : jsstring) : sameText a b -> length b = length a.
Proof. intros H. induction H; simpl; congruence. Qed.

Lemma authHere (s : jsstring) :
  Re.startsWithCI (lit "AUTH") s && Re.boundaryAfterWord (skipn 4 s) = true
  <-> exists found rest,
        s = found ++ rest /\ sameText (lit "AUTH") found
        /\ match rest with [] => True | c :: _ => ~ wordCharacter c end.
Proof.
  rewrite andb_true_iff, startsWithCI_sameText, boundary_spec. split.
  - intros [(found & rest & -> & H) Hb]. exists found, rest.
    repeat split; auto.
    pose proof (sameText_length _ _ H) as Hl.
    change (length (lit "AUTH")) with 4%nat in Hl.
    rewrite <- Hl, skipn_app, skipn_all, Nat.sub_diag in Hb. exact Hb.
  - intros (found & rest & -> & H & Hb). split; [now exists found, rest|].
    pose proof (sameText_length _ _ H) as Hl.
    change (length (lit "AUTH")) with 4%nat in Hl.
    rewrite <- Hl, skipn_app, skipn_all, Nat.sub_diag. exact Hb.
Qed.

Lemma testAuthWord_holds (s : jsstring) :
  Re.testAuthWord s = true <-> holdsAuthKeyword s.
Proof.
  induction s as [|c s IH].
  - change (Re.testAuthWord []) with false. split; [discriminate|].
    intros (before & found & rest & E & H & _).
    symmetry in E. apply app_eq_nil in E as [_ E]. apply app_eq_nil in E as [-> _].
    inversion H.
  - change (Re.testAuthWord (c :: s))
      with (Re.startsWithCI (lit "AUTH") (c :: s)
            && Re.boundaryAfterWord (skipn 4 (c :: s))
            || Re.testAuthWord s).
    rewrite orb_true_iff, authHere, IH. split.
    + intros [(found & rest & E & H)|(before & found & rest & E & H)].
      * now exists [], found, rest.
      * exists (c :: before), found, rest. split; [now rewrite E|assumption].
    + intros (before & found & rest & E & H). destruct before as [|d before].
      * left. now exists found, rest.
      * right. injection E as <- ->. now exists before, found, rest.
Qed.

(** The two tests of [send] answer what the server advertises. *)
Lemma supportsAuthPlain_advertises (resp : response) :
  supportsAuthPlain resp = true <-> advertises (lit "PLAIN") resp.
Proof.
  unfold supportsAuthPlain, advertises. rewrite existsb_exists.
  split; intros (l & Hin & H); exists l; (split; [exact Hin|]).
  - apply andb_true_iff in H. now rewrite <- testAuthWord_holds, <- testCI_holds.
  - apply andb_true_iff. now rewrite testAuthWord_holds, testCI_holds.
Qed.

Lemma supportsAuthLogin_advertises (resp : response) :
  supportsAuthLogin resp = true <-> advertises (lit "LOGIN") resp.
Proof.
  unfold supportsAuthLogin, advertises. rewrite existsb_exists.
  split; intros (l & Hin & H); exists l; (split; [exact Hin|]).
  - apply andb_true_iff in H. now rewrite <- testAuthWord_holds, <- testCI_holds.
  - apply andb_true_iff. now rewrite testAuthWord_holds, testCI_holds.
Qed.

End AdvertisedFacts.

(** ** The session: what each step leaves in the trace *)

Module SessionFacts.

Lemma deliverTo_frame (chunk : bytes) (w : world) (id : nat) :
  trace (deliverTo chunk w id) = trace w
  /\ rebound (deliverTo chunk w id) = rebound w
  /\ dataSecured (deliverTo chunk w id) = dataSecured w.
Proof.
  unfold deliverTo.
  destruct (nth_error (waits w) id); [|auto].
  destruct (chunkDetaches chunk w0); auto.
Qed.

Lemma deliverAll_frame (chunk : bytes) (ids : list nat) (w : world) :
  trace (fold_left (deliverTo chunk) ids w) = trace w
  /\ rebound (fold_left (deliverTo chunk) ids w) = rebound w
  /\ dataSecured (fold_left (deliverTo chunk) ids w) = dataSecured w.
Proof.
  revert w; induction ids as [|id ids IH]; intros w; [auto|].
  simpl. destruct (IH (deliverTo chunk w id)) as (-> & -> & ->).
  apply deliverTo_frame.
Qed.

Lemma deliver_frame (chunk : bytes) (w : world) :
  trace (deliver chunk w) = trace w
  /\ rebound (deliver chunk w) = rebound w
  /\ dataSecured (deliver chunk w) = dataSecured w.
Proof. apply deliverAll_frame. Qed.

Lemma awaitLoop_trace (id : nat) (evs : list event) :
  forall (w : world) (o : outcome response) (w' : world),
    awaitLoop id evs w = (o, w') ->
    trace w' = trace w ++ received o /\ rebound w' = rebound w.
Proof.
  induction evs as [|ev evs IH]; intros w o w' H.
  - injection H as <- <-. simpl. now rewrite app_nil_r.
  - destruct ev as [chunk|err| |]; cbn [awaitLoop] in H.
    + destruct (deliver_frame chunk w) as (Ht & Hr & _).
      destruct (nth_error (waits (deliver chunk w)) id) as [[b ls c [|code|e]]|];
        try (apply IH in H; rewrite Ht, Hr in H; exact H).
      injection H as <- <-. simpl. now rewrite Ht, Hr.
    + injection H as <- <-. simpl. now rewrite app_nil_r.
    + injection H as <- <-. simpl. now rewrite app_nil_r.
    + now apply IH in H.
Qed.

Lemma readResponse_trace (w : world) (o : outcome response) (w' : world) :
  readResponse w = (o, w') ->
  trace w' = trace w ++ received o /\ rebound w' = rebound w.
Proof.
  unfold readResponse, createWait. intros H.
  apply awaitLoop_trace in H. unfold socketOn, active in H.
  destruct (rebound w) eqn:E; simpl in H; rewrite ?E in H; exact H.
Qed.

Lemma handshake_trace (evs : list event) :
  forall (w : world) (o : outcome unit) (w' : world),
    handshake evs w = (o, w') -> trace w' = trace w /\ rebound w' = rebound w.
Proof.
  induction evs as [|ev evs IH]; intros w o w' H.
  - injection H as <- <-. auto.
  - destruct ev as [chunk|err| |]; cbn [handshake] in H.
    + apply IH in H. destruct (deliver_frame chunk w) as (Ht & Hr & _).
      now rewrite Ht, Hr in H.
    + injection H as <- <-. auto.
    + now apply IH in H.
    + injection H as <- <-. auto.
Qed.

Lemma upgrade_trace (w : world) (o : outcome unit) (w' : world) :
  upgrade w = (o, w') -> trace w' = trace w ++ [Upgraded] /\ rebound w' = true.
Proof.
  unfold upgrade. intros H. now apply handshake_trace in H.
Qed.

Lemma quiet_ret {A : Type} (a : A) : quiet (ret a).
Proof. intros w o w' [= <- <-]. exists []. now rewrite app_nil_r. Qed.

Lemma quiet_throw {A : Type} (e : error) : quiet (@throw A e).
Proof. intros w o w' [= <- <-]. exists []. now rewrite app_nil_r. Qed.

Lemma quiet_bind {A B : Type} (m : M A) (k : A -> M B) :
  quiet m -> (forall a, quiet (k a)) -> quiet (bind m k).
Proof.
  intros Hm Hk w o w' H. unfold bind in H.
  destruct (m w) as [[a|e|] w1] eqn:E.
  - destruct (Hm _ _ _ E) as (t1 & E1 & H1).
    destruct (Hk a _ _ _ H) as (t2 & E2 & H2).
    exists (t1 ++ t2). rewrite E2, E1, app_assoc, existsb_app, H1, H2. auto.
  - injection H as <- <-. eapply Hm; eauto.
  - injection H as <- <-. eapply Hm; eauto.
Qed.

Lemma quiet_unless (ok : bool) (e : error) : quiet (unless ok e).
Proof. destruct ok; [apply quiet_ret|apply quiet_throw]. Qed.

Lemma quiet_write (data : jsstring) : quiet (write data).
Proof. intros w o w' [= <- <-]. now exists [Wrote (active w) data]. Qed.

Lemma quiet_connect (cfg : config) : quiet (connect cfg).
Proof.
  intros w o w' [= <- <-].
  now exists [Connected (secure cfg) (port cfg) (host cfg)].
Qed.

Lemma quiet_readResponse : quiet readResponse.
Proof.
  intros w o w' H. apply readResponse_trace in H as [-> _].
  exists (received o). split; [reflexivity|]. now destruct o.
Qed.

Lemma quiet_upgrade : quiet upgrade.
Proof.
  intros w o w' H. apply upgrade_trace in H as [-> _]. now exists [Upgraded].
Qed.

Create HintDb quiet.
#[local] Hint Resolve quiet_ret quiet_throw quiet_unless quiet_write
  quiet_connect quiet_readResponse quiet_upgrade : quiet.

Ltac quiet_steps :=
  repeat first
    [ apply quiet_bind; [|intros ?]
    | solve [auto with quiet]
    | match goal with |- quiet (if ?b then _ else _) => destruct b end ].

Lemma quiet_banner : quiet banner.
Proof. unfold banner. quiet_steps. Qed.

Lemma quiet_greet (cfg : config) : quiet (greet cfg).
Proof. unfold greet. quiet_steps. Qed.

Lemma quiet_startTls (env : Env) (cfg : config) (resp : response) :
  quiet (startTls env cfg resp).
Proof. unfold startTls. quiet_steps. Qed.

Lemma quiet_authenticate (cfg : config) (resp : response) :
  quiet (authenticate cfg resp).
Proof. unfold authenticate, authPlain, authLogin. quiet_steps. Qed.

Lemma quiet_mailFrom (msg : message) : quiet (mailFrom msg).
Proof. unfold mailFrom. quiet_steps. Qed.

Lemma quiet_rcptAll (recipients : list jsstring) : quiet (rcptAll recipients).
Proof.
  induction recipients as [|rcpt rest IH]; cbn [rcptAll]; [apply quiet_ret|].
  quiet_steps.
Qed.

Lemma quiet_dataCommand : quiet dataCommand.
Proof. unfold dataCommand. quiet_steps. Qed.

Lemma quiet_sendBody (env : Env) (msg : message) : quiet (sendBody env msg).
Proof. unfold sendBody. quiet_steps. Qed.

Lemma quiet_quit : quiet quit.
Proof. unfold quit. quiet_steps. Qed.

#[local] Hint Resolve quiet_banner quiet_greet quiet_startTls quiet_authenticate
  quiet_mailFrom quiet_rcptAll quiet_dataCommand quiet_sendBody quiet_quit : quiet.

Lemma quiet_session (env : Env) (cfg : config) (msg : message) :
  quiet (session env cfg msg).
Proof. unfold session. quiet_steps. Qed.

#[local] Hint Resolve quiet_session : quiet.

Lemma quiet_closed {A : Type} (m : M A) (w : world) (o : outcome A) (w' : world) :
  quiet m -> m w = (o, w') -> closed w' = closed w.
Proof.
  intros Hm H. destruct (Hm _ _ _ H) as (t & Ht & Hq).
  unfold closed. rewrite Ht, existsb_app, Hq. apply orb_false_r.
Qed.

Lemma closesOnReturn_bind {A B : Type} (m : M A) (k : A -> M B) :
  quiet m -> (forall a, closesOnReturn (k a)) -> closesOnReturn (bind m k).
Proof.
  intros Hm Hk w o w' Hw H. unfold bind in H.
  destruct (m w) as [[a|e|] w1] eqn:E;
    pose proof (quiet_closed _ _ _ _ Hm E) as Hc; rewrite Hw in Hc.
  - eapply Hk; eauto.
  - now injection H as <- <-.
  - now injection H as <- <-.
Qed.

Lemma closesOnReturn_end {A : Type} (a : A) : closesOnReturn (socketEnd ;; ret a).
Proof.
  intros w o w' Hw [= <- <-].
  unfold closed. simpl. rewrite existsb_app. simpl. apply orb_true_r.
Qed.

Lemma send_closesOnReturn (env : Env) (cfg : config) (msg : message) :
  closesOnReturn (send env cfg msg).
Proof.
  unfold send.
  repeat (apply closesOnReturn_bind; [solve [auto with quiet]|intros ?]).
  apply closesOnReturn_end.
Qed.

Lemma run_bind {A B : Type} (m : M A) (k : A -> M B) (w : world) :
  bind m k w =
  match m w with
  | (Returned a, w') => k a w'
  | (Thrown e, w') => (Thrown e, w')
  | (Pending, w') => (Pending, w')
  end.
Proof. reflexivity. Qed.

Lemma send_validation (env : Env) (cfg : config) (msg : message) (w : world) :
  truthy (from msg) = false \/ recipientsOf msg = [] ->
  send env cfg msg w
  = (Thrown (if truthy (from msg) then RecipientRequired else FromRequired), w).
Proof.
  intros H. unfold send.
  destruct (truthy (from msg)) eqn:Ef; [|reflexivity].
  destruct H as [H|H]; [discriminate|].
  rewrite H. reflexivity.
Qed.

Lemma quiet_grows {A : Type} (m : M A) : quiet m -> grows m.
Proof.
  intros Hm w o w' H. destruct (Hm _ _ _ H) as (t & Ht & _). now exists t.
Qed.

Lemma grows_bind {A B : Type} (m : M A) (k : A -> M B) :
  grows m -> (forall a, grows (k a)) -> grows (bind m k).
Proof.
  intros Hm Hk w o w' H. unfold bind in H.
  destruct (m w) as [[a|e|] w1] eqn:E.
  - destruct (Hm _ _ _ E) as (t1 & E1).
    destruct (Hk a _ _ _ H) as (t2 & E2).
    exists (t1 ++ t2). now rewrite E2, E1, app_assoc.
  - injection H as <- <-. eapply Hm; eauto.
  - injection H as <- <-. eapply Hm; eauto.
Qed.

Lemma grows_socketEnd : grows socketEnd.
Proof. intros w o w' [= <- <-]. now exists [Ended]. Qed.

Lemma grows_opened {A : Type} (m : M A) (w : world) (o : outcome A) (w' : world) :
  grows m -> m w = (o, w') -> opened w = true -> opened w' = true.
Proof.
  intros Hm H Hw. destruct (Hm _ _ _ H) as (t & Ht).
  unfold opened. rewrite Ht, existsb_app. unfold opened in Hw. now rewrite Hw.
Qed.

(** Past the two checks, [send] has opened its socket. *)
Lemma send_opened (env : Env) (cfg : config) (msg : message)
      (w : world) (o : outcome result) (w' : world) :
  truthy (from msg) = true -> recipientsOf msg <> [] ->
  send env cfg msg w = (o, w') -> opened w' = true.
Proof.
  intros Hfrom Hrcpts. unfold send. rewrite Hfrom.
  destruct (recipientsOf msg) as [|r rs] eqn:E; [congruence|].
  cbn [length Nat.eqb negb unless].
  rewrite run_bind. cbn [ret]. rewrite run_bind. cbn [ret].
  unfold session.
  change ((connect cfg ;; ?m) ;; ?k)
    with (fun w0 => (m ;; k) (logged (Connected (secure cfg) (port cfg) (host cfg)) w0)).
  cbv beta. intros H.
  refine (grows_opened _ _ _ _ _ H _).
  - repeat first
      [ apply grows_socketEnd
      | apply quiet_grows; solve [auto with quiet]
      | apply grows_bind; [|intros ?] ].
  - unfold opened. cbn [logged trace]. rewrite existsb_app. cbn. apply orb_true_r.
Qed.

(** C1 (the claim fails on the code): the second of three recipients is
    refused with 550; [send] throws, and the socket it opened was never
    ended. *)
Lemma rcpt_refused_leaves_transport_open :
  fst (send Scenario.env Scenario.plainClient Scenario.toThree
            (initialWorld Scenario.secondRefused))
  = Thrown (RcptFailed (lit "c@z") [lit "550 no such user"])
  /\ opened (snd (send Scenario.env Scenario.plainClient Scenario.toThree
                       (initialWorld Scenario.secondRefused))) = true
  /\ closed (snd (send Scenario.env Scenario.plainClient Scenario.toThree
                       (initialWorld Scenario.secondRefused))) = false.
Proof. repeat split. Qed.

(** C1, amended: [send] ends the socket exactly when it returns.  Whenever
    it throws (at the banner, EHLO or HELO, STARTTLS, AUTH, MAIL FROM,
    RCPT TO, DATA or the body) or never settles, the socket has not been
    ended; and unless the error is one of the two validation errors, a
    socket had been opened. *)
Theorem send_ends_socket_only_on_success
        (env : Env) (cfg : config) (msg : message) (events : list event) :
  closed (snd (send env cfg msg (initialWorld events)))
  = match fst (send env cfg msg (initialWorld events)) with
    | Returned _ => true
    | _ => false
    end
  /\ (opened (snd (send env cfg msg (initialWorld events))) = true
      \/ fst (send env cfg msg (initialWorld events)) = Thrown FromRequired
      \/ fst (send env cfg msg (initialWorld events)) = Thrown RecipientRequired).
Proof.
  split.
  - destruct (send env cfg msg (initialWorld events)) as [o w'] eqn:E.
    exact (send_closesOnReturn env cfg msg (initialWorld events) o w' eq_refl E).
  - destruct (truthy (from msg)) eqn:Hfrom.
    + destruct (recipientsOf msg) as [|r rs] eqn:Hrcpts.
      * right. right. rewrite send_validation by now right.
        now rewrite Hfrom.
      * left. destruct (send env cfg msg (initialWorld events)) as [o w'] eqn:E.
        apply (send_opened env cfg msg (initialWorld events) o w'); auto.
        rewrite Hrcpts. discriminate.
    + right. left. rewrite send_validation by now left.
      now rewrite Hfrom.
Qed.

(** ** Validation *)

(** C9: with no [from] or no recipient at all, [send] throws its
    validation error and the world is the one it was given: no socket was
    opened and nothing was written. *)
Theorem send_validates_before_any_io
        (env : Env) (cfg : config) (msg : message) (events : list event) :
  truthy (from msg) = false \/ recipientsOf msg = [] ->
  exists e,
    (e = FromRequired \/ e = RecipientRequired)
    /\ send env cfg msg (initialWorld events) = (Thrown e, initialWorld events)
    /\ written (snd (send env cfg msg (initialWorld events))) = []
    /\ opened (snd (send env cfg msg (initialWorld events))) = false.
Proof.
  intros H. rewrite (send_validation env cfg msg _ H).
  exists (if truthy (from msg) then RecipientRequired else FromRequired).
  repeat split. destruct (truthy (from msg)); auto.
Qed.

Lemma send_validates_before_any_io_witness :
  (truthy (from Scenario.noSender) = false \/ recipientsOf Scenario.noSender = [])
  /\ exists e,
       (e = FromRequired \/ e = RecipientRequired)
       /\ send Scenario.env Scenario.plainClient Scenario.noSender
               (initialWorld Scenario.secondRefused)
          = (Thrown e, initialWorld Scenario.secondRefused)
       /\ written (snd (send Scenario.env Scenario.plainClient Scenario.noSender
                             (initialWorld Scenario.secondRefused))) = []
       /\ opened (snd (send Scenario.env Scenario.plainClient Scenario.noSender
                            (initialWorld Scenario.secondRefused))) = false.
Proof.
  split; [left; reflexivity|].
  apply send_validates_before_any_io. left; reflexivity.
Defined.

(** ** Authentication *)

(** One command and the wait for its reply: what it adds to the trace. *)
Lemma command_trace (data : jsstring) (w : world) (o : outcome response) (w' : world) :
  (write data ;; readResponse) w = (o, w') ->
  trace w' = trace w ++ Wrote (active w) data :: received o
  /\ rebound w' = rebound w.
Proof.
  rewrite run_bind. cbn [write]. intros H.
  apply readResponse_trace in H as [-> ->]. cbn [logged trace rebound].
  now rewrite <- app_assoc.
Qed.

Lemma writes_app (a b : list io) : writes (a ++ b) = writes a ++ writes b.
Proof.
  induction a as [|e a IH]; [reflexivity|].
  destruct e; simpl; now rewrite ?IH.
Qed.

Lemma written_logged_write (via : emitter) (data : jsstring) (w : world) :
  written (logged (Wrote via data) w) = written w ++ [data].
Proof. unfold written. cbn [logged trace]. now rewrite writes_app. Qed.

Lemma readResponse_written (w : world) (o : outcome response) (w' : world) :
  readResponse w = (o, w') -> written w' = written w.
Proof.
  intros H. apply readResponse_trace in H as [H _].
  unfold written. rewrite H, writes_app.
  destruct o; simpl; now rewrite app_nil_r.
Qed.

(** A command and what follows its reply. *)
Lemma run_command {B : Type} (data : jsstring) (k : response -> M B) (w : world) :
  (write data ;; resp <- readResponse ;; k resp) w
  = match readResponse (logged (Wrote (active w) data) w) with
    | (Returned resp, w') => k resp w'
    | (Thrown e, w') => (Thrown e, w')
    | (Pending, w') => (Pending, w')
    end.
Proof. reflexivity. Qed.

Lemma unless_written (ok : bool) (e : error) (w : world) :
  written (snd (unless ok e w)) = written w.
Proof. now destruct ok. Qed.

Lemma authPlain_written (cfg : config) (w : world) :
  written (snd (authPlain cfg w)) = written w ++ [authPlainCommand cfg].
Proof.
  unfold authPlain. cbv zeta. fold (authPlainCommand cfg).
  rewrite run_command.
  destruct (readResponse _) as [[resp|e|] w1] eqn:E;
    apply readResponse_written in E; rewrite written_logged_write in E;
    cbn [snd]; rewrite ?unless_written; exact E.
Qed.

Lemma authLogin_written (cfg : config) (w : world) :
  exists n : nat,
    written (snd (authLogin cfg w))
    = written w ++ (lit "AUTH LOGIN" ++ CRLF) :: firstn n (authLoginAnswers cfg).
Proof.
  unfold authLogin. rewrite run_command.
  destruct (readResponse _) as [[resp1|e1|] w1] eqn:E1;
    apply readResponse_written in E1; rewrite written_logged_write in E1;
    try (exists 0%nat; cbn [snd firstn]; exact E1).
  rewrite run_bind.
  destruct (okReply 334 resp1); cbn [unless ret throw];
    [|exists 0%nat; cbn [snd firstn]; exact E1].
  rewrite run_command.
  destruct (readResponse _) as [[resp2|e2|] w2] eqn:E2;
    apply readResponse_written in E2; rewrite written_logged_write, E1 in E2;
    try (exists 1%nat; cbn [snd firstn authLoginAnswers]; rewrite E2, <- app_assoc;
         reflexivity).
  rewrite run_bind.
  destruct (okReply 334 resp2); cbn [unless ret throw];
    [|exists 1%nat; cbn [snd firstn authLoginAnswers]; rewrite E2, <- app_assoc;
      reflexivity].
  rewrite run_command.
  exists 2%nat.
  destruct (readResponse _) as [[resp3|e3|] w3] eqn:E3;
    apply readResponse_written in E3; rewrite written_logged_write, E2 in E3;
    cbn [snd firstn authLoginAnswers]; rewrite ?unless_written, E3, <- !app_assoc;
    reflexivity.
Qed.

(** C7: with a user and a password, [send] writes [AUTH PLAIN] with the
    credentials (and nothing else) whenever the capability lines advertise
    PLAIN, whether or not they advertise LOGIN too; it starts the LOGIN
    exchange with [AUTH LOGIN] when they advertise LOGIN and not PLAIN;
    and when they advertise neither, it throws the no-mechanism error
    having written nothing. *)
Theorem auth_prefers_plain_then_login (cfg : config) (resp : response) (w : world) :
  truthy (user cfg) && truthy (pass cfg) = true ->
  (advertises (lit "PLAIN") resp ->
   written (snd (authenticate cfg resp w)) = written w ++ [authPlainCommand cfg])
  /\ (advertises (lit "LOGIN") resp -> ~ advertises (lit "PLAIN") resp ->
      exists n : nat,
        written (snd (authenticate cfg resp w))
        = written w ++ (lit "AUTH LOGIN" ++ CRLF) :: firstn n (authLoginAnswers cfg))
  /\ (~ advertises (lit "PLAIN") resp -> ~ advertises (lit "LOGIN") resp ->
      authenticate cfg resp w = (Thrown NoAuthMechanism, w)).
Proof.
  intros Hcred. unfold authenticate. rewrite Hcred.
  rewrite <- AdvertisedFacts.supportsAuthPlain_advertises,
          <- AdvertisedFacts.supportsAuthLogin_advertises.
  repeat split.
  - intros ->. apply authPlain_written.
  - intros Hl Hp. apply not_true_is_false in Hp. rewrite Hp, Hl.
    apply authLogin_written.
  - intros Hp Hl. apply not_true_is_false in Hp, Hl. now rewrite Hp, Hl.
Qed.

Lemma auth_prefers_plain_then_login_witness :
  truthy (user Scenario.authClient) && truthy (pass Scenario.authClient) = true
  /\ advertises (lit "PLAIN") bothOffered
  /\ advertises (lit "LOGIN") bothOffered
  /\ written (snd (authenticate Scenario.authClient bothOffered
                     (initialWorld [Scenario.serverLine "235 ok"])))
     = [] ++ [lit "AUTH PLAIN AHVzZXIAcGFzcw==" ++ CRLF]
  /\ advertises (lit "LOGIN") loginOffered
  /\ ~ advertises (lit "PLAIN") loginOffered
  /\ (exists n : nat,
        written (snd (authenticate Scenario.authClient loginOffered
                        (initialWorld [Scenario.serverLine "334 VXNlcm5hbWU6"])))
        = [] ++ (lit "AUTH LOGIN" ++ CRLF) :: firstn n (authLoginAnswers Scenario.authClient))
  /\ ~ advertises (lit "PLAIN") noneOffered
  /\ ~ advertises (lit "LOGIN") noneOffered
  /\ authenticate Scenario.authClient noneOffered (initialWorld [])
     = (Thrown NoAuthMechanism, initialWorld []).
Proof.
  assert (P1 : advertises (lit "PLAIN") bothOffered).
  { exists (lit "250 AUTH PLAIN LOGIN"). split; [right; left; reflexivity|]. split.
    - exists (lit "250 "), (lit "AUTH"), (lit " PLAIN LOGIN").
      split; [reflexivity|]. split; [repeat constructor|].
      unfold wordCharacter. cbn. lia.
    - exists (lit "250 AUTH "), (lit "PLAIN"), (lit " LOGIN").
      split; [reflexivity|repeat constructor]. }
  assert (L1 : advertises (lit "LOGIN") bothOffered).
  { exists (lit "250 AUTH PLAIN LOGIN"). split; [right; left; reflexivity|]. split.
    - exists (lit "250 "), (lit "AUTH"), (lit " PLAIN LOGIN").
      split; [reflexivity|]. split; [repeat constructor|].
      unfold wordCharacter. cbn. lia.
    - exists (lit "250 AUTH PLAIN "), (lit "LOGIN"), [].
      split; [reflexivity|repeat constructor]. }
  assert (L2 : advertises (lit "LOGIN") loginOffered).
  { exists (lit "250 auth login CRAM-MD5"). split; [right; left; reflexivity|]. split.
    - exists (lit "250 "), (lit "auth"), (lit " login CRAM-MD5").
      split; [reflexivity|]. split.
      + repeat (apply Forall2_cons; [right; left; cbn; lia|]). apply Forall2_nil.
      + unfold wordCharacter. cbn. lia.
    - exists (lit "250 auth "), (lit "login"), (lit " CRAM-MD5").
      split; [reflexivity|].
      repeat (apply Forall2_cons; [right; left; cbn; lia|]). apply Forall2_nil. }
  assert (P2 : ~ advertises (lit "PLAIN") loginOffered).
  { intros H. apply AdvertisedFacts.supportsAuthPlain_advertises in H. discriminate H. }
  assert (P3 : ~ advertises (lit "PLAIN") noneOffered).
  { intros H. apply AdvertisedFacts.supportsAuthPlain_advertises in H. discriminate H. }
  assert (L3 : ~ advertises (lit "LOGIN") noneOffered).
  { intros H. apply AdvertisedFacts.supportsAuthLogin_advertises in H. discriminate H. }
  refine (conj eq_refl (conj P1 (conj L1 (conj _ (conj L2 (conj P2 (conj _
            (conj P3 (conj L3 _))))))))).
  - exact (proj1 (auth_prefers_plain_then_login Scenario.authClient bothOffered
                    (initialWorld [Scenario.serverLine "235 ok"]) eq_refl) P1).
  - exact (proj1 (proj2 (auth_prefers_plain_then_login Scenario.authClient loginOffered
                    (initialWorld [Scenario.serverLine "334 VXNlcm5hbWU6"]) eq_refl))
             L2 P2).
  - exact (proj2 (proj2 (auth_prefers_plain_then_login Scenario.authClient noneOffered
                    (initialWorld []) eq_refl)) P3 L3).
Defined.
(** The other two cases on an example each. *)
Example auth_login_when_only_login :
  written (snd (authenticate Scenario.authClient
                  (mkResponse 250 [lit "250-SIZE 1000"; lit "250 AUTH LOGIN CRAM-MD5"])
                  (initialWorld [Scenario.serverLine "334 VXNlcm5hbWU6";
                                 Scenario.serverLine "334 UGFzc3dvcmQ6";
                                 Scenario.serverLine "235 ok"])))
  = [lit "AUTH LOGIN" ++ CRLF; lit "dXNlcg==" ++ CRLF; lit "cGFzcw==" ++ CRLF].
Proof. reflexivity. Qed.

Example auth_fails_without_mechanism :
  authenticate Scenario.authClient
    (mkResponse 250 [lit "250-SIZE 1000"; lit "250 AUTH CRAM-MD5"])
    (initialWorld [Scenario.serverLine "235 ok"])
  = (Thrown NoAuthMechanism, initialWorld [Scenario.serverLine "235 ok"]).
Proof. reflexivity. Qed.

(** ** The RCPT TO loop *)

Lemma awaitLoop_thrown (id : nat) (evs : list event) :
  forall (w : world) (e : error) (w' : world),
    awaitLoop id evs w = (Thrown e, w') ->
    e = Timeout \/ exists err, e = TransportError err.
Proof.
  induction evs as [|ev evs IH]; intros w e w' H; [discriminate|].
  destruct ev as [chunk|err| |]; cbn [awaitLoop] in H.
  - destruct (nth_error (waits (deliver chunk w)) id) as [[b ls c [|code|e']]|];
      try (now apply IH in H). discriminate.
  - injection H as <- _. right. now exists err.
  - injection H as <- _. now left.
  - now apply IH in H.
Qed.

Lemma readResponse_thrown (w : world) (e : error) (w' : world) :
  readResponse w = (Thrown e, w') ->
  e = Timeout \/ exists err, e = TransportError err.
Proof. unfold readResponse, createWait. apply awaitLoop_thrown. Qed.

Lemma rcptEnding_cons (via : emitter) (o : outcome unit) (rcpt : jsstring)
      (done rcpts : list jsstring) (tail : list io) :
  rcptEnding via o done rcpts tail ->
  rcptEnding via o (rcpt :: done) (rcpt :: rcpts) tail.
Proof.
  destruct o as [u|e|]; cbn [rcptEnding].
  - intros [-> ->]. auto.
  - intros (r & rest & -> & H). exists r, rest. auto.
  - intros (r & rest & -> & H). exists r, rest. auto.
Qed.

Lemma active_rebound (w w' : world) : rebound w' = rebound w -> active w' = active w.
Proof. unfold active. now intros ->. Qed.

Lemma rcptAll_trace (rcpts : list jsstring) :
  forall (w : world) (o : outcome unit) (w' : world),
    rcptAll rcpts w = (o, w') ->
    rebound w' = rebound w
    /\ exists done replies tail,
         length replies = length done
         /\ forallb accepted replies = true
         /\ trace w' = trace w ++ exchanges (active w) done replies ++ tail
         /\ rcptEnding (active w) o done rcpts tail.
Proof.
  induction rcpts as [|rcpt rcpts IH]; intros w o w' H.
  - injection H as <- <-. split; [reflexivity|].
    exists [], [], []. cbn. rewrite app_nil_r. auto.
  - cbn [rcptAll] in H. rewrite run_command in H.
    destruct (readResponse _) as [[resp|e|] w1] eqn:E.
    + apply readResponse_trace in E as [Et Er]. cbn [logged trace rebound] in Et, Er.
      rewrite run_bind in H.
      change (okReply 250 resp || okReply 251 resp) with (accepted resp) in H.
      destruct (accepted resp) eqn:Ea; cbn [unless ret throw] in H.
      * apply IH in H as (Hr & done & replies & tail & Hlen & Hacc & Ht & Hend).
        rewrite (active_rebound _ _ Er) in Ht, Hend.
        split; [congruence|].
        exists (rcpt :: done), (resp :: replies), tail.
        repeat split.
        -- simpl. now rewrite Hlen.
        -- simpl. now rewrite Ea, Hacc.
        -- rewrite Ht, Et. cbn [exchanges exchange received].
           now rewrite <- !app_assoc.
        -- now apply rcptEnding_cons.
      * injection H as <- <-. split; [exact Er|].
        exists [], [], (exchange (active w) rcpt resp).
        repeat split.
        -- rewrite Et. cbn [exchanges exchange received app].
           now rewrite <- app_assoc.
        -- cbn [rcptEnding]. exists rcpt, rcpts. split; [reflexivity|].
           left. now exists resp.
    + injection H as <- <-.
      pose proof (readResponse_thrown _ _ _ E) as He.
      apply readResponse_trace in E as [Et Er]. cbn [logged trace rebound received] in Et, Er.
      split; [exact Er|].
      exists [], [], [Wrote (active w) (rcptCommand rcpt)].
      repeat split.
      * rewrite Et. now rewrite app_nil_r.
      * cbn [rcptEnding]. exists rcpt, rcpts. split; [reflexivity|]. now right.
    + injection H as <- <-.
      apply readResponse_trace in E as [Et Er]. cbn [logged trace rebound received] in Et, Er.
      split; [exact Er|].
      exists [], [], [Wrote (active w) (rcptCommand rcpt)].
      repeat split.
      * rewrite Et. now rewrite app_nil_r.
      * cbn [rcptEnding]. now exists rcpt, rcpts.
Qed.

(** [send] from the loop on: it stops where the loop stops. *)
Lemma send_from_rcpt (env : Env) (cfg : config) (msg : message)
      (w0 w1 w2 : world) (o : outcome unit) :
  truthy (from msg) = true ->
  recipientsOf msg <> [] ->
  session env cfg msg w0 = (Returned tt, w1) ->
  rcptAll (recipientsOf msg) w1 = (o, w2) ->
  send env cfg msg w0
  = match o with
    | Returned _ => afterRcpt env msg w2
    | Thrown e => (Thrown e, w2)
    | Pending => (Pending, w2)
    end.
Proof.
  intros Hfrom Hrcpts Hs Hr. unfold send. rewrite Hfrom.
  destruct (recipientsOf msg) as [|r rs] eqn:E; [congruence|].
  cbn [length Nat.eqb negb unless].
  rewrite run_bind. cbn [ret]. rewrite run_bind. cbn [ret].
  rewrite run_bind, Hs, run_bind, Hr.
  now destruct o.
Qed.

Lemma recipientsOf_Recipients (msg : message) : recipientsOf msg = Recipients msg.
Proof.
  unfold recipientsOf, Recipients. cbn [app].
  assert (H : forall v, concatArg v = given v) by (intros [|[|c a]|l]; reflexivity).
  now rewrite !H.
Qed.

(** C8: once the session has got as far as the reply to MAIL FROM, the
    loop writes [RCPT TO:<addr>] and CRLF for the recipients in the order
    of [to], then [cc], then [bcc], one at a time, each after the reply to
    the one before was 250 or 251.  With every recipient accepted [send]
    goes on to DATA; at the first reply that is neither 250 nor 251 (or
    the first wait that fails) [send] throws at once: the trace ends
    there, with no command for a later recipient and no DATA. *)
Theorem rcpt_in_order_first_refusal_aborts
        (env : Env) (cfg : config) (msg : message)
        (w0 w1 w2 : world) (o : outcome unit) :
  truthy (from msg) = true ->
  Recipients msg <> [] ->
  session env cfg msg w0 = (Returned tt, w1) ->
  rcptAll (recipientsOf msg) w1 = (o, w2) ->
  (exists done replies tail,
     length replies = length done
     /\ forallb accepted replies = true
     /\ trace w2 = trace w1 ++ exchanges (active w1) done replies ++ tail
     /\ rcptEnding (active w1) o done (Recipients msg) tail)
  /\ send env cfg msg w0
     = match o with
       | Returned _ => afterRcpt env msg w2
       | Thrown e => (Thrown e, w2)
       | Pending => (Pending, w2)
       end.
Proof.
  intros Hfrom Hrcpts Hs Hr. rewrite <- recipientsOf_Recipients in *. split.
  - now apply rcptAll_trace in Hr as [_ H].
  - now apply send_from_rcpt with (w1 := w1).
Qed.

Lemma rcpt_in_order_first_refusal_aborts_witness :
  truthy (from Scenario.toThree) = true
  /\ Recipients Scenario.toThree <> []
  /\ session Scenario.env Scenario.plainClient Scenario.toThree
             (initialWorld Scenario.secondRefused)
     = (Returned tt, Scenario.afterMailFrom)
  /\ rcptAll (recipientsOf Scenario.toThree) Scenario.afterMailFrom
     = (Thrown (RcptFailed (lit "c@z") [lit "550 no such user"]), Scenario.afterRefusal)
  /\ ((exists done replies tail,
         length replies = length done
         /\ forallb accepted replies = true
         /\ trace Scenario.afterRefusal
            = trace Scenario.afterMailFrom
              ++ exchanges (active Scenario.afterMailFrom) done replies ++ tail
         /\ rcptEnding (active Scenario.afterMailFrom)
                       (Thrown (RcptFailed (lit "c@z") [lit "550 no such user"]))
                       done [lit "b@y"; lit "c@z"; lit "d@w"] tail)
      /\ send Scenario.env Scenario.plainClient Scenario.toThree
              (initialWorld Scenario.secondRefused)
         = (Thrown (RcptFailed (lit "c@z") [lit "550 no such user"]),
            Scenario.afterRefusal)).
Proof.
  assert (H1 : truthy (from Scenario.toThree) = true) by reflexivity.
  assert (H2 : Recipients Scenario.toThree <> []) by discriminate.
  assert (H3 : session Scenario.env Scenario.plainClient Scenario.toThree
                       (initialWorld Scenario.secondRefused)
               = (Returned tt, Scenario.afterMailFrom)) by (vm_compute; reflexivity).
  assert (H4 : rcptAll (recipientsOf Scenario.toThree) Scenario.afterMailFrom
               = (Thrown (RcptFailed (lit "c@z") [lit "550 no such user"]),
                  Scenario.afterRefusal)) by (vm_compute; reflexivity).
  exact (conj H1 (conj H2 (conj H3 (conj H4
           (rcpt_in_order_first_refusal_aborts _ _ _ _ _ _ _ H1 H2 H3 H4))))).
Defined.

(** The example of the specification: 550 for the second of three
    recipients.  Nothing is written after the second RCPT TO. *)
Example second_recipient_refused :
  written (snd (send Scenario.env Scenario.plainClient Scenario.toThree
                     (initialWorld Scenario.secondRefused)))
  = [lit "EHLO localhost" ++ CRLF; lit "MAIL FROM:<a@x>" ++ CRLF;
     lit "RCPT TO:<b@y>" ++ CRLF; lit "RCPT TO:<c@z>" ++ CRLF].
Proof. vm_compute. reflexivity. Qed.

(** The end-to-end scenario of the specification: the commands, in order
    (the document aside), and the outcome. *)
Example end_to_end_with_starttls :
  fst (send Scenario.env Scenario.authClient Scenario.toTwo
            (initialWorld Scenario.withStartTls))
  = Returned (mkResult true (lit "Enviado"))
  /\ firstn 8 (written (snd (send Scenario.env Scenario.authClient Scenario.toTwo
                                  (initialWorld Scenario.withStartTls))))
     = [lit "EHLO localhost" ++ CRLF; lit "STARTTLS" ++ CRLF;
        lit "EHLO localhost" ++ CRLF; lit "AUTH PLAIN AHVzZXIAcGFzcw==" ++ CRLF;
        lit "MAIL FROM:<a@x>" ++ CRLF; lit "RCPT TO:<b@y>" ++ CRLF;
        lit "RCPT TO:<c@z>" ++ CRLF; lit "DATA" ++ CRLF]
  /\ skipn 9 (written (snd (send Scenario.env Scenario.authClient Scenario.toTwo
                                 (initialWorld Scenario.withStartTls))))
     = [lit "QUIT" ++ CRLF]
  /\ closed (snd (send Scenario.env Scenario.authClient Scenario.toTwo
                       (initialWorld Scenario.withStartTls))) = true.
Proof. repeat split; vm_compute; reflexivity. Qed.

(** ** Recipients given as one string *)










(** ** Detaching a reader *)

Lemma nth_error_updateAt_other {A : Type} (f : A -> A) (l : list A) :
  forall i j : nat, i <> j -> nth_error (updateAt j f l) i = nth_error l i.
Proof.
  induction l as [|x l IH]; intros i j Hij; [now destruct j|].
  destruct j as [|j]; destruct i as [|i]; simpl; try reflexivity; try congruence.
  apply IH. congruence.
Qed.

Lemma without_subset (id x : nat) (ids : list nat) :
  In x (without id ids) -> In x ids.
Proof. unfold without. rewrite filter_In. tauto. Qed.

Lemma without_absent (id : nat) (ids : list nat) : ~ In id (without id ids).
Proof.
  unfold without. rewrite filter_In, Nat.eqb_refl. simpl. intros [_ H]. discriminate.
Qed.

Lemma deliverTo_other (chunk : bytes) (w : world) (id j : nat) :
  id <> j -> ~ In id (dataOriginal w) ->
  nth_error (waits (deliverTo chunk w j)) id = nth_error (waits w) id
  /\ ~ In id (dataOriginal (deliverTo chunk w j)).
Proof.
  intros Hij Hid. unfold deliverTo.
  destruct (nth_error (waits w) j) as [wt|]; [|auto].
  destruct (chunkDetaches chunk wt); cbn [socketOff withWaits waits dataOriginal];
    (split; [now apply nth_error_updateAt_other|]); auto.
  intros H. apply without_subset in H. auto.
Qed.

Lemma deliverTo_each (chunk : bytes) (id : nat) (ids : list nat) :
  forall w : world,
    ~ In id ids -> ~ In id (dataOriginal w) ->
    nth_error (waits (fold_left (deliverTo chunk) ids w)) id = nth_error (waits w) id
    /\ ~ In id (dataOriginal (fold_left (deliverTo chunk) ids w)).
Proof.
  induction ids as [|j ids IH]; intros w Hids Hid; [auto|].
  simpl in Hids. cbn [fold_left].
  destruct (deliverTo_other chunk w id j) as [E1 H1]; [intuition congruence|assumption|].
  destruct (IH (deliverTo chunk w j)) as [E2 H2]; [tauto|assumption|].
  split; [congruence|assumption].
Qed.

Lemma deliver_detached (chunk : bytes) (id : nat) (w : world) :
  rebound w = false -> ~ In id (dataOriginal w) ->
  nth_error (waits (deliver chunk w)) id = nth_error (waits w) id
  /\ ~ In id (dataOriginal (deliver chunk w))
  /\ rebound (deliver chunk w) = false.
Proof.
  intros Hr Hid. unfold deliver, active. rewrite Hr. cbn [listenersOf].
  destruct (deliverTo_each chunk id (dataOriginal w) w Hid Hid) as [E H].
  destruct (deliverAll_frame chunk (dataOriginal w) w) as (_ & Hr' & _).
  repeat split; auto. congruence.
Qed.

(** As long as the methods of the socket are its own, a reader that was
    removed hears nothing of the data that comes later: its buffer and the
    lines handed to its listener stay as they were. *)
Theorem removed_reader_hears_nothing (id : nat) (chunks : list bytes) (w : world) :
  rebound w = false ->
  nth_error (waits (deliverAll chunks (socketOff id w))) id = nth_error (waits w) id.
Proof.
  intros Hr.
  assert (H : forall w', rebound w' = false -> ~ In id (dataOriginal w') ->
              nth_error (waits (deliverAll chunks w')) id = nth_error (waits w') id).
  { induction chunks as [|chunk chunks IH]; intros w' Hr' Hid; [reflexivity|].
    destruct (deliver_detached chunk id w' Hr' Hid) as (E & Hid' & Hr'').
    cbn [deliverAll fold_left]. fold (deliverAll chunks (deliver chunk w')).
    rewrite IH; auto. }
  rewrite H; [reflexivity|exact Hr|].
  cbn [socketOff dataOriginal]. apply without_absent.
Qed.

Lemma removed_reader_hears_nothing_witness :
  rebound (snd (createWait (initialWorld []))) = false
  /\ nth_error (waits (deliverAll [Utf8.fromString (lit "250 later" ++ CRLF)]
                                  (socketOff 0 (snd (createWait (initialWorld []))))))
               0%nat
     = nth_error (waits (snd (createWait (initialWorld [])))) 0%nat.
Proof.
  split; [reflexivity|].
  exact (removed_reader_hears_nothing 0 [Utf8.fromString (lit "250 later" ++ CRLF)]
           (snd (createWait (initialWorld []))) eq_refl).
Defined.

(** C4 (the claim fails on the code after STARTTLS): [socket.on] is then
    the method of the TLS socket and [socket.off] still the one of the
    original socket, so [remove] takes the reader off an emitter it is not
    on.  A reader made and removed after the upgrade is still called with
    the next chunk and hands its line to its listener; in the end-to-end
    scenario, the wait for the EHLO reply after the upgrade (the fourth
    wait) has been handed the seven replies that came after its own. *)
Theorem remove_after_upgrade_keeps_listening :
  dataSecured
    (deliverAll [Utf8.fromString (lit "250 later" ++ CRLF)]
       (socketOff 0 (snd (createWait (mkWorld [] [] true [] [] [])))))
  = [0%nat]
  /\ map lines
       (waits (deliverAll [Utf8.fromString (lit "250 later" ++ CRLF)]
                 (socketOff 0 (snd (createWait (mkWorld [] [] true [] [] []))))))
     = [[lit "250 later"]]
  /\ option_map lines
       (nth_error (waits (snd (send Scenario.env Scenario.authClient Scenario.toTwo
                                    (initialWorld Scenario.withStartTls)))) 3)
     = Some [lit "250 AUTH PLAIN"; lit "235 ok"; lit "250 ok"; lit "250 ok";
             lit "250 ok"; lit "354 go on"; lit "250 queued"; lit "221 bye"].
Proof. repeat split; vm_compute; reflexivity. Qed.

End SessionFacts.

(** ** The document send writes *)

Module DocumentFacts.
Import DotStuffFacts.

Lemma matchEol_none_head (c : Z) (s : jsstring) :
  Re.matchEol (c :: s) = None -> (c =? LF) = false.
Proof.
  unfold Re.matchEol. destruct (Str.startsWith [CR; LF] (c :: s)); [discriminate|].
  cbn [Str.startsWith]. rewrite andb_true_r, (Z.eqb_sym LF c).
  now destruct (c =? LF).
Qed.

Lemma matchEol_some_head (c x : Z) (s : jsstring) (k : nat) :
  Re.matchEol (c :: s) = Some k -> (x =? CR) = false -> (x =? LF) = false ->
  (c =? x) = false.
Proof.
  unfold Re.matchEol. cbn [Str.startsWith]. intros H Hcr Hlf.
  destruct (CR =? c) eqn:E1.
  - apply Z.eqb_eq in E1. subst c. now rewrite Z.eqb_sym.
  - cbn [andb] in H. destruct (LF =? c) eqn:E2; [|discriminate].
    apply Z.eqb_eq in E2. subst c. now rewrite Z.eqb_sym.
Qed.

(** What [normalize] gives is a document of lines free of LF; a first
    character that is neither CR nor LF stays the first character. *)
Lemma normalize_fuel_document (n : nat) :
  forall s : jsstring,
    exists l0 ls,
      Str.replaceAllFuel Re.matchEol CRLF n s = document l0 ls
      /\ ((length s <= n)%nat -> noLF l0 = true /\ forallb noLF ls = true)
      /\ forall x, (x =? CR) = false -> (x =? LF) = false ->
                   headIs x s = true -> headIs x l0 = true.
Proof.
  induction n as [|n IH]; intros s.
  - exists s, []. unfold document. cbn [Str.replaceAllFuel flat_map].
    rewrite app_nil_r. repeat split; auto.
    destruct s; [reflexivity|simpl in H; lia].
  - cbn [Str.replaceAllFuel].
    destruct (Re.matchEol s) as [k|] eqn:E.
    + destruct (IH (skipn k s)) as (l0 & ls & Hd & Hlf & _).
      exists [], (l0 :: ls). rewrite Hd. split; [reflexivity|]. split.
      * intros H. split; [reflexivity|].
        apply matchEol_sound in E.
        destruct Hlf as [H0 Hls]; [rewrite length_skipn; lia|].
        simpl. now rewrite H0, Hls.
      * intros x Hcr Hl Hx. destruct s as [|c s]; [discriminate|].
        simpl in Hx. now rewrite (matchEol_some_head c x s k E Hcr Hl) in Hx.
    + destruct s as [|c s].
      * exists [], []. repeat split; auto.
      * destruct (IH s) as (l0 & ls & Hd & Hlf & _).
        exists (c :: l0), ls. rewrite Hd. split; [reflexivity|]. split.
        -- intros H. simpl in H. destruct Hlf as [H0 Hls]; [lia|].
           split; [|exact Hls].
           simpl. now rewrite (matchEol_none_head c s E), H0.
        -- intros x _ _ Hx. exact Hx.
Qed.

Lemma headIs_app (x : Z) (a b : jsstring) :
  headIs x a = true -> headIs x (a ++ b) = true.
Proof. now destruct a. Qed.

Lemma headIs_fold_app {A : Type} (x : Z) (g : A -> jsstring) (l : list A) :
  forall init, headIs x init = true ->
               headIs x (fold_left (fun acc a => acc ++ g a) l init) = true.
Proof.
  induction l as [|a l IH]; intros init H; [exact H|].
  simpl. apply IH. now apply headIs_app.
Qed.

(** The document of [buildMime] begins with the [From] header. *)
Lemma buildMime_head (env : Env) (msg : message) :
  headIs 70 (Mime.buildMime env msg) = true.
Proof.
  unfold Mime.buildMime.
  destruct (attachments msg) as [|att atts].
  - reflexivity.
  - apply headIs_app, headIs_fold_app. reflexivity.
Qed.

(** In [send] every line of the document that begins with a dot gets its
    second dot: the document, once normalized, is lines free of LF joined by
    CRLF, its first line begins with the F of [From], and what is written
    is those lines with [stuffLine] applied to each. *)
Theorem send_document_stuffed (env : Env) (msg : message) :
  exists l0 ls,
    normalize (Mime.buildMime env msg) = Str.join CRLF (l0 :: ls)
    /\ forallb noLF (l0 :: ls) = true
    /\ dotStuff (normalize (Mime.buildMime env msg))
       = Str.join CRLF (map stuffLine (l0 :: ls)).
Proof.
  unfold normalize, Str.replaceAll.
  destruct (normalize_fuel_document (length (Mime.buildMime env msg))
                                    (Mime.buildMime env msg))
    as (l0 & ls & Hd & Hlf & Hhead).
  destruct (Hlf (le_n _)) as [H0 Hls].
  specialize (Hhead 70 eq_refl eq_refl (buildMime_head env msg)).
  exists l0, ls. rewrite Hd, join_document. repeat split.
  - simpl. now rewrite H0, Hls.
  - rewrite dotStuff_document by assumption.
    cbn [map]. rewrite join_document.
    destruct l0 as [|y l0]; [discriminate|].
    simpl in Hhead. apply Z.eqb_eq in Hhead. subst y. reflexivity.
Qed.



End DocumentFacts.

(** ** readResponse on a fresh socket *)

Module ReadFacts.
Import WaitFacts.

Lemma waitOnData_settled_start (chunk : bytes) (w : wait) :
  settled (waitOnData chunk w)
  = settled (onLines (fst (LineReader.onData (buffer w) chunk)) w).
Proof.
  unfold waitOnData. destruct (LineReader.onData (buffer w) chunk) as [emitted rest].
  cbn [fst]. revert w.
  assert (H : forall (ls : list jsstring) (a b : wait),
             settled a = settled b -> settled (onLines ls a) = settled (onLines ls b)).
  { induction ls as [|l ls IH]; intros a b Hab; [exact Hab|].
    change (onLines (l :: ls) a) with (onLines ls (onLine l a)).
    change (onLines (l :: ls) b) with (onLines ls (onLine l b)).
    apply IH. unfold onLine, settle.
    destruct (Re.matchReply l) as [[[digits sep] r]|]; [|exact Hab].
    destruct (sep =? SP); [|exact Hab].
    cbn [settled]. rewrite Hab. now destruct (settled b). }
  intros w. now apply H.
Qed.

Lemma onLines_terminal_resolves (ls : list jsstring) (w : wait) :
  existsb terminal ls = true -> settled w = Unsettled ->
  exists c, settled (onLines ls w) = Resolved c.
Proof.
  revert w; induction ls as [|l ls IH]; intros w H Hw; [discriminate|].
  change (onLines (l :: ls) w) with (onLines ls (onLine l w)).
  simpl in H. destruct (terminal l) eqn:El.
  - exists (numericPrefix l).
    rewrite onLines_settled; rewrite (onLine_terminal l w El Hw);
      [reflexivity|discriminate].
  - apply IH; [exact H|]. now rewrite onLine_not_terminal.
Qed.

Lemma waitOnData_unsettled (chunk : bytes) (w : wait) :
  settled w = Unsettled ->
  (settled (waitOnData chunk w) = Unsettled /\ chunkDetaches chunk w = false)
  \/ exists c, settled (waitOnData chunk w) = Resolved c.
Proof.
  intros Hw. rewrite waitOnData_settled_start. unfold chunkDetaches, detaches.
  destruct (existsb terminal (fst (LineReader.onData (buffer w) chunk))) eqn:E.
  - right. now apply onLines_terminal_resolves.
  - left. split; [|reflexivity]. now rewrite onLines_no_terminal.
Qed.

Lemma awaitLoop_alone (chunks : list bytes) :
  forall (w : wait) (evs : list event) (t : list io),
    settled w = Unsettled ->
    fst (awaitLoop 0 (map Data chunks) (mkWorld evs t false [w] [0%nat] []))
    = awaitAlone w chunks.
Proof.
  induction chunks as [|chunk chunks IH]; intros w evs t Hw; [reflexivity|].
  cbn [map awaitLoop awaitAlone].
  unfold deliver, active. cbn [rebound listenersOf dataOriginal fold_left].
  unfold deliverTo. cbn [waits nth_error updateAt withWaits].
  destruct (waitOnData_unsettled chunk w Hw) as [[Hs Hd]|[c Hs]].
  - rewrite Hd, Hs.
    cbn [waits nth_error].
    destruct (waitOnData chunk w) as [b ls cd st] eqn:E. cbn [settled] in Hs. subst st.
    apply IH. reflexivity.
  - rewrite Hs.
    destruct (chunkDetaches chunk w); cbn [socketOff waits nth_error];
      destruct (waitOnData chunk w) as [b ls cd st] eqn:E; cbn [settled] in Hs; subst st;
      reflexivity.
Qed.

(** On a fresh socket, [readResponse] is its listener alone: chunk after
    chunk through the reader and [onLine], until the promise is resolved. *)
Theorem readResponse_alone (chunks : list bytes) :
  fst (readResponse (initialWorld (map Data chunks))) = awaitAlone newWait chunks.
Proof.
  unfold readResponse, createWait, initialWorld.
  cbn [waits length app withWaits socketOn active rebound inbox trace
       dataOriginal dataSecured].
  now apply awaitLoop_alone.
Qed.

Lemma onLine_withBuffer (b : jsstring) (l : jsstring) (w : wait) :
  onLine l (withBuffer b w) = withBuffer b (onLine l w).
Proof.
  unfold onLine, settle, withBuffer. cbn [buffer lines code settled].
  destruct (Re.matchReply l) as [[[digits sep] r]|]; [|reflexivity].
  destruct (sep =? SP); [|reflexivity].
  cbn [settled]. now destruct (settled w).
Qed.

Lemma onLines_withBuffer (b : jsstring) (ls : list jsstring) (w : wait) :
  onLines ls (withBuffer b w) = withBuffer b (onLines ls w).
Proof.
  revert w; induction ls as [|l ls IH]; intros w; [reflexivity|].
  change (onLines (l :: ls) (withBuffer b w))
    with (onLines ls (onLine l (withBuffer b w))).
  now rewrite onLine_withBuffer, IH.
Qed.

Lemma waitOnData_onLines (chunk : bytes) (w : wait) :
  waitOnData chunk w
  = withBuffer (snd (LineReader.onData (buffer w) chunk))
               (onLines (fst (LineReader.onData (buffer w) chunk)) w).
Proof.
  unfold waitOnData.
  destruct (LineReader.onData (buffer w) chunk) as [emitted rest].
  apply (onLines_withBuffer rest emitted w).
Qed.

(** A wait after some chunks: its listener has been handed the lines the
    reader emits for them, in order, and the buffer is the reader's. *)
Lemma waitAfter_feed (chunks : list bytes) :
  forall w : wait,
    waitAfter w chunks
    = withBuffer (snd (LineReader.feed (buffer w) chunks))
                 (onLines (fst (LineReader.feed (buffer w) chunks)) w).
Proof.
  induction chunks as [|chunk chunks IH]; intros w.
  - now destruct w.
  - change (waitAfter w (chunk :: chunks)) with (waitAfter (waitOnData chunk w) chunks).
    rewrite IH, waitOnData_onLines. cbn [LineReader.feed withBuffer buffer].
    destruct (LineReader.onData (buffer w) chunk) as [e r]. cbn [fst snd].
    destruct (LineReader.feed r chunks) as [e' b']. cbn [fst snd].
    fold (withBuffer r (onLines e w)).
    rewrite onLines_withBuffer, onLines_app. reflexivity.
Qed.

Lemma waitAfter_settled (chunks : list bytes) :
  settled (waitAfter newWait chunks)
  = settled (onLines (fst (LineReader.feed [] chunks)) newWait).
Proof. now rewrite waitAfter_feed. Qed.

Lemma waitAfter_lines (chunks : list bytes) :
  lines (waitAfter newWait chunks) = fst (LineReader.feed [] chunks).
Proof. rewrite waitAfter_feed. cbn [withBuffer lines buffer newWait]. apply onLines_lines. Qed.

(** What [awaitAlone] answers, by the chunk that resolves the promise. *)
Lemma awaitAlone_spec (chunks : list bytes) :
  forall w : wait,
    settled w = Unsettled ->
    match awaitAlone w chunks with
    | Returned resp =>
        exists k : nat,
          (k < length chunks)%nat
          /\ settled (waitAfter w (firstn k chunks)) = Unsettled
          /\ settled (waitAfter w (firstn (S k) chunks)) = Resolved (respCode resp)
          /\ lines (waitAfter w (firstn (S k) chunks)) = respLines resp
    | Thrown _ => False
    | Pending => settled (waitAfter w chunks) = Unsettled
    end.
Proof.
  induction chunks as [|chunk chunks IH]; intros w Hw; [exact Hw|].
  cbn [awaitAlone].
  destruct (waitOnData_unsettled chunk w Hw) as [[Hs _]|[c Hs]]; rewrite Hs.
  - specialize (IH (waitOnData chunk w) Hs).
    change (waitAfter w (chunk :: chunks)) with (waitAfter (waitOnData chunk w) chunks).
    destruct (awaitAlone (waitOnData chunk w) chunks) as [resp|e|]; auto.
    destruct IH as (k & Hk & H0 & H1 & H2).
    exists (S k). cbn [length firstn]. repeat split; auto. lia.
  - exists 0%nat. cbn [length firstn]. repeat split; auto. lia.
Qed.

Lemma first_terminal (ls : list jsstring) :
  existsb terminal ls = true ->
  exists pre t post,
    ls = pre ++ t :: post /\ existsb terminal pre = false /\ terminal t = true.
Proof.
  induction ls as [|l ls IH]; intros H; [discriminate|].
  simpl in H. destruct (terminal l) eqn:El.
  - now exists [], l, ls.
  - destruct (IH H) as (pre & t & post & -> & Hpre & Ht).
    exists (l :: pre), t, post. repeat split; auto. simpl. now rewrite El.
Qed.

Lemma resolved_has_terminal (ls : list jsstring) (c : Z) :
  settled (onLines ls newWait) = Resolved c -> existsb terminal ls = true.
Proof.
  intros H. destruct (existsb terminal ls) eqn:E; [reflexivity|].
  rewrite onLines_no_terminal in H by exact E. discriminate.
Qed.

Lemma unsettled_has_no_terminal (ls : list jsstring) :
  settled (onLines ls newWait) = Unsettled -> existsb terminal ls = false.
Proof.
  intros H. destruct (existsb terminal ls) eqn:E; [|reflexivity].
  destruct (onLines_terminal_resolves ls newWait E eq_refl) as [c Hc]. congruence.
Qed.

(** What does hold of one response.  The listener of a wait leaves the
    promise unsettled as long as no line it was handed is terminal (well
    formed, with a space after the code); the first terminal line [t]
    resolves it, to the code the three digits of [t] spell and to the array
    of all the lines handed over, in the order they came, those after [t]
    too.  On a fresh socket that is what [readResponse] answers: it stays
    pending while the chunks have given no terminal line, and it returns
    with the chunk that brings the first one. *)
Theorem response_resolves_on_first_terminal_line :
  (forall (pre post : list jsstring) (t : jsstring),
      existsb terminal pre = false ->
      terminal t = true ->
      settled (onLines pre newWait) = Unsettled
      /\ settled (onLines (pre ++ [t]) newWait) = Resolved (numericPrefix t)
      /\ lines (onLines (pre ++ [t]) newWait) = pre ++ [t]
      /\ settled (onLines (pre ++ t :: post) newWait) = Resolved (numericPrefix t)
      /\ lines (onLines (pre ++ t :: post) newWait) = pre ++ t :: post)
  /\ (forall chunks : list bytes,
        match fst (readResponse (initialWorld (map Data chunks))) with
        | Returned resp =>
            exists (k : nat) (pre post : list jsstring) (t : jsstring),
              (k < length chunks)%nat
              /\ existsb terminal (fst (LineReader.feed [] (firstn k chunks))) = false
              /\ fst (LineReader.feed [] (firstn (S k) chunks)) = pre ++ t :: post
              /\ existsb terminal pre = false
              /\ terminal t = true
              /\ respCode resp = numericPrefix t
              /\ respLines resp = pre ++ t :: post
        | Thrown _ => False
        | Pending => existsb terminal (fst (LineReader.feed [] chunks)) = false
        end).
Proof.
  split; [exact wait_resolves_on_first_terminal_line|].
  intros chunks. rewrite readResponse_alone.
  pose proof (awaitAlone_spec chunks newWait eq_refl) as H.
  destruct (awaitAlone newWait chunks) as [resp|e|]; [|exact H|].
  - destruct H as (k & Hk & H0 & H1 & H2).
    rewrite waitAfter_settled in H0, H1. rewrite waitAfter_lines in H2.
    destruct (first_terminal _ (resolved_has_terminal _ _ H1))
      as (pre & t & post & E & Hpre & Ht).
    exists k, pre, post, t. repeat split; auto.
    + now apply unsettled_has_no_terminal.
    + rewrite E in H1.
      destruct (wait_resolves_on_first_terminal_line pre post t Hpre Ht)
        as (_ & _ & _ & H3 & _).
      congruence.
    + congruence.
  - rewrite waitAfter_settled in H. now apply unsettled_has_no_terminal.
Qed.

Lemma response_resolves_on_first_terminal_line_witness :
  existsb terminal [lit "250-first"; lit "250-second"] = false
  /\ terminal (lit "250 third") = true
  /\ (settled (onLines [lit "250-first"; lit "250-second"] newWait) = Unsettled
      /\ settled (onLines [lit "250-first"; lit "250-second"; lit "250 third"] newWait)
         = Resolved 250
      /\ lines (onLines [lit "250-first"; lit "250-second"; lit "250 third"] newWait)
         = [lit "250-first"; lit "250-second"; lit "250 third"]
      /\ settled (onLines [lit "250-first"; lit "250-second"; lit "250 third"] newWait)
         = Resolved 250
      /\ lines (onLines [lit "250-first"; lit "250-second"; lit "250 third"] newWait)
         = [lit "250-first"; lit "250-second"; lit "250 third"]).
Proof.
  split; [reflexivity|]. split; [reflexivity|].
  exact (proj1 response_resolves_on_first_terminal_line
               [lit "250-first"; lit "250-second"] [] (lit "250 third") eq_refl eq_refl).
Defined.

(** The example of the specification, one line per chunk: with the first
    two lines only the wait stays pending; the third resolves it. *)
Example three_line_reply_over_socket :
  fst (readResponse (initialWorld [Scenario.serverLine "250-first";
                                   Scenario.serverLine "250-second"]))
  = Pending
  /\ fst (readResponse (initialWorld [Scenario.serverLine "250-first";
                                      Scenario.serverLine "250-second";
                                      Scenario.serverLine "250 third"]))
     = Returned (mkResponse 250 [lit "250-first"; lit "250-second"; lit "250 third"]).
Proof. split; vm_compute; reflexivity. Qed.

(** C6 (the claim fails on the code): the terminal line is not always the
    last line consumed.  [onLine] calls [reader.remove()] and resolves on
    the terminal line, but the loop of [onData] goes on through the chunk
    it is in, and the array [lines] of the resolved value is the one the
    listener still pushes to.  With [220 ready] and [250 early] in one
    chunk the response has the code 220 and both lines: its last line
    spells 250, a line of the next reply is in it, and the next wait never
    sees that line. *)
Theorem response_takes_in_later_lines :
  fst (readResponse (initialWorld [Scenario.serverLines "220 ready" "250 early"]))
  = Returned (mkResponse 220 [lit "220 ready"; lit "250 early"])
  /\ terminal (lit "220 ready") = true
  /\ numericPrefix (lit "250 early") = 250
  /\ fst ((readResponse ;; readResponse)
            (initialWorld [Scenario.serverLines "220 ready" "250 early"]))
     = Pending.
Proof. repeat split; vm_compute; reflexivity. Qed.

End ReadFacts.

(** ** One command at a time *)

Module LockstepFacts.
Import SessionFacts.

Lemma lockstep_app (t1 t2 : list io) (a : bool) :
  lockstep a (t1 ++ t2)
  = match lockstep a t1 with
    | Some b => lockstep b t2
    | None => None
    end.
Proof.
  revert a; induction t1 as [|e t1 IH]; intros a; [reflexivity|].
  destruct e; cbn [app lockstep]; try apply IH.
  destruct a; [reflexivity|apply IH].
Qed.

Lemma steps_ret {A : Type} (a : bool) (x : A) : steps a a (ret x).
Proof. intros w o w' Hw [= <- <-]. exact Hw. Qed.

Lemma steps_throw {A : Type} (a b : bool) (e : error) : steps a b (@throw A e).
Proof. intros w o w' Hw [= <- <-]. rewrite Hw. discriminate. Qed.

Lemma steps_unless (a : bool) (ok : bool) (e : error) : steps a a (unless ok e).
Proof. destruct ok; [apply steps_ret|apply steps_throw]. Qed.

Lemma steps_bind {A B : Type} (a b c : bool) (m : M A) (k : A -> M B) :
  steps a b m -> (forall x, steps b c (k x)) -> steps a c (bind m k).
Proof.
  intros Hm Hk w o w' Hw H. unfold bind in H.
  destruct (m w) as [[x|e|] w1] eqn:E; pose proof (Hm _ _ _ Hw E) as H1.
  - exact (Hk x _ _ _ H1 H).
  - injection H as <- <-. exact H1.
  - injection H as <- <-. exact H1.
Qed.

Lemma steps_write (data : jsstring) : steps false true (write data).
Proof.
  intros w o w' Hw [= <- <-]. cbn [logged trace].
  rewrite lockstep_app, Hw. reflexivity.
Qed.

Lemma steps_silent {A : Type} (a : bool) (m : M A) (e : io) :
  (forall w, exists x, m w = (Returned x, logged e w)) ->
  match e with Wrote _ _ | Received _ _ => False | _ => True end ->
  steps a a m.
Proof.
  intros Hm He w o w' Hw H. destruct (Hm w) as [x Hx]. rewrite Hx in H.
  injection H as <- <-. cbn [logged trace]. rewrite lockstep_app, Hw.
  destruct e; cbn; tauto.
Qed.

Lemma steps_connect (a : bool) (cfg : config) : steps a a (connect cfg).
Proof.
  apply steps_silent with (e := Connected (secure cfg) (port cfg) (host cfg)); [|exact I].
  intros w. now exists tt.
Qed.

Lemma steps_socketEnd (a : bool) : steps a a socketEnd.
Proof.
  apply steps_silent with (e := Ended); [|exact I]. intros w. now exists tt.
Qed.

(** The reply to a command, and a line of the server that answers nothing
    (the banner). *)
Lemma steps_readResponse (a : bool) : steps a false readResponse.
Proof.
  intros w o w' Hw H. apply readResponse_trace in H as [Ht _].
  rewrite Ht, lockstep_app, Hw. destruct o; cbn; congruence.
Qed.

Lemma steps_upgrade (a : bool) : steps a a upgrade.
Proof.
  intros w o w' Hw H. apply upgrade_trace in H as [Ht _].
  rewrite Ht, lockstep_app, Hw. destruct o; cbn; congruence.
Qed.

Ltac lockstep_steps :=
  repeat first
    [ apply steps_ret
    | apply steps_unless
    | apply steps_throw
    | apply steps_write
    | apply steps_readResponse
    | apply steps_upgrade
    | apply steps_connect
    | apply steps_socketEnd
    | match goal with H : _ |- _ => apply H end
    | eapply steps_bind; [|intros ?]
    | match goal with |- steps _ _ (if ?b then _ else _) => destruct b end ].

Lemma steps_banner : steps false false banner.
Proof. unfold banner. lockstep_steps. Qed.

Lemma steps_greet (cfg : config) : steps false false (greet cfg).
Proof. unfold greet. lockstep_steps. Qed.

Lemma steps_startTls (env : Env) (cfg : config) (resp : response) :
  steps false false (startTls env cfg resp).
Proof. unfold startTls. lockstep_steps. Qed.

Lemma steps_authenticate (cfg : config) (resp : response) :
  steps false false (authenticate cfg resp).
Proof. unfold authenticate, authPlain, authLogin. lockstep_steps. Qed.

Lemma steps_mailFrom (msg : message) : steps false false (mailFrom msg).
Proof. unfold mailFrom. lockstep_steps. Qed.

Lemma steps_rcptAll (recipients : list jsstring) : steps false false (rcptAll recipients).
Proof.
  induction recipients as [|rcpt rest IH]; cbn [rcptAll]; lockstep_steps.
Qed.

Lemma steps_dataCommand : steps false false dataCommand.
Proof. unfold dataCommand. lockstep_steps. Qed.

Lemma steps_sendBody (env : Env) (msg : message) : steps false false (sendBody env msg).
Proof. unfold sendBody. lockstep_steps. Qed.

Lemma steps_quit : steps false false quit.
Proof. unfold quit. lockstep_steps. Qed.

Lemma steps_send (env : Env) (cfg : config) (msg : message) :
  steps false false (send env cfg msg).
Proof.
  unfold send, session.
  pose proof steps_banner. pose proof (steps_greet cfg).
  pose proof (steps_startTls env cfg). pose proof (steps_authenticate cfg).
  pose proof (steps_mailFrom msg). pose proof (steps_rcptAll (recipientsOf msg)).
  pose proof steps_dataCommand. pose proof (steps_sendBody env msg).
  pose proof steps_quit.
  lockstep_steps.
Qed.

(** Nothing is pipelined: along any run of [send], no command is written
    while the reply to the command before it has not resolved its wait. *)
Theorem send_never_pipelines
        (env : Env) (cfg : config) (msg : message) (events : list event) :
  lockstep false (trace (snd (send env cfg msg (initialWorld events)))) <> None.
Proof.
  destruct (send env cfg msg (initialWorld events)) as [o w'] eqn:E.
  pose proof (steps_send env cfg msg (initialWorld events) o w' eq_refl E) as H.
  cbn [snd]. destruct o; congruence.
Qed.

End LockstepFacts.

(** ** Which socket the commands go through *)

Module PathFacts.
Import SessionFacts.

Lemma triple_bind {A B : Type} (P R : world -> Prop) (Q : outcome B -> world -> Prop)
      (m : M A) (k : A -> M B) :
  triple P m (fun _ w => R w) ->
  (forall w e, R w -> Q (Thrown e) w) ->
  (forall w, R w -> Q Pending w) ->
  (forall x, triple R (k x) Q) ->
  triple P (bind m k) Q.
Proof.
  intros Hm He Hp Hk w o w' Hw H. unfold bind in H.
  destruct (m w) as [[x|e|] w1] eqn:E; pose proof (Hm _ _ _ Hw E) as H1.
  - exact (Hk x _ _ _ H1 H).
  - injection H as <- <-. now apply He.
  - injection H as <- <-. now apply Hp.
Qed.

Lemma keeps_bind {A B : Type} (P : world -> Prop) (m : M A) (k : A -> M B) :
  keeps P m -> (forall x, keeps P (k x)) -> keeps P (bind m k).
Proof. intros Hm Hk. apply triple_bind with (R := P); auto. Qed.

Lemma keeps_ret {A : Type} (P : world -> Prop) (x : A) : keeps P (ret x).
Proof. intros w o w' Hw [= <- <-]. exact Hw. Qed.

Lemma keeps_throw {A : Type} (P : world -> Prop) (e : error) : keeps P (@throw A e).
Proof. intros w o w' Hw [= <- <-]. exact Hw. Qed.

Lemma keeps_unless (P : world -> Prop) (ok : bool) (e : error) : keeps P (unless ok e).
Proof. destruct ok; [apply keeps_ret|apply keeps_throw]. Qed.

(** The steps of [send] that are made of commands, replies and checks keep
    whatever the primitives keep. *)
Section Steps.

Variable P : world -> Prop.
Hypothesis keeps_write : forall data, keeps P (write data).
Hypothesis keeps_readResponse : keeps P readResponse.

Ltac keeps_steps :=
  repeat first
    [ apply keeps_ret
    | apply keeps_unless
    | apply keeps_throw
    | apply keeps_write
    | apply keeps_readResponse
    | match goal with H : _ |- _ => apply H end
    | apply keeps_bind; [|intros ?]
    | match goal with |- keeps _ (if ?b then _ else _) => destruct b end ].

Lemma keeps_banner : keeps P banner.
Proof. unfold banner. keeps_steps. Qed.

Lemma keeps_greet (cfg : config) : keeps P (greet cfg).
Proof. unfold greet. keeps_steps. Qed.

Lemma keeps_authenticate (cfg : config) (resp : response) :
  keeps P (authenticate cfg resp).
Proof. unfold authenticate, authPlain, authLogin. keeps_steps. Qed.

Lemma keeps_mailFrom (msg : message) : keeps P (mailFrom msg).
Proof. unfold mailFrom. keeps_steps. Qed.

Lemma keeps_rcptAll (recipients : list jsstring) : keeps P (rcptAll recipients).
Proof.
  induction recipients as [|rcpt rest IH]; cbn [rcptAll]; keeps_steps.
Qed.

Lemma keeps_dataCommand : keeps P dataCommand.
Proof. unfold dataCommand. keeps_steps. Qed.

Lemma keeps_sendBody (env : Env) (msg : message) : keeps P (sendBody env msg).
Proof. unfold sendBody. keeps_steps. Qed.

Lemma keeps_quit : keeps P quit.
Proof. unfold quit. keeps_steps. Qed.

End Steps.

Lemma allVia_app (e : emitter) (t1 t2 : list io) :
  allVia e (t1 ++ t2) = allVia e t1 && allVia e t2.
Proof. apply forallb_app. Qed.

Lemma plainOnly_onePath (w : world) : plainOnly w -> onePath w.
Proof. intros [Hr Ht]. unfold onePath. now rewrite Hr. Qed.

(** Logging an event that fits the socket in use. *)
Lemma plainOnly_logged (e : io) (w : world) :
  fitsPath Original e = true -> plainOnly w -> plainOnly (logged e w).
Proof.
  intros He [Hr Ht]. split; [exact Hr|].
  cbn [logged trace]. rewrite allVia_app, Ht. cbn. now rewrite He.
Qed.

Lemma onePath_grows (w w' : world) (t : list io) :
  rebound w' = rebound w -> trace w' = trace w ++ t ->
  allVia (active w) t = true -> onePath w -> onePath w'.
Proof.
  unfold onePath, active. intros Hr Ht Hv. rewrite Hr.
  destruct (rebound w).
  - intros (t1 & t2 & E & H1 & H2). exists t1, (t2 ++ t). repeat split; auto.
    + rewrite Ht, E, <- app_assoc. reflexivity.
    + now rewrite allVia_app, H2, Hv.
  - intros H. now rewrite Ht, allVia_app, H, Hv.
Qed.

Lemma plainOnly_grows (w w' : world) (t : list io) :
  rebound w' = rebound w -> trace w' = trace w ++ t ->
  allVia Original t = true -> plainOnly w -> plainOnly w'.
Proof.
  intros Hr Ht Hv [H1 H2]. split; [congruence|].
  now rewrite Ht, allVia_app, H2, Hv.
Qed.

Lemma received_fits (e : emitter) (o : outcome response) :
  allVia e (received o) = true.
Proof. now destruct o. Qed.

Lemma sameEmitter_refl (e : emitter) : sameEmitter e e = true.
Proof. now destruct e. Qed.

Lemma onePath_write (data : jsstring) : keeps onePath (write data).
Proof.
  intros w o w' Hw [= <- <-].
  apply (onePath_grows w _ [Wrote (active w) data]); auto.
  cbn. now rewrite sameEmitter_refl.
Qed.

Lemma onePath_readResponse : keeps onePath readResponse.
Proof.
  intros w o w' Hw H. apply readResponse_trace in H as [Ht Hr].
  apply (onePath_grows w _ (received o)); auto using received_fits.
Qed.

Lemma plainOnly_write (data : jsstring) : keeps plainOnly (write data).
Proof.
  intros w o w' Hw [= <- <-].
  apply (plainOnly_grows w _ [Wrote (active w) data]); auto.
  destruct Hw as [Hr _]. unfold active. now rewrite Hr.
Qed.

Lemma plainOnly_readResponse : keeps plainOnly readResponse.
Proof.
  intros w o w' Hw H. apply readResponse_trace in H as [Ht Hr].
  apply (plainOnly_grows w _ (received o)); auto using received_fits.
Qed.

Lemma plainOnly_connect (cfg : config) : keeps plainOnly (connect cfg).
Proof. intros w o w' Hw [= <- <-]. now apply plainOnly_logged. Qed.

Lemma onePath_socketEnd : keeps onePath socketEnd.
Proof.
  intros w o w' Hw [= <- <-]. now apply (onePath_grows w _ [Ended]).
Qed.

Lemma plainOnly_socketEnd : keeps plainOnly socketEnd.
Proof. intros w o w' Hw [= <- <-]. now apply plainOnly_logged. Qed.

(** The upgrade takes a world that used the original socket only to one
    that is on the TLS socket from here on. *)
Lemma upgrade_onePath : triple plainOnly upgrade (fun _ w => onePath w).
Proof.
  intros w o w' [Hr Hv] H. apply upgrade_trace in H as [Ht Hr'].
  unfold onePath. rewrite Hr'. exists (trace w), []. auto.
Qed.

Lemma plain_then {A B : Type} (m : M A) (k : A -> M B) :
  keeps plainOnly m ->
  (forall x, triple plainOnly (k x) (fun _ w => onePath w)) ->
  triple plainOnly (bind m k) (fun _ w => onePath w).
Proof.
  intros Hm Hk. apply triple_bind with (R := plainOnly); auto using plainOnly_onePath.
Qed.

Lemma switch_then {A B : Type} (m : M A) (k : A -> M B) :
  triple plainOnly m (fun _ w => onePath w) ->
  (forall x, keeps onePath (k x)) ->
  triple plainOnly (bind m k) (fun _ w => onePath w).
Proof.
  intros Hm Hk. apply triple_bind with (R := onePath); auto.
Qed.

Lemma startTls_onePath (env : Env) (cfg : config) (resp : response) :
  triple plainOnly (startTls env cfg resp) (fun _ w => onePath w).
Proof.
  unfold startTls.
  destruct (negb (secure cfg) && supportsStartTLS env resp).
  - apply plain_then; [apply plainOnly_write|intros ?].
    apply plain_then; [apply plainOnly_readResponse|intros ?].
    apply plain_then; [apply keeps_unless|intros ?].
    apply switch_then; [apply upgrade_onePath|intros ?].
    repeat first
      [ apply onePath_write | apply onePath_readResponse | apply keeps_unless
      | apply keeps_ret | apply keeps_bind; [|intros ?] ].
  - intros w o w' Hw [= <- <-]. now apply plainOnly_onePath.
Qed.

Lemma send_onePath (env : Env) (cfg : config) (msg : message) :
  triple plainOnly (send env cfg msg) (fun _ w => onePath w).
Proof.
  unfold send, session. cbv zeta.
  apply plain_then; [apply keeps_unless|intros ?].
  apply plain_then; [apply keeps_unless|intros ?].
  apply switch_then.
  - apply plain_then; [apply plainOnly_connect|intros ?].
    apply plain_then;
      [apply keeps_banner; auto using plainOnly_write, plainOnly_readResponse|intros ?].
    apply plain_then;
      [apply keeps_greet; auto using plainOnly_write, plainOnly_readResponse|intros ?].
    apply switch_then; [apply startTls_onePath|intros ?].
    apply keeps_bind; [|intros ?].
    + apply keeps_authenticate; auto using onePath_write, onePath_readResponse.
    + apply keeps_mailFrom; auto using onePath_write, onePath_readResponse.
  - intros ?. cbv beta.
    repeat (apply keeps_bind; [|intros ?]);
      first [ apply keeps_rcptAll | apply onePath_write | apply onePath_readResponse
            | apply keeps_unless | apply onePath_socketEnd | apply keeps_ret ];
      auto using onePath_write, onePath_readResponse.
Qed.

Lemma keeps_startTls_secure (env : Env) (cfg : config) (resp : response) :
  secure cfg = true -> keeps plainOnly (startTls env cfg resp).
Proof. intros Hs. unfold startTls. rewrite Hs. apply keeps_ret. Qed.

Lemma send_plainOnly (env : Env) (cfg : config) (msg : message) :
  secure cfg = true -> keeps plainOnly (send env cfg msg).
Proof.
  intros Hs. unfold send. cbv zeta.
  apply keeps_bind; [apply keeps_unless|intros ?].
  apply keeps_bind; [apply keeps_unless|intros ?].
  apply keeps_bind; [|intros ?].
  - unfold session.
    apply keeps_bind; [apply plainOnly_connect|intros ?].
    apply keeps_bind;
      [apply keeps_banner; auto using plainOnly_write, plainOnly_readResponse|intros ?].
    apply keeps_bind;
      [apply keeps_greet; auto using plainOnly_write, plainOnly_readResponse|intros ?].
    apply keeps_bind; [apply (keeps_startTls_secure _ _ _ Hs)|intros ?].
    apply keeps_bind; [|intros ?].
    + apply keeps_authenticate; auto using plainOnly_write, plainOnly_readResponse.
    + apply keeps_mailFrom; auto using plainOnly_write, plainOnly_readResponse.
  - repeat (apply keeps_bind; [|intros ?]);
      first [ apply keeps_rcptAll | apply plainOnly_write | apply plainOnly_readResponse
            | apply keeps_unless | apply plainOnly_socketEnd | apply keeps_ret ];
      auto using plainOnly_write, plainOnly_readResponse.
Qed.

(** Along any run of [send] the socket is upgraded at most once; what is
    written before the upgrade goes through the original socket, and what
    is written after it through the TLS socket. *)
Theorem send_writes_follow_the_upgrade
        (env : Env) (cfg : config) (msg : message) (events : list event) :
  allVia Original (trace (snd (send env cfg msg (initialWorld events)))) = true
  \/ exists t1 t2,
       trace (snd (send env cfg msg (initialWorld events))) = t1 ++ Upgraded :: t2
       /\ allVia Original t1 = true /\ allVia Secured t2 = true.
Proof.
  destruct (send env cfg msg (initialWorld events)) as [o w'] eqn:E.
  assert (H0 : plainOnly (initialWorld events)) by (split; reflexivity).
  pose proof (send_onePath env cfg msg _ _ _ H0 E) as H.
  cbn [snd]. unfold onePath in H. destruct (rebound w'); auto.
Qed.

(** With implicit TLS ([secure]) the socket [send] opened is the only one
    it ever uses: it is never upgraded, whatever the server advertises. *)
Theorem implicit_tls_never_upgrades
        (env : Env) (cfg : config) (msg : message) (events : list event) :
  secure cfg = true ->
  allVia Original (trace (snd (send env cfg msg (initialWorld events)))) = true
  /\ rebound (snd (send env cfg msg (initialWorld events))) = false.
Proof.
  intros Hs.
  destruct (send env cfg msg (initialWorld events)) as [o w'] eqn:E.
  assert (H0 : plainOnly (initialWorld events)) by (split; reflexivity).
  destruct (send_plainOnly env cfg msg Hs _ _ _ H0 E) as [Hr Hv]. auto.
Qed.

Lemma implicit_tls_never_upgrades_witness :
  secure Cases.tlsClient = true
  /\ (allVia Original
        (trace (snd (send Scenario.env Cases.tlsClient Scenario.toTwo
                          (initialWorld Cases.offersStartTls)))) = true
      /\ rebound (snd (send Scenario.env Cases.tlsClient Scenario.toTwo
                            (initialWorld Cases.offersStartTls))) = false).
Proof.
  split; [reflexivity|].
  exact (implicit_tls_never_upgrades Scenario.env Cases.tlsClient Scenario.toTwo
           Cases.offersStartTls eq_refl).
Defined.

End PathFacts.

(** ** What a protocol error reports *)

Module ErrorFacts.
Import SessionFacts.

Lemma errs_ret {A : Type} (x : A) : errs (ret x).
Proof. now intros w o w' _ [= <- <-]. Qed.

Lemma errs_bind {A B : Type} (m : M A) (k : A -> M B) :
  errs m -> (forall x, errs (k x)) -> errs (bind m k).
Proof.
  intros Hm Hk w o w' _ H. unfold bind in H.
  destruct (m w) as [[x|e|] w1] eqn:E.
  - exact (Hk x _ _ _ I H).
  - injection H as <- <-. exact (Hm _ _ _ I E).
  - now injection H as <- <-.
Qed.

Lemma errs_throw {A : Type} (e : error) : refusedReply e = None -> errs (@throw A e).
Proof. intros He w o w' _ [= <- <-]. unfold reported. now rewrite He. Qed.

Lemma errs_unless (ok : bool) (e : error) :
  refusedReply e = None -> errs (unless ok e).
Proof. intros H. destruct ok; [apply errs_ret|now apply errs_throw]. Qed.

Lemma errs_returns {A : Type} (m : M A) :
  (forall w, exists x w', m w = (Returned x, w')) -> errs m.
Proof.
  intros Hm w o w' _ H. destruct (Hm w) as (x & w1 & E). rewrite E in H.
  now injection H as <- <-.
Qed.

Lemma errs_write (data : jsstring) : errs (write data).
Proof. apply errs_returns. intros w. now eexists _, _. Qed.

Lemma errs_connect (cfg : config) : errs (connect cfg).
Proof. apply errs_returns. intros w. now eexists _, _. Qed.

Lemma errs_socketEnd : errs socketEnd.
Proof. apply errs_returns. intros w. now eexists _, _. Qed.

Lemma errs_readResponse : errs readResponse.
Proof.
  intros w o w' _ H. destruct o as [resp|e|]; auto.
  apply readResponse_thrown in H. unfold reported.
  destruct H as [->|[err ->]]; exact I.
Qed.

Lemma handshake_outcome (evs : list event) :
  forall (w : world) (e : error) (w' : world), handshake evs w <> (Thrown e, w').
Proof.
  induction evs as [|ev evs IH]; intros w e w'; [discriminate|].
  destruct ev; cbn [handshake]; try discriminate; apply IH.
Qed.

Lemma errs_upgrade : errs upgrade.
Proof.
  intros w o w' _ H. destruct o as [x|e|]; auto.
  unfold upgrade in H. now apply handshake_outcome in H.
Qed.

(** A reply, the check of its code, and what follows. *)
Lemma errs_check {B : Type} (ok : response -> bool) (E : list jsstring -> error)
      (expected : list Z) (k : response -> M B) :
  (forall ls, refusedReply (E ls) = Some (expected, ls)) ->
  (forall ls, exists prefix, errorMessage (E ls) = prefix ++ joinLines ls) ->
  (forall resp, ok resp = false -> noneOf expected (respCode resp) = true) ->
  (forall resp, errs (k resp)) ->
  errs (resp <- readResponse ;; unless (ok resp) (E (respLines resp)) ;; k resp).
Proof.
  intros HE Hmsg Hok Hk w o w' _ H. rewrite run_bind in H.
  destruct (readResponse w) as [[resp|e|] w1] eqn:Er.
  - rewrite run_bind in H. destruct (ok resp) eqn:Eok; cbn [unless ret throw] in H.
    + exact (Hk resp _ _ _ I H).
    + injection H as <- <-. apply readResponse_trace in Er as [Et _].
      unfold reported. rewrite HE. split; [|apply Hmsg].
      exists (trace w), (respCode resp). split; [exact Et|]. now apply Hok.
  - injection H as <- <-. exact (errs_readResponse _ _ _ I Er).
  - now injection H as <- <-.
Qed.

Lemma errs_check_last (ok : response -> bool) (E : list jsstring -> error)
      (expected : list Z) :
  (forall ls, refusedReply (E ls) = Some (expected, ls)) ->
  (forall ls, exists prefix, errorMessage (E ls) = prefix ++ joinLines ls) ->
  (forall resp, ok resp = false -> noneOf expected (respCode resp) = true) ->
  errs (resp <- readResponse ;; unless (ok resp) (E (respLines resp))).
Proof.
  intros HE Hmsg Hok w o w' _ H. rewrite run_bind in H.
  destruct (readResponse w) as [[resp|e|] w1] eqn:Er.
  - destruct (ok resp) eqn:Eok; cbn [unless ret throw] in H; injection H as <- <-; auto.
    apply readResponse_trace in Er as [Et _].
    unfold reported. rewrite HE. split; [|apply Hmsg].
    exists (trace w), (respCode resp). split; [exact Et|]. now apply Hok.
  - injection H as <- <-. exact (errs_readResponse _ _ _ I Er).
  - now injection H as <- <-.
Qed.

Lemma noneOf_one (x : Z) (resp : response) :
  okReply x resp = false -> noneOf [x] (respCode resp) = true.
Proof. unfold okReply, noneOf. intros H. cbn. now rewrite H. Qed.

Lemma noneOf_two (x y : Z) (resp : response) :
  okReply x resp || okReply y resp = false -> noneOf [x; y] (respCode resp) = true.
Proof.
  unfold okReply, noneOf. intros H. apply orb_false_iff in H as [Hx Hy].
  cbn. now rewrite Hx, Hy.
Qed.

Ltac check_sides :=
  first [ reflexivity
        | solve [intros ?; cbn [errorMessage]; rewrite ?app_assoc; eexists; reflexivity]
        | solve [intros ? ?; auto using noneOf_one, noneOf_two] ].

Ltac errs_steps :=
  repeat first
    [ apply errs_ret
    | apply errs_write
    | apply errs_connect
    | apply errs_socketEnd
    | apply errs_upgrade
    | (eapply errs_check_last; [intros ?; reflexivity | check_sides | check_sides])
    | (eapply errs_check; [intros ?; reflexivity | check_sides | check_sides | intros ?])
    | apply errs_readResponse
    | (apply errs_throw; reflexivity)
    | match goal with H : _ |- _ => apply H end
    | apply errs_bind; [|intros ?]
    | match goal with |- errs (if ?b then _ else _) => destruct b end ].

Lemma errs_banner : errs banner.
Proof. unfold banner. errs_steps. Qed.

Lemma errs_greet (cfg : config) : errs (greet cfg).
Proof. unfold greet. errs_steps. Qed.

Lemma errs_startTls (env : Env) (cfg : config) (resp : response) :
  errs (startTls env cfg resp).
Proof. unfold startTls. errs_steps. Qed.

Lemma errs_authenticate (cfg : config) (resp : response) :
  errs (authenticate cfg resp).
Proof. unfold authenticate, authPlain, authLogin. cbv zeta. errs_steps. Qed.

Lemma errs_mailFrom (msg : message) : errs (mailFrom msg).
Proof. unfold mailFrom. errs_steps. Qed.

Lemma errs_rcptAll (recipients : list jsstring) : errs (rcptAll recipients).
Proof.
  induction recipients as [|rcpt rest IH]; cbn [rcptAll]; errs_steps.
Qed.

Lemma errs_dataCommand : errs dataCommand.
Proof. unfold dataCommand. errs_steps. Qed.

Lemma errs_sendBody (env : Env) (msg : message) : errs (sendBody env msg).
Proof. unfold sendBody. cbv zeta. errs_steps. Qed.

Lemma errs_quit : errs quit.
Proof. unfold quit. errs_steps. Qed.

Lemma errs_send (env : Env) (cfg : config) (msg : message) : errs (send env cfg msg).
Proof.
  unfold send, session. cbv zeta.
  pose proof errs_banner. pose proof (errs_greet cfg).
  pose proof (errs_startTls env cfg). pose proof (errs_authenticate cfg).
  pose proof (errs_mailFrom msg). pose proof (errs_rcptAll (recipientsOf msg)).
  pose proof errs_dataCommand. pose proof (errs_sendBody env msg).
  pose proof errs_quit.
  apply errs_bind; [apply errs_unless; reflexivity|intros ?].
  apply errs_bind; [apply errs_unless; reflexivity|intros ?].
  errs_steps.
Qed.

(** A protocol error tells the reply that caused it: whenever [send] throws
    the error of a step whose reply had the wrong code, the last thing
    that happened is that reply, its code is none of the codes the step
    asks for, and the text of the error ends with all the lines of the
    reply, joined by line feeds. *)
Theorem protocol_error_reports_last_reply
        (env : Env) (cfg : config) (msg : message) (w w' : world) (e : error) :
  send env cfg msg w = (Thrown e, w') -> reported e (trace w').
Proof. intros H. exact (errs_send env cfg msg w (Thrown e) w' I H). Qed.

Lemma protocol_error_reports_last_reply_witness :
  send Scenario.env Scenario.plainClient Scenario.toThree
       (initialWorld Scenario.secondRefused)
  = (Thrown (RcptFailed (lit "c@z") [lit "550 no such user"]), Scenario.afterRefusal)
  /\ reported (RcptFailed (lit "c@z") [lit "550 no such user"])
              (trace Scenario.afterRefusal).
Proof.
  assert (H : send Scenario.env Scenario.plainClient Scenario.toThree
                   (initialWorld Scenario.secondRefused)
              = (Thrown (RcptFailed (lit "c@z") [lit "550 no such user"]),
                 Scenario.afterRefusal)) by (vm_compute; reflexivity).
  exact (conj H (protocol_error_reports_last_reply _ _ _ _ _ _ H)).
Defined.

End ErrorFacts.

(** ** The commands of a successful session *)

Module SuccessFacts.
Import SessionFacts.

Lemma bind_returned {A B : Type} (m : M A) (k : A -> M B) (w w' : world) (y : B) :
  bind m k w = (Returned y, w') ->
  exists x w1, m w = (Returned x, w1) /\ k x w1 = (Returned y, w').
Proof.
  unfold bind. destruct (m w) as [[x|e|] w1]; try discriminate.
  intros H. now exists x, w1.
Qed.

Lemma unless_returned (ok : bool) (e : error) (w w' : world) (x : unit) :
  unless ok e w = (Returned x, w') -> ok = true /\ w' = w.
Proof. destruct ok; [|discriminate]. now intros [= _ <-]. Qed.

Lemma write_returned (data : jsstring) (w w' : world) (x : unit) :
  write data w = (Returned x, w') -> written w' = written w ++ [data].
Proof. intros [= _ <-]. apply written_logged_write. Qed.

(** A command whose reply came: one more thing written. *)
Lemma command_returned {B : Type} (data : jsstring) (k : response -> M B)
      (w w' : world) (y : B) :
  (write data ;; resp <- readResponse ;; k resp) w = (Returned y, w') ->
  exists resp w1,
    written w1 = written w ++ [data] /\ k resp w1 = (Returned y, w').
Proof.
  intros H. apply bind_returned in H as (x & w0 & Hw & H).
  apply bind_returned in H as (resp & w1 & Hr & H).
  exists resp, w1. split; [|exact H].
  apply readResponse_written in Hr. apply write_returned in Hw. congruence.
Qed.

(** The same with the check of the reply behind it. *)
Lemma checked_returned {B : Type} (data : jsstring) (ok : response -> bool)
      (E : response -> error) (k : response -> M B) (w w' : world) (y : B) :
  (write data ;; resp <- readResponse ;; unless (ok resp) (E resp) ;; k resp) w
  = (Returned y, w') ->
  exists resp w1,
    ok resp = true /\ written w1 = written w ++ [data]
    /\ k resp w1 = (Returned y, w').
Proof.
  intros H. apply command_returned in H as (resp & w1 & Hw & H).
  apply bind_returned in H as (x & w2 & Hu & H).
  apply unless_returned in Hu as [Hok ->]. now exists resp, w1.
Qed.

Lemma checked_last_returned (data : jsstring) (ok : response -> bool)
      (E : response -> error) (w w' : world) (y : unit) :
  (write data ;; resp <- readResponse ;; unless (ok resp) (E resp)) w
  = (Returned y, w') ->
  written w' = written w ++ [data].
Proof.
  intros H. apply command_returned in H as (resp & w1 & Hw & H).
  apply unless_returned in H as [_ ->]. exact Hw.
Qed.

Lemma banner_returned (w w' : world) (x : unit) :
  banner w = (Returned x, w') -> written w' = written w.
Proof.
  unfold banner. intros H. apply bind_returned in H as (resp & w1 & Hr & H).
  apply unless_returned in H as [_ ->]. now apply readResponse_written in Hr.
Qed.

Lemma extends_refl (w : world) : extends w w.
Proof. exists []. now rewrite app_nil_r. Qed.

Lemma extends_trans (a b c : world) : extends a b -> extends b c -> extends a c.
Proof.
  intros [t1 E1] [t2 E2]. exists (t1 ++ t2). now rewrite E2, E1, app_assoc.
Qed.

Lemma quiet_extends {A : Type} (m : M A) (w w' : world) (o : outcome A) :
  quiet m -> m w = (o, w') -> extends w w'.
Proof. intros Hm H. destruct (Hm _ _ _ H) as (t & Ht & _). now exists t. Qed.

(** Writing and reading leave the socket the one it is. *)
Lemma rebound_write (b : bool) (data : jsstring) :
  keeps (fun v => rebound v = b) (write data).
Proof. intros w o w' Hw [= <- <-]. exact Hw. Qed.

Lemma rebound_readResponse (b : bool) : keeps (fun v => rebound v = b) readResponse.
Proof.
  intros w o w' Hw H. apply readResponse_trace in H as [_ H]. congruence.
Qed.

(** The banner: its reply, with the code 220. *)
Lemma banner_shape (w w' : world) (x : unit) :
  banner w = (Returned x, w') ->
  (exists b, trace w' = trace w ++ [Received 220 b])
  /\ written w' = written w /\ rebound w' = rebound w.
Proof.
  unfold banner. intros H. apply bind_returned in H as (resp & w1 & Hr & H).
  apply unless_returned in H as [Hok ->].
  unfold okReply in Hok. apply Z.eqb_eq in Hok.
  pose proof (readResponse_written _ _ _ Hr) as Hw.
  apply readResponse_trace in Hr as [Ht Hb].
  repeat split; auto. exists (respLines resp). rewrite Ht. cbn [received].
  now rewrite Hok.
Qed.

(** The greeting: EHLO and its reply first, and HELO only when that reply
    did not have the code 250. *)
Lemma greet_shape (cfg : config) (w w' : world) (resp : response) :
  greet cfg w = (Returned resp, w') ->
  exists code ls,
    (exists t, trace w' = trace w ++ Wrote (active w) (ehloCommand cfg)
                                     :: Received code ls :: t)
    /\ written w' = written w ++ greeting cfg code
    /\ rebound w' = rebound w.
Proof.
  intros H.
  pose proof (PathFacts.keeps_greet _ (rebound_write (rebound w))
                (rebound_readResponse (rebound w)) cfg _ _ _ eq_refl H) as Hb.
  unfold greet in H. fold (ehloCommand cfg) in H. fold (heloCommand cfg) in H.
  rewrite run_bind in H. cbn [write] in H. rewrite run_bind in H.
  destruct (readResponse _) as [[resp1|e|] w1] eqn:E1; try discriminate.
  pose proof (readResponse_written _ _ _ E1) as Hw1.
  rewrite written_logged_write in Hw1.
  apply readResponse_trace in E1 as [Ht1 _]. cbn [logged trace received] in Ht1.
  exists (respCode resp1), (respLines resp1).
  unfold greeting. unfold okReply in H.
  destruct (respCode resp1 =? 250); cbn [negb] in H.
  - injection H as _ <-. repeat split; auto.
    exists []. rewrite Ht1, <- !app_assoc. reflexivity.
  - pose proof H as H'.
    apply checked_returned in H as (resp2 & w2 & _ & Hw2 & H).
    injection H as _ <-. repeat split; auto.
    + assert (Q : quiet (write (heloCommand cfg) ;;
                         r <- readResponse ;;
                         unless (respCode r =? 250) (HeloFailed (respLines r)) ;;
                         ret r)).
      { apply quiet_bind; [apply quiet_write|intros ?].
        apply quiet_bind; [apply quiet_readResponse|intros ?].
        apply quiet_bind; [apply quiet_unless|intros ?]. apply quiet_ret. }
      destruct (quiet_extends _ _ _ _ Q H') as [t Et].
      exists t. rewrite Et, Ht1, <- !app_assoc. reflexivity.
    + rewrite Hw2, Hw1, <- app_assoc. reflexivity.
Qed.

Lemma upgrade_written (w w' : world) (o : outcome unit) :
  upgrade w = (o, w') -> written w' = written w.
Proof.
  intros H. apply upgrade_trace in H as [Ht _].
  unfold written. rewrite Ht, writes_app. cbn. apply app_nil_r.
Qed.

(** The upgrade: both commands and an upgraded socket, or neither. *)
Lemma startTls_returned (env : Env) (cfg : config) (resp resp' : response)
      (w w' : world) :
  rebound w = false ->
  startTls env cfg resp w = (Returned resp', w') ->
  written w' = written w ++ upgradeCommands cfg (rebound w')
  /\ (secure cfg = true -> rebound w' = false).
Proof.
  intros Hb. unfold startTls. destruct (secure cfg); cbn [negb andb].
  - intros [= _ <-]. rewrite Hb. cbn. now rewrite app_nil_r.
  - destruct (supportsStartTLS env resp).
    + intros H. apply checked_returned in H as (r1 & w1 & _ & Hw1 & H).
      apply bind_returned in H as (x & w2 & Hu & H).
      pose proof (upgrade_written _ _ _ Hu) as Hw2.
      apply upgrade_trace in Hu as [_ Hb2].
      pose proof (rebound_write true (ehloCommand cfg)) as Kw.
      pose proof H as H'.
      apply checked_returned in H as (r2 & w3 & _ & Hw3 & H).
      injection H as _ <-.
      assert (Hb3 : rebound w3 = true).
      { unfold bind in H'. cbn [write] in H'.
        destruct (readResponse _) as [[r|e|] v] eqn:E; try discriminate.
        apply readResponse_trace in E as [_ E]. cbn [logged rebound] in E.
        destruct (okReply 250 r); cbn in H'; [|discriminate].
        injection H' as _ <-. congruence. }
      rewrite Hb3. cbn [upgradeCommands].
      split; [|discriminate]. rewrite Hw3, Hw2, Hw1, <- app_assoc. reflexivity.
    + intros [= _ <-]. rewrite Hb. cbn. now rewrite app_nil_r.
Qed.

Lemma authLogin_returned (cfg : config) (w w' : world) (x : unit) :
  authLogin cfg w = (Returned x, w') ->
  written w' = written w ++ authLoginCommand :: authLoginAnswers cfg.
Proof.
  unfold authLogin. intros H.
  apply checked_returned in H as (r1 & w1 & _ & Hw1 & H).
  apply checked_returned in H as (r2 & w2 & _ & Hw2 & H).
  apply checked_last_returned in H.
  rewrite H, Hw2, Hw1, <- !app_assoc. reflexivity.
Qed.

Lemma authenticate_returned (cfg : config) (resp : response) (w w' : world) (x : unit) :
  authenticate cfg resp w = (Returned x, w') ->
  exists a, written w' = written w ++ a /\ authCommands cfg a.
Proof.
  unfold authenticate, authCommands.
  destruct (truthy (user cfg) && truthy (pass cfg)).
  - destruct (supportsAuthPlain resp).
    + intros H. exists [authPlainCommand cfg]. split; [|now left].
      pose proof (authPlain_written cfg w) as Hp. now rewrite H in Hp.
    + destruct (supportsAuthLogin resp); [|discriminate].
      intros H. apply authLogin_returned in H.
      exists (authLoginCommand :: authLoginAnswers cfg). split; [exact H|now right].
  - intros [= _ <-]. exists []. now rewrite app_nil_r.
Qed.

Lemma rcptAll_returned (recipients : list jsstring) :
  forall (w w' : world) (x : unit),
    rcptAll recipients w = (Returned x, w') ->
    written w' = written w ++ map rcptLine recipients.
Proof.
  induction recipients as [|rcpt rest IH]; intros w w' x H.
  - injection H as _ <-. now rewrite app_nil_r.
  - cbn [rcptAll] in H. apply checked_returned in H as (r & w1 & _ & Hw1 & H).
    apply IH in H. rewrite H, Hw1, <- app_assoc. reflexivity.
Qed.

(** A run of [send] that returns.  Its result is the fixed
    acknowledgement.  Its trace begins with the socket being opened, the
    banner with the code 220, EHLO on that socket, and the reply to EHLO.
    What it has written is, in this order and nothing else: EHLO, and HELO
    after it exactly when the reply to EHLO did not have the code 250;
    STARTTLS and EHLO again exactly when the socket was upgraded, which it
    never is with implicit TLS; with a user and a password the command of
    AUTH PLAIN or the exchange of AUTH LOGIN, and no such command without;
    MAIL FROM; RCPT TO for every recipient of [to], then [cc], then [bcc];
    DATA; the stuffed document with the end of data; QUIT. *)
Theorem send_success_commands
        (env : Env) (cfg : config) (msg : message) (events : list event)
        (r : result) (w' : world) :
  send env cfg msg (initialWorld events) = (Returned r, w') ->
  r = mkResult true (lit "Enviado")
  /\ exists banner code ls rest a,
       trace w'
       = Connected (secure cfg) (port cfg) (host cfg) :: Received 220 banner
         :: Wrote Original (ehloCommand cfg) :: Received code ls :: rest
       /\ (secure cfg = true -> rebound w' = false)
       /\ authCommands cfg a
       /\ written w'
          = greeting cfg code ++ upgradeCommands cfg (rebound w') ++ a
            ++ [mailFromCommand msg]
            ++ map rcptLine (Recipients msg)
            ++ [dataLine; payload env msg; quitCommand].
Proof.
  unfold send. cbv zeta. rewrite recipientsOf_Recipients. intros H.
  apply bind_returned in H as (x1 & w1 & H1 & H). apply unless_returned in H1 as [_ ->].
  apply bind_returned in H as (x2 & w2 & H2 & H). apply unless_returned in H2 as [_ ->].
  apply bind_returned in H as (x3 & w3 & Hs & H).
  apply bind_returned in H as (x4 & w4 & Hr & H).
  apply bind_returned in H as (x5 & w5 & Hd & H).
  apply bind_returned in H as (x6 & w6 & Hb & H).
  apply bind_returned in H as (x7 & w7 & Hq & H).
  apply bind_returned in H as (x8 & w8 & He & H).
  injection H as <- <-. split; [reflexivity|].
  (* the session, step by step *)
  unfold session in Hs.
  apply bind_returned in Hs as (y1 & v1 & Hc & Hs). injection Hc as _ <-.
  apply bind_returned in Hs as (y2 & v2 & Hban & Hs).
  apply banner_shape in Hban as ([b Hban] & Wban & Bban).
  apply bind_returned in Hs as (resp & v3 & Hg & Hs).
  apply greet_shape in Hg as (code & ls & [t3 Tg] & Wg & Bg).
  apply bind_returned in Hs as (resp' & v4 & Ht & Hs).
  assert (B3 : rebound v3 = false) by (rewrite Bg, Bban; reflexivity).
  pose proof (quiet_extends _ _ _ _ (quiet_startTls env cfg resp) Ht) as X4.
  apply (startTls_returned env cfg resp resp' v3 v4 B3) in Ht as [Wt St].
  apply bind_returned in Hs as (y5 & v5 & Ha & Hs).
  pose proof (quiet_extends _ _ _ _ (quiet_authenticate cfg resp') Ha) as X5.
  pose proof (PathFacts.keeps_authenticate _ (rebound_write (rebound v4))
                (rebound_readResponse (rebound v4)) cfg resp' _ _ _ eq_refl Ha) as B5.
  apply authenticate_returned in Ha as (a & Wa & Ca).
  pose proof (quiet_extends _ _ _ _ (quiet_mailFrom msg) Hs) as X6.
  pose proof (PathFacts.keeps_mailFrom _ (rebound_write (rebound v5))
                (rebound_readResponse (rebound v5)) msg _ _ _ eq_refl Hs) as B6.
  unfold mailFrom in Hs. fold (mailFromCommand msg) in Hs.
  apply checked_last_returned in Hs.
  (* the rest of [send] *)
  pose proof (quiet_extends _ _ _ _ (quiet_rcptAll (Recipients msg)) Hr) as X7.
  pose proof (PathFacts.keeps_rcptAll _ (rebound_write (rebound w3))
                (rebound_readResponse (rebound w3)) _ _ _ _ eq_refl Hr) as B7.
  apply rcptAll_returned in Hr.
  pose proof (quiet_extends _ _ _ _ quiet_dataCommand Hd) as X8.
  pose proof (PathFacts.keeps_dataCommand _ (rebound_write (rebound w4))
                (rebound_readResponse (rebound w4)) _ _ _ eq_refl Hd) as B8.
  unfold dataCommand in Hd. fold dataLine in Hd. apply checked_last_returned in Hd.
  pose proof (quiet_extends _ _ _ _ (quiet_sendBody env msg) Hb) as X9.
  pose proof (PathFacts.keeps_sendBody _ (rebound_write (rebound w5))
                (rebound_readResponse (rebound w5)) env msg _ _ _ eq_refl Hb) as B9.
  unfold sendBody in Hb. cbv zeta in Hb.
  change (dotStuff (normalize (Mime.buildMime env msg)) ++ CRLF ++ lit "." ++ CRLF)
    with (payload env msg) in Hb.
  apply checked_last_returned in Hb.
  pose proof (quiet_extends _ _ _ _ quiet_quit Hq) as X10.
  pose proof (PathFacts.keeps_quit _ (rebound_write (rebound w6))
                (rebound_readResponse (rebound w6)) _ _ _ eq_refl Hq) as B10.
  unfold quit in Hq. fold quitCommand in Hq.
  apply command_returned in Hq as (rq & wq & Hq & Hq'). injection Hq' as _ <-.
  injection He as _ <-.
  cbv beta in B5, B6, B7, B8, B9.
  assert (Bend : rebound (logged Ended wq) = rebound v4)
    by (cbn [logged rebound]; congruence).
  exists b, code, ls.
  destruct (extends_trans _ _ _ X4
              (extends_trans _ _ _ X5
                 (extends_trans _ _ _ X6
                    (extends_trans _ _ _ X7
                       (extends_trans _ _ _ X8
                          (extends_trans _ _ _ X9 X10)))))) as [t Et].
  exists (t3 ++ t ++ [Ended]), a. repeat split.
  - cbn [logged trace]. rewrite Et, Tg, Hban. cbn [logged trace initialWorld app].
    unfold active. cbn [logged rebound initialWorld].
    rewrite Bban. cbn [logged rebound initialWorld]. cbn.
    now rewrite <- !app_assoc.
  - intros Hsec. rewrite Bend. auto.
  - exact Ca.
  - rewrite Bend.
    assert (Hend : written (logged Ended wq) = written wq).
    { unfold written. cbn [logged trace]. rewrite writes_app. cbn. apply app_nil_r. }
    rewrite Hend, Hq, Hb, Hd, Hr, Hs, Wa, Wt, Wg, Wban.
    unfold written. cbn [logged trace initialWorld writes app].
    rewrite <- !app_assoc. reflexivity.
Qed.

Lemma send_success_commands_witness :
  send Scenario.env Scenario.authClient Scenario.toTwo
       (initialWorld Scenario.withStartTls)
  = (Returned (mkResult true (lit "Enviado")),
     snd (send Scenario.env Scenario.authClient Scenario.toTwo
               (initialWorld Scenario.withStartTls)))
  /\ (mkResult true (lit "Enviado") = mkResult true (lit "Enviado")
      /\ exists banner code ls rest a,
           trace (snd (send Scenario.env Scenario.authClient Scenario.toTwo
                            (initialWorld Scenario.withStartTls)))
           = Connected (secure Scenario.authClient) (port Scenario.authClient)
                       (host Scenario.authClient)
             :: Received 220 banner
             :: Wrote Original (ehloCommand Scenario.authClient)
             :: Received code ls :: rest
           /\ (secure Scenario.authClient = true ->
               rebound (snd (send Scenario.env Scenario.authClient Scenario.toTwo
                                  (initialWorld Scenario.withStartTls))) = false)
           /\ authCommands Scenario.authClient a
           /\ written (snd (send Scenario.env Scenario.authClient Scenario.toTwo
                                 (initialWorld Scenario.withStartTls)))
              = greeting Scenario.authClient code
                ++ upgradeCommands Scenario.authClient
                     (rebound (snd (send Scenario.env Scenario.authClient Scenario.toTwo
                                         (initialWorld Scenario.withStartTls))))
                ++ a
                ++ [mailFromCommand Scenario.toTwo]
                ++ map rcptLine (Recipients Scenario.toTwo)
                ++ [dataLine; payload Scenario.env Scenario.toTwo; quitCommand]).
Proof.
  assert (H : send Scenario.env Scenario.authClient Scenario.toTwo
                   (initialWorld Scenario.withStartTls)
              = (Returned (mkResult true (lit "Enviado")),
                 snd (send Scenario.env Scenario.authClient Scenario.toTwo
                           (initialWorld Scenario.withStartTls))))
    by (vm_compute; reflexivity).
  exact (conj H (send_success_commands _ _ _ _ _ _ H)).
Defined.

End SuccessFacts.

(** ** The listeners of the readers *)

Module ListenerFacts.
Import SessionFacts WaitFacts.

Lemma awaitLoop_secured (id : nat) (evs : list event) :
  forall (w : world) (o : outcome response) (w' : world),
    awaitLoop id evs w = (o, w') -> dataSecured w' = dataSecured w.
Proof.
  induction evs as [|ev evs IH]; intros w o w' H.
  - now injection H as <- <-.
  - destruct ev as [chunk|err| |]; cbn [awaitLoop] in H.
    + destruct (deliver_frame chunk w) as (_ & _ & Hs).
      destruct (nth_error (waits (deliver chunk w)) id) as [[b ls c [|code|e]]|];
        try (apply IH in H; congruence).
      injection H as <- <-. exact Hs.
    + now injection H as <- <-.
    + now injection H as <- <-.
    + now apply IH in H.
Qed.

(** After the upgrade no reader ever comes off: whatever becomes of a
    [readResponse] (a reply, an error, a timeout, or nothing), the [data]
    listener it put on the TLS socket is still there when it ends, behind
    those of all the waits before it. *)
Theorem reader_after_upgrade_stays_on
        (w : world) (o : outcome response) (w' : world) :
  rebound w = true ->
  readResponse w = (o, w') ->
  dataSecured w' = dataSecured w ++ [length (waits w)].
Proof.
  intros Hr. unfold readResponse, createWait. intros H.
  apply awaitLoop_secured in H. rewrite H.
  unfold socketOn, active. cbn [withWaits rebound]. now rewrite Hr.
Qed.

Lemma reader_after_upgrade_stays_on_witness :
  rebound (mkWorld [Idle] [] true [] [] []) = true
  /\ readResponse (mkWorld [Idle] [] true [] [] [])
     = (Thrown Timeout, snd (readResponse (mkWorld [Idle] [] true [] [] [])))
  /\ dataSecured (snd (readResponse (mkWorld [Idle] [] true [] [] [])))
     = dataSecured (mkWorld [Idle] [] true [] [] [])
       ++ [length (waits (mkWorld [Idle] [] true [] [] []))].
Proof.
  exact (conj eq_refl
           (conj eq_refl
              (reader_after_upgrade_stays_on (mkWorld [Idle] [] true [] [] []) _ _
                 eq_refl eq_refl))).
Defined.

Lemma nth_error_updateAt_same {A : Type} (f : A -> A) (l : list A) :
  forall (i : nat) (x : A),
    nth_error l i = Some x -> nth_error (updateAt i f l) i = Some (f x).
Proof.
  induction l as [|y l IH]; intros [|i] x H; try discriminate.
  - now injection H as ->.
  - simpl. now apply IH.
Qed.

Lemma waitOnData_detaches (chunk : bytes) (w : wait) :
  settled w = Unsettled ->
  (chunkDetaches chunk w = false /\ settled (waitOnData chunk w) = Unsettled)
  \/ (chunkDetaches chunk w = true /\ exists c, settled (waitOnData chunk w) = Resolved c).
Proof.
  intros Hw. rewrite ReadFacts.waitOnData_settled_start. unfold chunkDetaches, detaches.
  destruct (existsb terminal (fst (LineReader.onData (buffer w) chunk))) eqn:E.
  - right. split; [reflexivity|]. now apply ReadFacts.onLines_terminal_resolves.
  - left. split; [reflexivity|]. now rewrite onLines_no_terminal.
Qed.

Lemma without_only (id : nat) : without id [id] = [].
Proof. unfold without. simpl. now rewrite Nat.eqb_refl. Qed.

(** A wait that is the one listener of the socket: when it ends, it is
    off. *)
Lemma awaitLoop_tidy (id : nat) (evs : list event) :
  forall (w : world) (wt : wait) (o : outcome response) (w' : world),
    rebound w = false -> dataOriginal w = [id] -> dataSecured w = [] ->
    nth_error (waits w) id = Some wt -> settled wt = Unsettled ->
    awaitLoop id evs w = (o, w') ->
    rebound w' = false
    /\ match o with Pending => True | _ => tidy w' end.
Proof.
  induction evs as [|ev evs IH]; intros w wt o w' Hr Ho Hs Hn Hu H.
  - injection H as <- <-. auto.
  - destruct ev as [chunk|err| |]; cbn [awaitLoop] in H.
    + assert (Hd : deliver chunk w = deliverTo chunk w id).
      { unfold deliver, active. rewrite Hr. cbn [listenersOf]. now rewrite Ho. }
      rewrite Hd in H. clear Hd. unfold deliverTo in H. rewrite Hn in H.
      destruct (waitOnData_detaches chunk wt Hu) as [[Hd Hw]|[Hd [c Hw]]];
        rewrite Hd in H.
      * cbn [withWaits waits] in H.
        rewrite (nth_error_updateAt_same _ _ _ _ Hn) in H.
        destruct (waitOnData chunk wt) as [b ls cd st] eqn:E.
        cbn [settled] in Hw. subst st.
        refine (IH _ (mkWait b ls cd Unsettled) _ _ _ _ _ _ _ H); auto.
        cbn [withWaits waits]. rewrite (nth_error_updateAt_same _ _ _ _ Hn).
        now rewrite E.
      * cbn [socketOff withWaits waits] in H.
        rewrite (nth_error_updateAt_same _ _ _ _ Hn) in H.
        destruct (waitOnData chunk wt) as [b ls cd st] eqn:E.
        cbn [settled] in Hw. subst st.
        injection H as <- <-. split; [exact Hr|].
        split; cbn; [rewrite Ho; apply without_only|exact Hs].
    + injection H as <- <-. split; [exact Hr|].
      split; cbn; [rewrite Ho; apply without_only|exact Hs].
    + injection H as <- <-. split; [exact Hr|].
      split; cbn; [rewrite Ho; apply without_only|exact Hs].
    + eapply IH; eauto.
Qed.

Lemma settles_readResponse : settles tidyUnlessUpgraded readResponse.
Proof.
  intros w o w' Hw H.
  destruct (rebound w) eqn:Hr.
  - apply readResponse_trace in H as [_ H]. rewrite Hr in H.
    destruct o; auto; now left.
  - destruct Hw as [Hw|[Ho Hs]]; [congruence|].
    unfold readResponse, createWait in H.
    eapply (awaitLoop_tidy _ _ _ newWait) in H.
    + destruct H as [_ H]. destruct o; auto; now right.
    + unfold socketOn, active. cbn [withWaits rebound]. now rewrite Hr.
    + unfold socketOn, active. cbn [withWaits rebound dataOriginal].
      rewrite Hr. cbn [dataOriginal]. now rewrite Ho.
    + unfold socketOn, active. cbn [withWaits rebound]. rewrite Hr. exact Hs.
    + unfold socketOn, active. cbn [withWaits rebound]. rewrite Hr. cbn [withWaits waits].
      rewrite nth_error_app2, Nat.sub_diag; [reflexivity|apply le_n].
    + reflexivity.
Qed.

Lemma settles_bind {A B : Type} (P : world -> Prop) (m : M A) (k : A -> M B) :
  settles P m -> (forall x, settles P (k x)) -> settles P (bind m k).
Proof.
  intros Hm Hk w o w' Hw H. unfold bind in H.
  destruct (m w) as [[x|e|] w1] eqn:E; pose proof (Hm _ _ _ Hw E) as H1.
  - exact (Hk x _ _ _ H1 H).
  - now injection H as <- <-.
  - now injection H as <- <-.
Qed.

Lemma settles_ret {A : Type} (P : world -> Prop) (x : A) : settles P (ret x).
Proof. intros w o w' Hw [= <- <-]. exact Hw. Qed.

Lemma settles_throw {A : Type} (P : world -> Prop) (e : error) : settles P (@throw A e).
Proof. intros w o w' Hw [= <- <-]. exact Hw. Qed.

Lemma settles_unless (P : world -> Prop) (ok : bool) (e : error) :
  settles P (unless ok e).
Proof. destruct ok; [apply settles_ret|apply settles_throw]. Qed.

Lemma settles_logged {A : Type} (x : A) (e : io) :
  settles tidyUnlessUpgraded (fun w => (Returned x, logged e w)).
Proof. intros w o w' Hw [= <- <-]. exact Hw. Qed.

Lemma settles_write (data : jsstring) : settles tidyUnlessUpgraded (write data).
Proof. intros w o w' Hw [= <- <-]. exact Hw. Qed.

Lemma settles_upgrade : settles tidyUnlessUpgraded upgrade.
Proof.
  intros w o w' _ H. apply upgrade_trace in H as [_ H].
  destruct o; auto; now left.
Qed.

Ltac settles_steps :=
  repeat first
    [ apply settles_ret
    | apply settles_throw
    | apply settles_unless
    | apply settles_write
    | apply settles_readResponse
    | apply settles_upgrade
    | apply settles_logged
    | match goal with H : _ |- _ => apply H end
    | apply settles_bind; [|intros ?]
    | match goal with
      | |- settles _ (if ?c then _ else _) => destruct c
      end
    | progress (unfold session, banner, greet, startTls, authenticate, authPlain,
                authLogin, mailFrom, dataCommand, sendBody, quit, connect, socketEnd;
                cbv zeta) ].

Lemma settles_rcptAll (recipients : list jsstring) :
  settles tidyUnlessUpgraded (rcptAll recipients).
Proof.
  induction recipients as [|rcpt rest IH]; cbn [rcptAll]; settles_steps.
Qed.

Lemma settles_send (env : Env) (cfg : config) (msg : message) :
  settles tidyUnlessUpgraded (send env cfg msg).
Proof.
  unfold send. cbv zeta. pose proof (settles_rcptAll (recipientsOf msg)).
  settles_steps.
Qed.

(** A session that never upgraded its socket and came to an end, with a
    result or with an error, has left no [data] listener behind: every
    reader it made is off the socket. *)
Theorem plain_session_leaves_no_listener
        (env : Env) (cfg : config) (msg : message) (events : list event)
        (o : outcome result) (w' : world) :
  send env cfg msg (initialWorld events) = (o, w') ->
  o <> Pending -> rebound w' = false ->
  dataOriginal w' = [] /\ dataSecured w' = [].
Proof.
  intros H Ho Hr.
  assert (H0 : tidyUnlessUpgraded (initialWorld events)) by (right; split; reflexivity).
  pose proof (settles_send env cfg msg _ _ _ H0 H) as Hs.
  destruct o; try congruence; destruct Hs as [Hs|Hs]; congruence || exact Hs.
Qed.

Lemma plain_session_leaves_no_listener_witness :
  send Scenario.env Scenario.plainClient Scenario.toThree
       (initialWorld Scenario.secondRefused)
  = (Thrown (RcptFailed (lit "c@z") [lit "550 no such user"]),
     snd (send Scenario.env Scenario.plainClient Scenario.toThree
               (initialWorld Scenario.secondRefused)))
  /\ Thrown (RcptFailed (lit "c@z") [lit "550 no such user"]) <> @Pending result
  /\ rebound (snd (send Scenario.env Scenario.plainClient Scenario.toThree
                        (initialWorld Scenario.secondRefused))) = false
  /\ (dataOriginal (snd (send Scenario.env Scenario.plainClient Scenario.toThree
                              (initialWorld Scenario.secondRefused))) = []
      /\ dataSecured (snd (send Scenario.env Scenario.plainClient Scenario.toThree
                               (initialWorld Scenario.secondRefused))) = []).
Proof.
  assert (E : send Scenario.env Scenario.plainClient Scenario.toThree
                   (initialWorld Scenario.secondRefused)
              = (Thrown (RcptFailed (lit "c@z") [lit "550 no such user"]),
                 snd (send Scenario.env Scenario.plainClient Scenario.toThree
                           (initialWorld Scenario.secondRefused))))
    by (vm_compute; reflexivity).
  assert (N : Thrown (RcptFailed (lit "c@z") [lit "550 no such user"])
              <> @Pending result) by discriminate.
  assert (R : rebound (snd (send Scenario.env Scenario.plainClient Scenario.toThree
                                 (initialWorld Scenario.secondRefused))) = false)
    by (vm_compute; reflexivity).
  exact (conj E (conj N (conj R
           (plain_session_leaves_no_listener _ _ _ _ _ _ E N R)))).
Defined.

End ListenerFacts.

(** ** Nothing is lost in the reader *)

Module ReaderFacts.
Import LineReader LineReaderFacts.

Lemma cut_line (s l r : jsstring) : cut s = Some (l, r) -> cut l = None.
Proof.
  revert l r; induction s as [|c s IH]; intros l r H; [discriminate|].
  cbn [cut] in H.
  destruct (Str.startsWith CRLF (c :: s)) eqn:E.
  - now injection H as <- <-.
  - destruct (cut s) as [[l' r']|] eqn:Ec; [|discriminate].
    injection H as <- <-. specialize (IH l' r' eq_refl).
    cbn [cut]. rewrite IH.
    destruct (Str.startsWith CRLF (c :: l')) eqn:E'; [|reflexivity].
    apply cut_some in Ec. subst s.
    apply (startsWith_app_r _ _ (CRLF ++ r')) in E'.
    cbn [app] in E'. congruence.
Qed.

Lemma drain_whole (n : nat) :
  forall s : jsstring,
    (length s <= n)%nat ->
    withLineEnds (fst (drain n s)) ++ snd (drain n s) = s
    /\ Forall (fun l => cut l = None) (fst (drain n s)).
Proof.
  induction n as [|n IH]; intros s Hn.
  - split; [reflexivity|constructor].
  - rewrite drain_step.
    destruct (cut s) as [[l r]|] eqn:E; [|split; [reflexivity|constructor]].
    pose proof (cut_shorter _ _ _ E) as Hlen.
    destruct (IH r ltac:(lia)) as [Hw Hl].
    destruct (drain n r) as [emitted rest]. cbn [fst snd] in *.
    split.
    + apply cut_some in E. subst s.
      cbn [withLineEnds flat_map]. fold (withLineEnds emitted).
      rewrite <- !app_assoc. f_equal. f_equal. exact Hw.
    + constructor; [exact (cut_line _ _ _ E)|exact Hl].
Qed.

(** The reader neither drops nor adds nor reorders a character: the lines
    [onData] emits for a chunk, each with its CRLF put back, and then the
    buffer it keeps, are the buffer it had followed by the text of the
    chunk; and no line it emits holds a CRLF. *)
Theorem onData_loses_nothing (buffer : jsstring) (chunk : bytes) :
  withLineEnds (fst (onData buffer chunk)) ++ snd (onData buffer chunk)
  = buffer ++ Utf8.toString chunk
  /\ Forall (fun l => cut l = None) (fst (onData buffer chunk)).
Proof. unfold onData, onText. now apply drain_whole. Qed.

End ReaderFacts.

(** ** Where the data ends *)

Module TerminatorFacts.
Import DotStuffFacts DocumentFacts.

Lemma startsWith_other_head (a x : Z) (p s : jsstring) :
  (a =? x) = false -> Str.startsWith (a :: p) (x :: s) = false.
Proof. intros H. cbn [Str.startsWith]. now rewrite H. Qed.

Lemma noLF_stuffLine (l : jsstring) : noLF l = true -> noLF (stuffLine l) = true.
Proof. unfold stuffLine. now destruct (headIs DOT l). Qed.

(** Inside a line there is no end of data: the search goes on behind it. *)
Lemma indexOfFrom_line (l : jsstring) :
  forall (t : jsstring) (i : Z),
    noLF l = true -> headIs CR t = true ->
    Str.indexOfFrom endOfData (l ++ t) i
    = Str.indexOfFrom endOfData t (i + Z.of_nat (length l)).
Proof.
  induction l as [|c l IH]; intros t i Hl Ht.
  - cbn [app length]. now rewrite Z.add_0_r.
  - cbn [noLF forallb] in Hl. apply andb_true_iff in Hl as [Hc Hl].
    fold (noLF l) in Hl.
    change ((c :: l) ++ t) with (c :: (l ++ t)). cbn [Str.indexOfFrom].
    replace (Str.startsWith endOfData (c :: l ++ t)) with false.
    + rewrite IH by assumption. f_equal. cbn [length]. lia.
    + symmetry. unfold endOfData. cbn [app CRLF lit map list_ascii_of_string].
      cbn [Str.startsWith]. destruct (CR =? c); [|reflexivity]. cbn [andb].
      destruct l as [|d l].
      * destruct t as [|x t]; [reflexivity|]. cbn [app headIs] in *.
        apply Z.eqb_eq in Ht. subst x. reflexivity.
      * cbn [app]. cbn [noLF forallb] in Hl. apply andb_true_iff in Hl as [Hd _].
        rewrite (Z.eqb_sym LF d). apply negb_true_iff in Hd. now rewrite Hd.
Qed.

(** Nor is there one at the CRLF before a stuffed line. *)
Lemma startsWith_stuffed (l t : jsstring) :
  headIs CR t = true ->
  Str.startsWith endOfData (CRLF ++ stuffLine l ++ t) = false.
Proof.
  intros Ht. unfold endOfData, stuffLine.
  cbn [app CRLF lit map list_ascii_of_string Str.startsWith].
  rewrite !Z.eqb_refl. cbn [andb].
  destruct l as [|c l].
  - cbn [headIs app]. destruct t as [|x t]; [reflexivity|].
    cbn [headIs] in Ht. apply Z.eqb_eq in Ht. subst x. reflexivity.
  - cbn [headIs]. destruct (c =? DOT) eqn:E.
    + apply Z.eqb_eq in E. subst c. reflexivity.
    + cbn [app Str.startsWith]. rewrite Z.eqb_sym.
      change (Z.of_nat (nat_of_ascii "."%char)) with DOT. now rewrite E.
Qed.

Lemma headIs_rest (ls : list jsstring) :
  headIs CR (flat_map (fun l => CRLF ++ l) ls ++ endOfData) = true.
Proof. now destruct ls. Qed.

Lemma indexOfFrom_lines (ls : list jsstring) :
  forall i : Z,
    forallb noLF ls = true ->
    Str.indexOfFrom endOfData
      (flat_map (fun l => CRLF ++ l) (map stuffLine ls) ++ endOfData) i
    = i + Z.of_nat (length (flat_map (fun l => CRLF ++ l) (map stuffLine ls))).
Proof.
  induction ls as [|l ls IH]; intros i Hls.
  - change (Str.indexOfFrom endOfData
              (flat_map (fun l => CRLF ++ l) (map stuffLine []) ++ endOfData) i)
      with i.
    cbn [map flat_map length]. lia.
  - cbn [forallb] in Hls. apply andb_true_iff in Hls as [Hl Hls].
    cbn [map flat_map]. rewrite <- !app_assoc.
    pose proof (headIs_rest (map stuffLine ls)) as Ht.
    set (t := flat_map (fun l => CRLF ++ l) (map stuffLine ls) ++ endOfData) in *.
    pose proof (startsWith_stuffed l t Ht) as Hs.
    change (CRLF ++ stuffLine l ++ t) with (CR :: LF :: stuffLine l ++ t) in *.
    cbn [Str.indexOfFrom]. rewrite Hs.
    replace (Str.startsWith endOfData (LF :: stuffLine l ++ t)) with false
      by reflexivity.
    rewrite indexOfFrom_line by auto using noLF_stuffLine.
    unfold t. rewrite IH by assumption.
    rewrite !length_app. cbn [length CRLF]. lia.
Qed.

Lemma stuffLine_not_dot (l : jsstring) : stuffLine l <> [DOT].
Proof.
  unfold stuffLine. destruct l as [|c l]; [discriminate|]. cbn [headIs].
  destruct (c =? DOT) eqn:E; [discriminate|].
  intros [= -> _]. discriminate.
Qed.

(** The server sees the data end where [send] means it to: what is
    written after DATA is lines free of LF joined by CRLF, then the final
    CRLF, dot, CRLF; none of those lines is a dot alone, and the first
    CRLF, dot, CRLF of the whole is the final one. *)
Theorem data_ends_where_the_document_ends (env : Env) (msg : message) :
  exists ls,
    payload env msg = Str.join CRLF ls ++ endOfData
    /\ forallb noLF ls = true
    /\ Forall (fun l => l <> [DOT]) ls
    /\ Str.indexOf endOfData (payload env msg)
       = Z.of_nat (length (Str.join CRLF ls)).
Proof.
  unfold payload, normalize, Str.replaceAll.
  destruct (normalize_fuel_document (length (Mime.buildMime env msg))
                                    (Mime.buildMime env msg))
    as (l0 & ls & Hd & Hlf & Hhead).
  destruct (Hlf (le_n _)) as [H0 Hls].
  specialize (Hhead 70 eq_refl eq_refl (buildMime_head env msg)).
  exists (l0 :: map stuffLine ls).
  rewrite Hd, dotStuff_document, join_document by assumption.
  split; [reflexivity|]. split; [|split].
  - cbn [forallb]. rewrite H0. cbn [andb].
    clear - Hls. induction ls as [|l ls IH]; [reflexivity|].
    cbn [forallb map] in *. apply andb_true_iff in Hls as [Hl Hls].
    now rewrite noLF_stuffLine, IH.
  - constructor.
    + intros ->. discriminate.
    + clear. induction ls as [|l ls IH]; constructor; auto using stuffLine_not_dot.
  - unfold Str.indexOf, document. rewrite <- app_assoc.
    rewrite indexOfFrom_line by auto using headIs_rest.
    rewrite indexOfFrom_lines by assumption.
    rewrite length_app. lia.
Qed.

End TerminatorFacts.

(** ** Line ends, once normalized *)

Module NormalizeFacts.
Import DotStuffFacts DocumentFacts.

Lemma matchEol_plain (c : Z) (s : jsstring) :
  (c =? LF) = false -> headIs LF s = false -> Re.matchEol (c :: s) = None.
Proof.
  intros Hc Hs. unfold Re.matchEol. cbn [Str.startsWith].
  rewrite (eqb_sym_false _ _ Hc). cbn [andb].
  destruct s as [|y s]; [now rewrite andb_false_r|].
  simpl in Hs. rewrite (eqb_sym_false _ _ Hs). now rewrite andb_false_r.
Qed.

Lemma headIs_LF_document (l0 : jsstring) (ls : list jsstring) :
  noLF l0 = true -> headIs LF (document l0 ls) = false.
Proof.
  intros H0. destruct l0 as [|y l0].
  - now apply headIs_document_nil.
  - simpl in H0. apply andb_true_iff in H0 as [Hy _].
    now apply negb_true_iff in Hy.
Qed.

(** A document of lines free of LF joined by CRLF is left as it is. *)
Lemma normalize_document (ls : list jsstring) :
  forall l0 : jsstring,
    noLF l0 = true -> forallb noLF ls = true ->
    normalize (document l0 ls) = document l0 ls.
Proof.
  unfold normalize.
  induction ls as [|l ls IHls]; intros l0; induction l0 as [|c l0 IHl0];
    intros H0 Hls.
  - reflexivity.
  - simpl in H0. apply andb_true_iff in H0 as [Hc H0].
    apply negb_true_iff in Hc.
    change (document (c :: l0) []) with (c :: document l0 []).
    rewrite replaceAll_skip, (IHl0 H0 Hls); [reflexivity|].
    apply matchEol_plain; [exact Hc|]. now apply headIs_LF_document.
  - simpl in Hls. apply andb_true_iff in Hls as [Hl Hls].
    change (document [] (l :: ls)) with (CR :: LF :: document l ls).
    rewrite (replaceAll_match _ _ _ 2 matchEol_sound) by reflexivity.
    change (skipn 2 (CR :: LF :: document l ls)) with (document l ls).
    now rewrite (IHls l Hl Hls).
  - simpl in H0. apply andb_true_iff in H0 as [Hc H0].
    apply negb_true_iff in Hc.
    change (document (c :: l0) (l :: ls)) with (c :: document l0 (l :: ls)).
    rewrite replaceAll_skip, (IHl0 H0 Hls); [reflexivity|].
    apply matchEol_plain; [exact Hc|]. now apply headIs_LF_document.
Qed.

(** Normalizing the line ends a second time changes nothing: in what
    [normalize] gives, every LF has its CR before it already. *)
Theorem normalize_idempotent (raw : jsstring) :
  normalize (normalize raw) = normalize raw.
Proof.
  unfold normalize at 2 3. unfold Str.replaceAll.
  destruct (normalize_fuel_document (length raw) raw) as (l0 & ls & Hd & Hlf & _).
  destruct (Hlf (le_n _)) as [H0 Hls].
  rewrite Hd. now apply normalize_document.
Qed.

End NormalizeFacts.

(** ** Base64 *)

Module Base64Facts.
Import LineReaderFacts.

Lemma inRange_spec (lo hi b : Z) :
  Utf8.inRange lo hi b = true <-> lo <= b <= hi.
Proof. unfold Utf8.inRange. rewrite andb_true_iff, !Z.leb_le. tauto. Qed.

Lemma codeUnit_spec (c : Z) : codeUnit c = true <-> 0 <= c <= 65535.
Proof. unfold codeUnit. rewrite andb_true_iff, !Z.leb_le. tauto. Qed.

Lemma isByte_spec (b : Z) : isByte b = true <-> 0 <= b <= 255.
Proof. unfold isByte. rewrite andb_true_iff, !Z.leb_le. tauto. Qed.

Lemma codePoints_two (c c2 : Z) (s : jsstring) :
  Utf8.codePoints (c :: c2 :: s)
  = if Utf8.isHighSurrogate c && Utf8.isLowSurrogate c2
    then (65536 + (c - 55296) * 1024 + (c2 - 56320)) :: Utf8.codePoints s
    else (if Utf8.isHighSurrogate c || Utf8.isLowSurrogate c
          then Utf8.REPLACEMENT else c) :: Utf8.codePoints (c2 :: s).
Proof. reflexivity. Qed.

(** The code points of a string are Unicode scalar values. *)
Lemma codePoints_range (n : nat) :
  forall s : jsstring,
    (length s <= n)%nat -> forallb codeUnit s = true ->
    Forall (fun cp => 0 <= cp <= 1114111) (Utf8.codePoints s).
Proof.
  induction n as [|n IH]; intros s Hn Hs.
  - destruct s; [constructor|simpl in Hn; lia].
  - destruct s as [|c s]; [constructor|].
    cbn [forallb] in Hs. apply andb_true_iff in Hs as [Hc Hs].
    apply codeUnit_spec in Hc. cbn [length] in Hn.
    assert (Hone : 0 <= (if Utf8.isHighSurrogate c || Utf8.isLowSurrogate c
                         then Utf8.REPLACEMENT else c) <= 1114111).
    { destruct (_ || _); unfold Utf8.REPLACEMENT; lia. }
    destruct s as [|c2 s]; [cbn [Utf8.codePoints]; repeat constructor; lia|].
    rewrite codePoints_two.
    destruct (Utf8.isHighSurrogate c && Utf8.isLowSurrogate c2) eqn:E.
    + apply andb_true_iff in E as [E1 E2].
      apply inRange_spec in E1. apply inRange_spec in E2.
      cbn [forallb] in Hs. apply andb_true_iff in Hs as [_ Hs].
      cbn [length] in Hn.
      constructor; [lia|]. apply IH; [lia|exact Hs].
    + constructor; [exact Hone|]. apply IH; [lia|exact Hs].
Qed.

Lemma shiftr_bounds (x k bound : Z) :
  0 <= k -> 0 <= x < bound * 2 ^ k -> 0 <= Z.shiftr x k < bound.
Proof.
  intros Hk Hx. rewrite Z.shiftr_div_pow2 by exact Hk.
  assert (0 < 2 ^ k) by (apply Z.pow_pos_nonneg; lia).
  split; [apply Z.div_pos; lia|apply Z.div_lt_upper_bound; lia].
Qed.

Lemma land63_bounds (x : Z) : 0 <= Z.land x 63 < 64.
Proof.
  change 63 with (Z.ones 6). rewrite Z.land_ones by lia.
  apply Z.mod_pos_bound. reflexivity.
Qed.

Lemma encodeCodePoint_bytes (cp : Z) :
  0 <= cp <= 1114111 -> forallb isByte (Utf8.encodeCodePoint cp) = true.
Proof.
  intros Hcp. unfold Utf8.encodeCodePoint.
  pose proof (land63_bounds cp).
  pose proof (land63_bounds (Z.shiftr cp 6)).
  pose proof (land63_bounds (Z.shiftr cp 12)).
  destruct (Z.ltb_spec cp 128); [|destruct (Z.ltb_spec cp 2048);
    [|destruct (Z.ltb_spec cp 65536)]];
    cbn [forallb]; rewrite ?andb_true_iff, ?isByte_spec; repeat split; try lia.
  - pose proof (shiftr_bounds cp 6 32 ltac:(lia) ltac:(lia)). lia.
  - pose proof (shiftr_bounds cp 6 32 ltac:(lia) ltac:(lia)). lia.
  - pose proof (shiftr_bounds cp 12 16 ltac:(lia) ltac:(lia)). lia.
  - pose proof (shiftr_bounds cp 12 16 ltac:(lia) ltac:(lia)). lia.
  - pose proof (shiftr_bounds cp 18 5 ltac:(lia) ltac:(lia)). lia.
  - pose proof (shiftr_bounds cp 18 5 ltac:(lia) ltac:(lia)). lia.
Qed.

Lemma fromString_bytes (s : jsstring) :
  forallb codeUnit s = true -> forallb isByte (Utf8.fromString s) = true.
Proof.
  intros Hs. unfold Utf8.fromString.
  pose proof (codePoints_range (length s) s (le_n _) Hs) as H.
  induction H as [|cp cps Hcp _ IH]; [reflexivity|].
  cbn [flat_map]. rewrite forallb_app, IH, encodeCodePoint_bytes; auto.
Qed.

Lemma digit_char (k : Z) : 0 <= k < 64 -> base64Char (Base64.digit k) = true.
Proof.
  intros Hk. unfold Base64.digit.
  assert (H : forallb (fun n => base64Char (nth n Base64.alphabet 0)) (seq 0 64) = true)
    by (vm_compute; reflexivity).
  rewrite forallb_forall in H. apply H. apply in_seq. lia.
Qed.

Lemma pad_char : base64Char Base64.PAD = true.
Proof. reflexivity. Qed.

(** Bytes in, characters of the alphabet and padding out, four for every
    three bytes begun. *)
Lemma encode_chars (n : nat) :
  forall bs : bytes,
    (length bs <= n)%nat -> forallb isByte bs = true ->
    forallb base64Char (Base64.encode bs) = true
    /\ Nat.divide 4 (length (Base64.encode bs)).
Proof.
  induction n as [|n IH]; intros bs Hn Hbs.
  - destruct bs; [|simpl in Hn; lia]. split; [reflexivity|exists 0%nat; reflexivity].
  - destruct bs as [|a [|b [|c rest]]]; cbn [forallb] in Hbs;
      rewrite ?andb_true_iff, ?isByte_spec in Hbs.
    + split; [reflexivity|exists 0%nat; reflexivity].
    + destruct Hbs as [Ha _]. cbn [Base64.encode]. cbv zeta. split.
      * cbn [forallb]. rewrite pad_char.
        rewrite !digit_char; [reflexivity|apply land63_bounds|].
        apply shiftr_bounds; lia.
      * exists 1%nat. reflexivity.
    + destruct Hbs as [Ha [Hb _]]. cbn [Base64.encode]. cbv zeta. split.
      * cbn [forallb]. rewrite pad_char.
        rewrite !digit_char; [reflexivity|apply land63_bounds|apply land63_bounds|].
        apply shiftr_bounds; lia.
      * exists 1%nat. reflexivity.
    + destruct Hbs as [Ha [Hb [Hc Hrest]]]. cbn [length] in Hn.
      destruct (IH rest ltac:(lia) Hrest) as [IH1 [k IH2]].
      cbn [Base64.encode]. cbv zeta. split.
      * cbn [forallb]. rewrite IH1.
        rewrite !digit_char;
          [reflexivity|apply land63_bounds|apply land63_bounds|apply land63_bounds|].
        apply shiftr_bounds; lia.
      * exists (S k). cbn [length]. rewrite IH2. lia.
Qed.

(** [base64] of a string is made of the 64 characters of the alphabet and
    of [=], and its length is a multiple of four. *)
Theorem base64_alphabet (str : jsstring) :
  forallb codeUnit str = true ->
  forallb base64Char (base64 str) = true
  /\ Nat.divide 4 (length (base64 str)).
Proof.
  intros Hs. unfold base64.
  apply (encode_chars (length (Utf8.fromString str))); [apply le_n|].
  now apply fromString_bytes.
Qed.

Lemma base64_alphabet_witness :
  forallb codeUnit (lit "us" ++ [233; 13; 10; 55357; 56832]) = true
  /\ (forallb base64Char (base64 (lit "us" ++ [233; 13; 10; 55357; 56832])) = true
      /\ Nat.divide 4 (length (base64 (lit "us" ++ [233; 13; 10; 55357; 56832])))).
Proof.
  exact (conj eq_refl
           (base64_alphabet (lit "us" ++ [233; 13; 10; 55357; 56832]) eq_refl)).
Defined.

Lemma base64Char_not_CR (c : Z) : base64Char c = true -> (c =? CR) = false.
Proof.
  intros H. destruct (c =? CR) eqn:E; [|reflexivity].
  apply Z.eqb_eq in E. subst c. discriminate.
Qed.

Lemma cut_no_CR (p : jsstring) :
  noCR p = true -> cut (p ++ CRLF) = Some (p, []).
Proof.
  induction p as [|c p IH]; intros H; [reflexivity|].
  cbn [noCR forallb] in H. apply andb_true_iff in H as [Hc Hp].
  apply negb_true_iff in Hc.
  change ((c :: p) ++ CRLF) with (c :: (p ++ CRLF)).
  cbn [cut]. rewrite (IH Hp).
  replace (Str.startsWith CRLF (c :: p ++ CRLF)) with false; [reflexivity|].
  symmetry. unfold CRLF at 1. cbn [Str.startsWith]. now rewrite Z.eqb_sym, Hc.
Qed.

Lemma base64_no_CR (str : jsstring) :
  forallb codeUnit str = true -> noCR (base64 str) = true.
Proof.
  intros Hs. unfold base64, noCR.
  destruct (encode_chars _ _ (le_n _) (fromString_bytes str Hs)) as [H _].
  rewrite forallb_forall in *. intros c Hc.
  now rewrite (base64Char_not_CR c (H c Hc)).
Qed.

(** The credentials cannot break out of their command: whatever [user]
    and [pass] hold, a CRLF too, the command of AUTH PLAIN is one line and
    so is each answer of AUTH LOGIN. *)
Theorem auth_commands_are_single_lines (cfg : config) :
  forallb codeUnit (render (user cfg)) = true ->
  forallb codeUnit (render (pass cfg)) = true ->
  cut (authPlainCommand cfg)
  = Some (lit "AUTH PLAIN "
          ++ base64 ([0] ++ render (user cfg) ++ [0] ++ render (pass cfg)), [])
  /\ map cut (authLoginAnswers cfg)
     = [Some (base64 (render (user cfg)), []); Some (base64 (render (pass cfg)), [])].
Proof.
  intros Hu Hp. split.
  - unfold authPlainCommand. rewrite app_assoc. apply cut_no_CR.
    unfold noCR. rewrite forallb_app. apply andb_true_iff. split; [reflexivity|].
    apply base64_no_CR. cbn [app forallb]. rewrite forallb_app, Hu.
    cbn [forallb andb]. exact Hp.
  - unfold authLoginAnswers. cbn [map].
    now rewrite !cut_no_CR by now apply base64_no_CR.
Qed.

Lemma auth_commands_are_single_lines_witness :
  forallb codeUnit (render (user Cases.oddCredentials)) = true
  /\ forallb codeUnit (render (pass Cases.oddCredentials)) = true
  /\ (cut (authPlainCommand Cases.oddCredentials)
      = Some (lit "AUTH PLAIN "
              ++ base64 ([0] ++ render (user Cases.oddCredentials) ++ [0]
                         ++ render (pass Cases.oddCredentials)), [])
      /\ map cut (authLoginAnswers Cases.oddCredentials)
         = [Some (base64 (render (user Cases.oddCredentials)), []);
            Some (base64 (render (pass Cases.oddCredentials)), [])]).
Proof.
  exact (conj eq_refl
           (conj eq_refl
              (auth_commands_are_single_lines Cases.oddCredentials eq_refl eq_refl))).
Defined.

End Base64Facts.

(** ** The document of buildMime *)

Module MimeFacts.
Import DotStuffFacts.

Lemma fold_left_parts {A : Type} (g : A -> jsstring) (l : list A) :
  forall init : jsstring,
    fold_left (fun acc a => acc ++ g a) l init = init ++ concat (map g l).
Proof.
  induction l as [|a l IH]; intros init.
  - simpl. now rewrite app_nil_r.
  - simpl. now rewrite IH, <- app_assoc.
Qed.

(** Two headers in a row, somewhere behind the first one. *)
Lemma joinHeaders_around (hs1 hs2 : list (jsstring * option jsstring))
      (k1 k2 : jsstring) (v1 v2 : option jsstring) :
  hs1 <> [] ->
  Mime.joinHeaders (hs1 ++ (k1, v1) :: (k2, v2) :: hs2)
  = Mime.joinHeaders hs1
    ++ CRLF ++ k1 ++ lit ": " ++ render v1
    ++ CRLF ++ k2 ++ lit ": " ++ render v2
    ++ flat_map (fun l => CRLF ++ l)
                (map (fun kv => fst kv ++ lit ": " ++ render (snd kv)) hs2).
Proof.
  intros H. destruct hs1 as [|h hs1]; [congruence|].
  unfold Mime.joinHeaders. cbn [map app]. rewrite !join_document. unfold document.
  rewrite map_app, flat_map_app. cbn [map flat_map fst snd].
  rewrite <- !app_assoc. reflexivity.
Qed.

(** The document begins with the joined headers, whatever comes after. *)
Lemma buildMime_headers (env : Env) (msg : message) :
  exists hs1 hs2 rest,
    Mime.buildMime env msg
    = Mime.joinHeaders
        (hs1 ++ Mime.optionalHeader (lit "Bcc") (Mime.ccList (bcc msg))
             ++ (lit "Subject", Some (nullish (subject msg))) :: hs2)
      ++ rest
    /\ hs1 <> [].
Proof.
  exists ([(lit "From", from msg); (lit "To", Mime.toList (to msg))]
          ++ Mime.optionalHeader (lit "Cc") (Mime.ccList (cc msg))).
  unfold Mime.buildMime. cbv zeta.
  rewrite (app_assoc [_; _] (Mime.optionalHeader (lit "Cc") _)).
  destruct (attachments msg) as [|att atts].
  - eexists _, _. split; [reflexivity|discriminate].
  - rewrite fold_left_parts, <- !app_assoc.
    eexists _, _. split; [reflexivity|discriminate].
Qed.

Lemma ccList_joined (v : addresses) :
  (joined v <> [] -> truthy (Mime.ccList v) = true
                     /\ render (Mime.ccList v) = joined v)
  /\ (joined v = [] -> truthy (Mime.ccList v) = false).
Proof.
  destruct v as [|a|l]; cbn [joined Mime.ccList].
  - split; [congruence|reflexivity].
  - destruct a as [|c a]; cbn [truthy render]; split;
      congruence || discriminate || auto.
  - destruct (Str.join (lit ", ") l) as [|c a]; cbn [truthy render]; split;
      congruence || discriminate || auto.
Qed.

(** A blind copy is not blind.  When the addresses of [bcc], as a header
    shows them, are not the empty text, the document that goes to every
    recipient carries a [Bcc] header with them, right before the [Subject]
    header.  When they are the empty text ([bcc] is absent, the empty
    string, the empty array or the array of the empty string), the
    document is the one of the message with no [bcc] at all. *)
Theorem bcc_header_is_sent (env : Env) (msg : message) :
  (joined (bcc msg) <> [] ->
   exists before rest,
     Mime.buildMime env msg
     = before ++ CRLF ++ lit "Bcc: " ++ joined (bcc msg)
       ++ CRLF ++ lit "Subject: " ++ rest)
  /\ (joined (bcc msg) = [] ->
      Mime.buildMime env msg = Mime.buildMime env (withoutBcc msg)).
Proof.
  split; intros Hj.
  - destruct (proj1 (ccList_joined (bcc msg)) Hj) as [Hb <-].
    destruct (buildMime_headers env msg) as (hs1 & hs2 & rest & -> & Hhs).
    unfold Mime.optionalHeader. rewrite Hb. cbn [app].
    rewrite joinHeaders_around by exact Hhs.
    rewrite <- !app_assoc.
    exists (Mime.joinHeaders hs1). eexists. reflexivity.
  - pose proof (proj2 (ccList_joined (bcc msg)) Hj) as Hb.
    unfold Mime.buildMime, withoutBcc.
    cbn [from to cc bcc subject text html attachments].
    unfold Mime.optionalHeader at 2 4 6 8. rewrite Hb. reflexivity.
Qed.

Lemma bcc_header_is_sent_witness :
  joined (bcc Cases.withBcc) <> []
  /\ (exists before rest,
        Mime.buildMime Scenario.env Cases.withBcc
        = before ++ CRLF ++ lit "Bcc: " ++ lit "c@z, d@w"
          ++ CRLF ++ lit "Subject: " ++ rest)
  /\ joined (bcc Cases.emptyBcc) = []
  /\ Mime.buildMime Scenario.env Cases.emptyBcc
     = Mime.buildMime Scenario.env (withoutBcc Cases.emptyBcc).
Proof.
  assert (H : joined (bcc Cases.withBcc) <> []) by discriminate.
  exact (conj H
           (conj (proj1 (bcc_header_is_sent Scenario.env Cases.withBcc) H)
              (conj eq_refl
                 (proj2 (bcc_header_is_sent Scenario.env Cases.emptyBcc) eq_refl)))).
Defined.



End MimeFacts.

(** ** The place of the upgrade *)

Module UpgradeFacts.
Import SessionFacts PathFacts.

Section Order.

Variable cfg : config.

Lemma plainOnly_order (w : world) : plainOnly w -> handshakeOrder cfg (trace w).
Proof. intros [_ H]. now left. Qed.

Lemma upgraded_order (w : world) :
  upgradedAfter220 cfg w -> handshakeOrder cfg (trace w).
Proof.
  intros (_ & t0 & ls & t3 & E & H0 & H3). right.
  exists t0, ls, (Wrote Secured (ehloCommand cfg) :: t3).
  repeat split; auto. right. now exists t3.
Qed.

Lemma settledPath_order (w : world) : settledPath cfg w -> handshakeOrder cfg (trace w).
Proof. intros [H|H]; [now apply plainOnly_order|now apply upgraded_order]. Qed.

Lemma upgraded_grows (w w' : world) (t : list io) :
  rebound w' = rebound w -> trace w' = trace w ++ t ->
  allVia Secured t = true -> upgradedAfter220 cfg w -> upgradedAfter220 cfg w'.
Proof.
  intros Hr Ht Hv (Hb & t0 & ls & t3 & E & H0 & H3).
  split; [congruence|]. exists t0, ls, (t3 ++ t). repeat split; auto.
  - rewrite Ht, E. cbn [goAhead app]. rewrite <- !app_assoc. reflexivity.
  - now rewrite allVia_app, H3, Hv.
Qed.

Lemma settledPath_grows (w w' : world) (t : list io) :
  rebound w' = rebound w -> trace w' = trace w ++ t ->
  allVia (active w) t = true -> settledPath cfg w -> settledPath cfg w'.
Proof.
  intros Hr Ht Hv [H|H].
  - left. apply (plainOnly_grows w w' t); auto.
    destruct H as [Hb _]. unfold active in Hv. now rewrite Hb in Hv.
  - right. apply (upgraded_grows w w' t); auto.
    destruct H as [Hb _]. unfold active in Hv. now rewrite Hb in Hv.
Qed.

Lemma settledPath_write (data : jsstring) : keeps (settledPath cfg) (write data).
Proof.
  intros w o w' Hw [= <- <-].
  apply (settledPath_grows w _ [Wrote (active w) data]); auto.
  cbn. now rewrite sameEmitter_refl.
Qed.

Lemma settledPath_readResponse : keeps (settledPath cfg) readResponse.
Proof.
  intros w o w' Hw H. apply readResponse_trace in H as [Ht Hr].
  apply (settledPath_grows w w' (received o)); auto using received_fits.
Qed.

Lemma settledPath_socketEnd : keeps (settledPath cfg) socketEnd.
Proof.
  intros w o w' Hw [= <- <-].
  apply (settledPath_grows w _ [Ended]); auto.
Qed.

Lemma startTls_order (env : Env) (resp : response) :
  triple plainOnly (startTls env cfg resp) (afterStartTls cfg).
Proof.
  intros w o w' Hw H. unfold startTls in H.
  destruct (negb (secure cfg) && supportsStartTLS env resp);
    [|injection H as <- <-; now left].
  pose proof Hw as [Hb Hv].
  rewrite run_bind in H. cbn [write] in H.
  assert (Ha : active w = Original) by (unfold active; now rewrite Hb).
  rewrite Ha in H. fold startTlsCommand in H.
  set (w0 := logged (Wrote Original startTlsCommand) w) in *.
  assert (H0 : plainOnly w0) by (apply plainOnly_logged; auto).
  rewrite run_bind in H.
  destruct (readResponse w0) as [[r1|e1|] w1] eqn:E1;
    pose proof (plainOnly_readResponse _ _ _ H0 E1) as H1;
    try (injection H as <- <-; now apply plainOnly_order).
  apply readResponse_trace in E1 as [Ht1 Hr1].
  rewrite run_bind in H. unfold unless, okReply in H.
  destruct (respCode r1 =? 220) eqn:Ec;
    [|injection H as <- <-; now apply plainOnly_order].
  apply Z.eqb_eq in Ec. cbn [ret] in H.
  rewrite run_bind in H.
  destruct (upgrade w1) as [o2 w2] eqn:E2.
  apply upgrade_trace in E2 as [Ht2 Hr2].
  assert (Hshape : trace w2 = trace w ++ goAhead (respLines r1)).
  { rewrite Ht2, Ht1. unfold w0. cbn [logged trace received goAhead].
    rewrite Ec, <- !app_assoc. reflexivity. }
  assert (Hpending : handshakeOrder cfg (trace w2)).
  { right. exists (trace w), (respLines r1), []. rewrite app_nil_r. auto. }
  destruct o2 as [[]|e2|]; try (injection H as <- <-; exact Hpending).
  rewrite run_bind in H. cbn [write] in H.
  assert (Ha2 : active w2 = Secured) by (unfold active; now rewrite Hr2).
  rewrite Ha2 in H. fold (ehloCommand cfg) in H.
  set (w3 := logged (Wrote Secured (ehloCommand cfg)) w2) in *.
  assert (H3 : upgradedAfter220 cfg w3).
  { split; [exact Hr2|]. exists (trace w), (respLines r1), [].
    unfold w3. cbn [logged trace]. rewrite Hshape, <- app_assoc. auto. }
  rewrite run_bind in H.
  destruct (readResponse w3) as [o4 w4] eqn:E4.
  assert (H4 : upgradedAfter220 cfg w4).
  { apply readResponse_trace in E4 as [Ht4 Hr4].
    apply (upgraded_grows w3 w4 (received o4)); auto using received_fits. }
  destruct o4 as [r4|e4|]; try (injection H as <- <-; now apply upgraded_order).
  unfold bind, unless in H.
  destruct (respCode r4 =? 250); unfold ret, throw in H; cbv beta iota in H;
    injection H as <- <-.
  - now right.
  - now apply upgraded_order.
Qed.

(** Rules to go along [send]. *)
Lemma before_upgrade {A B : Type} (Q : outcome B -> world -> Prop)
      (m : M A) (k : A -> M B) :
  keeps plainOnly m ->
  (forall w e, plainOnly w -> Q (Thrown e) w) ->
  (forall w, plainOnly w -> Q Pending w) ->
  (forall x, triple plainOnly (k x) Q) ->
  triple plainOnly (bind m k) Q.
Proof. intros. now apply triple_bind with (R := plainOnly). Qed.

Lemma at_upgrade {A B : Type} (Q : outcome B -> world -> Prop)
      (m : M A) (k : A -> M B) :
  triple plainOnly m (afterStartTls cfg) ->
  (forall w e, handshakeOrder cfg (trace w) -> Q (Thrown e) w) ->
  (forall w, handshakeOrder cfg (trace w) -> Q Pending w) ->
  (forall x, triple (settledPath cfg) (k x) Q) ->
  triple plainOnly (bind m k) Q.
Proof.
  intros Hm He Hp Hk w o w' Hw H. unfold bind in H.
  destruct (m w) as [[x|e|] w1] eqn:E; pose proof (Hm _ _ _ Hw E) as H1.
  - exact (Hk x _ _ _ H1 H).
  - injection H as <- <-. now apply He.
  - injection H as <- <-. now apply Hp.
Qed.

Lemma session_order (env : Env) (msg : message) :
  triple plainOnly (session env cfg msg) (afterStartTls cfg).
Proof.
  unfold session.
  apply before_upgrade;
    [apply plainOnly_connect|intros; now apply plainOnly_order..|intros ?].
  apply before_upgrade;
    [apply keeps_banner; auto using plainOnly_write, plainOnly_readResponse
    |intros; now apply plainOnly_order..|intros ?].
  apply before_upgrade;
    [apply keeps_greet; auto using plainOnly_write, plainOnly_readResponse
    |intros; now apply plainOnly_order..|intros ?].
  apply at_upgrade; [apply startTls_order|auto..|intros resp'].
  intros w o w' Hw H.
  assert (K : keeps (settledPath cfg) (authenticate cfg resp' ;; mailFrom msg)).
  { apply keeps_bind; [|intros ?].
    - apply keeps_authenticate;
        auto using settledPath_write, settledPath_readResponse.
    - apply keeps_mailFrom; auto using settledPath_write, settledPath_readResponse. }
  pose proof (K _ _ _ Hw H) as H1.
  destruct o; cbn [afterStartTls]; auto using settledPath_order.
Qed.

Lemma send_order (env : Env) (msg : message) :
  triple plainOnly (send env cfg msg) (fun _ w => handshakeOrder cfg (trace w)).
Proof.
  unfold send. cbv zeta.
  apply before_upgrade;
    [apply keeps_unless|intros; now apply plainOnly_order..|intros ?].
  apply before_upgrade;
    [apply keeps_unless|intros; now apply plainOnly_order..|intros ?].
  apply at_upgrade; [apply session_order|auto..|intros ?].
  intros w o w' Hw H. apply settledPath_order.
  revert w o w' Hw H. change (keeps (settledPath cfg)
    (rcptAll (recipientsOf msg) ;; dataCommand ;; sendBody env msg ;; quit ;;
     socketEnd ;; ret (mkResult true (lit "Enviado")))).
  pose proof settledPath_write. pose proof settledPath_readResponse.
  apply keeps_bind; [apply keeps_rcptAll; assumption|intros ?].
  apply keeps_bind; [apply keeps_dataCommand; assumption|intros ?].
  apply keeps_bind; [apply keeps_sendBody; assumption|intros ?].
  apply keeps_bind; [apply keeps_quit; assumption|intros ?].
  apply keeps_bind; [apply settledPath_socketEnd|intros ?].
  apply keeps_ret.
Qed.

End Order.

(** The socket is upgraded at one place only: right after the server
    answered 220 to a STARTTLS written on the socket as it was opened.
    The next thing written is EHLO, on the TLS socket; nothing is written
    between the reply and the upgrade, and there is no second upgrade. *)
Theorem upgrade_only_after_220
        (env : Env) (cfg : config) (msg : message) (events : list event) :
  handshakeOrder cfg (trace (snd (send env cfg msg (initialWorld events)))).
Proof.
  destruct (send env cfg msg (initialWorld events)) as [o w'] eqn:E.
  assert (H0 : plainOnly (initialWorld events)) by (split; reflexivity).
  exact (send_order cfg env msg _ _ _ H0 E).
Qed.

End UpgradeFacts.

(** ** Addresses in their commands *)

Module AddressFacts.
Import LineReaderFacts.

Lemma cut_behind (p x : jsstring) :
  noCR p = true ->
  cut (p ++ x) = match cut x with
                 | Some (l, r) => Some (p ++ l, r)
                 | None => None
                 end.
Proof.
  induction p as [|c p IH]; intros H.
  - cbn [app]. now destruct (cut x) as [[l r]|].
  - cbn [noCR forallb] in H. apply andb_true_iff in H as [Hc Hp].
    apply negb_true_iff in Hc.
    change ((c :: p) ++ x) with (c :: (p ++ x)). cbn [cut].
    replace (Str.startsWith CRLF (c :: p ++ x)) with false.
    + rewrite (IH Hp). now destruct (cut x) as [[l r]|].
    + symmetry. unfold CRLF. cbn [Str.startsWith]. now rewrite Z.eqb_sym, Hc.
Qed.

Lemma cut_closing (s : jsstring) :
  cut s = None -> cut (s ++ lit ">" ++ CRLF) = Some (s ++ lit ">", []).
Proof.
  induction s as [|c s IH]; intros H; [reflexivity|].
  cbn [cut] in H.
  destruct (Str.startsWith CRLF (c :: s)) eqn:E; [discriminate|].
  destruct (cut s) as [[l r]|] eqn:Ec; [discriminate|].
  change ((c :: s) ++ lit ">" ++ CRLF) with (c :: (s ++ lit ">" ++ CRLF)).
  cbn [cut]. rewrite (IH eq_refl).
  replace (Str.startsWith CRLF (c :: s ++ lit ">" ++ CRLF)) with false;
    [reflexivity|].
  symmetry. destruct s as [|d s].
  - unfold CRLF. cbn. now rewrite andb_false_r.
  - rewrite <- E. reflexivity.
Qed.

(** A command made of a fixed beginning, an address, and [>] with CRLF. *)
Lemma framed (p addr : jsstring) :
  noCR p = true ->
  cut (p ++ addr ++ lit ">" ++ CRLF)
  = match cut addr with
    | Some (l, r) => Some (p ++ l, r ++ lit ">" ++ CRLF)
    | None => Some (p ++ addr ++ lit ">", [])
    end.
Proof.
  intros Hp. rewrite (cut_behind p _ Hp).
  destruct (cut addr) as [[l r]|] eqn:E.
  - now rewrite (cut_app _ _ _ _ E).
  - now rewrite (cut_closing _ E).
Qed.

(** Addresses go into MAIL FROM and RCPT TO as they are given: the command
    is one line exactly when the address holds no CRLF; with a CRLF in the
    address, what follows it reaches the server as the beginning of a next
    line. *)
Theorem addresses_are_written_as_given (msg : message) (rcpt : jsstring) :
  cut (mailFromCommand msg)
  = match cut (render (from msg)) with
    | Some (l, r) => Some (lit "MAIL FROM:<" ++ l, r ++ lit ">" ++ CRLF)
    | None => Some (lit "MAIL FROM:<" ++ render (from msg) ++ lit ">", [])
    end
  /\ cut (rcptCommand rcpt)
     = match cut rcpt with
       | Some (l, r) => Some (lit "RCPT TO:<" ++ l, r ++ lit ">" ++ CRLF)
       | None => Some (lit "RCPT TO:<" ++ rcpt ++ lit ">", [])
       end.
Proof.
  split.
  - unfold mailFromCommand. now apply framed.
  - unfold rcptCommand. now apply framed.
Qed.

End AddressFacts.

(** ** One socket for one message *)

Module SocketFacts.
Import SessionFacts.

Section Adds.

Variable f : io -> bool.
Hypothesis f_wrote : forall via data, f (Wrote via data) = true.
Hypothesis f_received : forall c ls, f (Received c ls) = true.
Hypothesis f_upgraded : f Upgraded = true.

Lemma adds_ret {A : Type} (x : A) : adds f (ret x).
Proof. intros w o w' [= <- <-]. exists []. now rewrite app_nil_r. Qed.

Lemma adds_throw {A : Type} (e : error) : adds f (@throw A e).
Proof. intros w o w' [= <- <-]. exists []. now rewrite app_nil_r. Qed.

Lemma adds_unless (ok : bool) (e : error) : adds f (unless ok e).
Proof. destruct ok; [apply adds_ret|apply adds_throw]. Qed.

Lemma adds_bind {A B : Type} (m : M A) (k : A -> M B) :
  adds f m -> (forall x, adds f (k x)) -> adds f (bind m k).
Proof.
  intros Hm Hk w o w' H. unfold bind in H.
  destruct (m w) as [[x|e|] w1] eqn:E; destruct (Hm _ _ _ E) as (t1 & E1 & F1).
  - destruct (Hk x _ _ _ H) as (t2 & E2 & F2).
    exists (t1 ++ t2). rewrite E2, E1, app_assoc, forallb_app, F1, F2. auto.
  - injection H as <- <-. now exists t1.
  - injection H as <- <-. now exists t1.
Qed.

Lemma adds_write (data : jsstring) : adds f (write data).
Proof.
  intros w o w' [= <- <-]. exists [Wrote (active w) data].
  cbn. now rewrite f_wrote.
Qed.

Lemma adds_readResponse : adds f readResponse.
Proof.
  intros w o w' H. apply readResponse_trace in H as [Ht _].
  exists (received o). split; [exact Ht|].
  destruct o; cbn; now rewrite ?f_received.
Qed.

Lemma adds_upgrade : adds f upgrade.
Proof.
  intros w o w' H. apply upgrade_trace in H as [Ht _].
  exists [Upgraded]. cbn. now rewrite f_upgraded.
Qed.

Ltac adds_steps :=
  repeat first
    [ apply adds_ret
    | apply adds_throw
    | apply adds_unless
    | apply adds_write
    | apply adds_readResponse
    | apply adds_upgrade
    | match goal with H : _ |- _ => apply H end
    | apply adds_bind; [|intros ?]
    | match goal with
      | |- adds _ (if ?c then _ else _) => destruct c
      end
    | progress (unfold banner, greet, startTls, authenticate, authPlain,
                authLogin, mailFrom, dataCommand, sendBody, quit;
                cbv zeta) ].

Lemma adds_rcptAll (recipients : list jsstring) : adds f (rcptAll recipients).
Proof.
  induction recipients as [|rcpt rest IH]; cbn [rcptAll]; adds_steps.
Qed.

(** [send] behind its two checks and the opening of the socket. *)
Lemma adds_conversation (env : Env) (cfg : config) (msg : message) (r : result) :
  f Ended = true ->
  adds f ((banner ;;
           (resp <- greet cfg ;;
            resp' <- startTls env cfg resp ;;
            authenticate cfg resp' ;;
            mailFrom msg)) ;;
          rcptAll (recipientsOf msg) ;;
          dataCommand ;;
          sendBody env msg ;;
          quit ;;
          socketEnd ;;
          ret r).
Proof.
  intros f_ended.
  assert (Hend : adds f socketEnd).
  { intros w o w' [= <- <-]. exists [Ended]. cbn. now rewrite f_ended. }
  pose proof (adds_rcptAll (recipientsOf msg)).
  adds_steps.
Qed.

End Adds.

(** Past its two checks [send] opens one socket, to the host and port of
    the configuration and with TLS if [secure] says so, before it does
    anything else; and it never opens another. *)
Theorem send_opens_one_socket
        (env : Env) (cfg : config) (msg : message)
        (w : world) (o : outcome result) (w' : world) :
  truthy (from msg) = true -> recipientsOf msg <> [] ->
  send env cfg msg w = (o, w') ->
  exists t,
    trace w' = trace w ++ Connected (secure cfg) (port cfg) (host cfg) :: t
    /\ existsb isConnected t = false.
Proof.
  intros Hfrom Hrcpts. unfold send. rewrite Hfrom.
  destruct (recipientsOf msg) as [|r rs] eqn:E; [congruence|].
  cbn [length Nat.eqb negb unless].
  rewrite run_bind. cbn [ret]. rewrite run_bind. cbn [ret].
  unfold session.
  change ((connect cfg ;; ?m) ;; ?k)
    with (fun w0 => (m ;; k) (logged (Connected (secure cfg) (port cfg) (host cfg)) w0)).
  cbv beta. rewrite <- E. intros H.
  destruct (adds_conversation notConnected
              ltac:(reflexivity) ltac:(reflexivity) ltac:(reflexivity)
              env cfg msg _ eq_refl _ _ _ H) as (t & Ht & Hf).
  exists t. split.
  - rewrite Ht. cbn [logged trace]. now rewrite <- app_assoc.
  - clear - Hf. induction t as [|e t IH]; [reflexivity|].
    cbn [forallb existsb] in *. apply andb_true_iff in Hf as [He Ht].
    unfold notConnected in He. apply negb_true_iff in He.
    now rewrite He, IH.
Qed.

Lemma send_opens_one_socket_witness :
  truthy (from Scenario.toThree) = true
  /\ recipientsOf Scenario.toThree <> []
  /\ exists t,
       trace (snd (send Scenario.env Cases.tlsClient Scenario.toThree
                        (initialWorld Scenario.secondRefused)))
       = trace (initialWorld Scenario.secondRefused)
         ++ Connected (secure Cases.tlsClient) (port Cases.tlsClient)
                      (host Cases.tlsClient) :: t
       /\ existsb isConnected t = false.
Proof.
  assert (H : recipientsOf Scenario.toThree <> []) by discriminate.
  exact (conj eq_refl
           (conj H
              (send_opens_one_socket Scenario.env Cases.tlsClient Scenario.toThree
                 (initialWorld Scenario.secondRefused) _ _ eq_refl H
                 (surjective_pairing _)))).
Defined.

End SocketFacts.

(** ** The HTTP route *)

Module RouteFacts.
Import SessionFacts.

(** Without [host], [from] or [to] the route answers 400 with its fixed
    text, and nothing was done on the network: no client was made. *)
Theorem route_missing_field_is_400 (env : Env) (rq : requestBody) (w : world) :
  truthy (rqHost rq) = false \/ truthy (rqFrom rq) = false
  \/ truthyAddresses (rqTo rq) = false ->
  sendEmailRoute env rq w = (Some (mkHttpResponse 400 (ErrorJson requiredFields)), w).
Proof.
  intros H. unfold sendEmailRoute.
  destruct H as [-> | [-> | ->]]; cbn [negb orb]; rewrite ?orb_true_r; reflexivity.
Qed.

Lemma route_missing_field_is_400_witness :
  (truthy (rqHost Cases.noFrom) = false \/ truthy (rqFrom Cases.noFrom) = false
   \/ truthyAddresses (rqTo Cases.noFrom) = false)
  /\ sendEmailRoute Scenario.env Cases.noFrom (initialWorld Scenario.secondRefused)
     = (Some (mkHttpResponse 400 (ErrorJson requiredFields)),
        initialWorld Scenario.secondRefused).
Proof.
  assert (H : truthy (rqHost Cases.noFrom) = false \/ truthy (rqFrom Cases.noFrom) = false
              \/ truthyAddresses (rqTo Cases.noFrom) = false)
    by (right; left; reflexivity).
  exact (conj H (route_missing_field_is_400 Scenario.env Cases.noFrom
                   (initialWorld Scenario.secondRefused) H)).
Defined.

(** The check of the route lets through what [send] refuses: a [to] that
    is an array is truthy also when it is empty.  With no address in [to],
    [cc] and [bcc] the answer is then 500 with the text of [send] about the
    recipient, and still nothing was done on the network. *)
Theorem route_no_recipient_is_500 (env : Env) (rq : requestBody) (w : world) :
  truthy (rqHost rq) = true -> truthy (rqFrom rq) = true ->
  truthyAddresses (rqTo rq) = true ->
  recipientsOf (messageOf rq) = [] ->
  sendEmailRoute env rq w
  = (Some (mkHttpResponse 500 (ErrorJson (errorMessage RecipientRequired))), w).
Proof.
  intros Hh Hf Ht Hr. unfold sendEmailRoute. rewrite Hh, Hf, Ht. cbn [negb orb].
  rewrite (send_validation env (clientOf rq) (messageOf rq) w (or_intror Hr)).
  cbn [messageOf from]. now rewrite Hf.
Qed.

Lemma route_no_recipient_is_500_witness :
  truthy (rqHost Cases.emptyTo) = true /\ truthy (rqFrom Cases.emptyTo) = true
  /\ truthyAddresses (rqTo Cases.emptyTo) = true
  /\ recipientsOf (messageOf Cases.emptyTo) = []
  /\ sendEmailRoute Scenario.env Cases.emptyTo (initialWorld Scenario.secondRefused)
     = (Some (mkHttpResponse 500 (ErrorJson (errorMessage RecipientRequired))),
        initialWorld Scenario.secondRefused).
Proof.
  refine (conj eq_refl (conj eq_refl (conj eq_refl (conj eq_refl _)))).
  exact (route_no_recipient_is_500 Scenario.env Cases.emptyTo
           (initialWorld Scenario.secondRefused) eq_refl eq_refl eq_refl eq_refl).
Defined.

(** The socket of a request is ended exactly when the route answers 200,
    and the body of that answer is the fixed acknowledgement: on 400
    there is no socket, on 500 and when no answer ever comes the socket,
    if one was opened, stays open. *)
Theorem route_ends_socket_exactly_on_200
        (env : Env) (rq : requestBody) (w : world)
        (answer : option httpResponse) (w' : world) :
  closed w = false ->
  sendEmailRoute env rq w = (answer, w') ->
  closed w' = match answer with
              | Some r => status r =? 200
              | None => false
              end
  /\ forall r, answer = Some r -> status r = 200 ->
               body r = SuccessJson (lit "Enviado").
Proof.
  intros Hw. unfold sendEmailRoute.
  destruct (_ || _).
  - intros [= <- <-]. split; [exact Hw|]. intros r [= <-]. discriminate.
  - destruct (send env (clientOf rq) (messageOf rq) w) as [[res|e|] w1] eqn:E;
      intros [= <- <-];
      pose proof (send_closesOnReturn env _ _ w _ _ Hw E) as Hc; cbn beta iota in Hc.
    + split; [exact Hc|]. intros r [= <-] _. cbn [body].
      unfold send in E. cbv zeta in E.
      repeat (apply SuccessFacts.bind_returned in E as (? & ? & _ & E)).
      now injection E as <- _.
    + split; [exact Hc|]. intros r [= <-]. discriminate.
    + split; [exact Hc|]. intros r. discriminate.
Qed.

Lemma route_ends_socket_exactly_on_200_witness :
  closed (initialWorld Scenario.withStartTls) = false
  /\ sendEmailRoute Scenario.env Cases.complete (initialWorld Scenario.withStartTls)
     = (Some (mkHttpResponse 200 (SuccessJson (lit "Enviado"))),
        snd (sendEmailRoute Scenario.env Cases.complete
                            (initialWorld Scenario.withStartTls)))
  /\ (closed (snd (sendEmailRoute Scenario.env Cases.complete
                                  (initialWorld Scenario.withStartTls)))
      = (200 =? 200)
      /\ forall r, Some (mkHttpResponse 200 (SuccessJson (lit "Enviado"))) = Some r ->
                   status r = 200 -> body r = SuccessJson (lit "Enviado")).
Proof.
  assert (E : sendEmailRoute Scenario.env Cases.complete
                             (initialWorld Scenario.withStartTls)
              = (Some (mkHttpResponse 200 (SuccessJson (lit "Enviado"))),
                 snd (sendEmailRoute Scenario.env Cases.complete
                                     (initialWorld Scenario.withStartTls))))
    by (vm_compute; reflexivity).
  exact (conj eq_refl
           (conj E (route_ends_socket_exactly_on_200 Scenario.env Cases.complete
                      (initialWorld Scenario.withStartTls) _ _ eq_refl E))).
Defined.

(** A server that stays silent, or a socket that fails, before the banner:
    the request is answered 500 with the text of the timeout, or with the
    message of the error of the socket; a socket was opened, nothing was
    written on it, and it was not ended. *)
Theorem route_reports_a_dead_server
        (env : Env) (rq : requestBody) (err : jsstring) (events : list event) :
  truthy (rqHost rq) = true -> truthy (rqFrom rq) = true ->
  truthyAddresses (rqTo rq) = true ->
  recipientsOf (messageOf rq) <> [] ->
  (exists w',
     sendEmailRoute env rq (initialWorld (Idle :: events))
     = (Some (mkHttpResponse 500 (ErrorJson (lit "Timeout aguardando resposta SMTP"))),
        w')
     /\ opened w' = true /\ written w' = [] /\ closed w' = false)
  /\ (exists w',
        sendEmailRoute env rq (initialWorld (Failure err :: events))
        = (Some (mkHttpResponse 500 (ErrorJson err)), w')
        /\ opened w' = true /\ written w' = [] /\ closed w' = false).
Proof.
  intros Hh Hf Ht Hr.
  assert (H : forall ev e,
             (ev = Idle /\ e = Timeout) \/ (ev = Failure err /\ e = TransportError err) ->
             exists w',
               sendEmailRoute env rq (initialWorld (ev :: events))
               = (Some (mkHttpResponse 500 (ErrorJson (errorMessage e))), w')
               /\ opened w' = true /\ written w' = [] /\ closed w' = false).
  { intros ev e Hev. unfold sendEmailRoute. rewrite Hh, Hf, Ht. cbn [negb orb].
    unfold send. cbv zeta. cbn [messageOf from]. rewrite Hf.
    destruct (recipientsOf (messageOf rq)) as [|r rs] eqn:E; [congruence|].
    cbn [length Nat.eqb negb unless].
    rewrite run_bind. cbn [ret]. rewrite run_bind. cbn [ret].
    destruct Hev as [[-> ->]|[-> ->]]; eexists; (split; [reflexivity|]);
      repeat split; reflexivity. }
  split.
  - exact (H Idle Timeout (or_introl (conj eq_refl eq_refl))).
  - exact (H (Failure err) (TransportError err) (or_intror (conj eq_refl eq_refl))).
Qed.

Lemma route_reports_a_dead_server_witness :
  truthy (rqHost Cases.complete) = true /\ truthy (rqFrom Cases.complete) = true
  /\ truthyAddresses (rqTo Cases.complete) = true
  /\ recipientsOf (messageOf Cases.complete) <> []
  /\ ((exists w',
         sendEmailRoute Scenario.env Cases.complete (initialWorld (Idle :: []))
         = (Some (mkHttpResponse 500
                    (ErrorJson (lit "Timeout aguardando resposta SMTP"))), w')
         /\ opened w' = true /\ written w' = [] /\ closed w' = false)
      /\ (exists w',
            sendEmailRoute Scenario.env Cases.complete
                           (initialWorld (Failure (lit "ECONNRESET") :: []))
            = (Some (mkHttpResponse 500 (ErrorJson (lit "ECONNRESET"))), w')
            /\ opened w' = true /\ written w' = [] /\ closed w' = false)).
Proof.
  assert (H : recipientsOf (messageOf Cases.complete) <> []) by discriminate.
  exact (conj eq_refl (conj eq_refl (conj eq_refl (conj H
           (route_reports_a_dead_server Scenario.env Cases.complete
              (lit "ECONNRESET") [] eq_refl eq_refl eq_refl H))))).
Defined.

End RouteFacts.
